(** * Friday Draft Edit Analyzer: the content script's tracking core

    A shallow embedding of [analyzer/lengthChecker.js] (the content script
    that follows the length checker in that file): the edit-distance metric,
    the edit percentage, the search for compose windows, the paste-pattern
    detector with its debounce timer, the edit classifier with its
    heuristic fallback, and the two storage operations on the persisted
    draft list; and, of the dashboard and the tone analyzer, the listing of
    the stored drafts, the preview of a text and the stored key.

    Conventions.
    - A JS string is the list of its UTF-16 code units ([jsstring]);
      [s.length] is [length s] and [s[i]] is [s !! i].
    - A JS number that holds a length, an index, a count or a millisecond
      time stamp is an integer far below 2^53, where double arithmetic on
      integers is exact: such numbers are [nat] or [Z].  The three places
      that divide ([calculateEditPercentage], [categorizeLengthChange]) use
      the type [Number] of section [JS numbers], which rounds as binary64
      does.
    - A JS object used as a record is a finite map from property names to
      values ([gmap string jsval]).
    - Code that JS would abort with an exception, or that would leave the
      part of the language modelled here, returns [None]. *)

From Stdlib Require Import ZArith NArith QArith Qround Qabs Qpower Lia Lqa Floats.
From Stdlib Require Import Ascii String.
From stdpp Require Import gmap strings list fin_maps pretty.

Set Default Proof Using "Type".

(** ** Loops and arrays *)

(** [for (let i = start; i < start + count; i++) s = body(i, s)], where the
    body may abort. *)
Fixpoint for_loop {St : Type} (count start : nat)
    (body : nat → St → option St) (s : St) : option St :=
  match count with
  | O => Some s
  | S count' =>
      match body start s with
      | Some s' => for_loop count' (S start) body s'
      | None => None
      end
  end.

(** [arr[i] = v].  Inside the array the element is overwritten; at
    [i = arr.length] the array grows by one; further out JS would leave
    holes, which the arrays of this program never have. *)
Definition arr_set {A : Type} (arr : list A) (i : nat) (v : A) : option (list A) :=
  if decide (i < length arr) then Some (<[i:=v]> arr)
  else if decide (i = length arr) then Some (arr ++ [v])
  else None.

(** [matrix[i][j]] and [matrix[i][j] = v]; the rows are distinct arrays. *)
Definition mget (matrix : list (list nat)) (i j : nat) : option nat :=
  match matrix !! i with
  | Some row => row !! j
  | None => None
  end.

Definition mset (matrix : list (list nat)) (i j v : nat) : option (list (list nat)) :=
  match matrix !! i with
  | Some row =>
      match arr_set row j v with
      | Some row' => Some (<[i:=row']> matrix)
      | None => None
      end
  | None => None
  end.

(** ** The edit-distance metric *)

Section levenshtein.
Context {char : Type} `{EqDecision char}.

(** The body of the inner loop of [levenshteinDistance]. *)
Definition lev_cell (str1 str2 : list char) (i j : nat)
    (matrix : list (list nat)) : option (list (list nat)) :=
  match str1 !! (i - 1), str2 !! (j - 1) with
  | Some c1, Some c2 =>
      let cost := if decide (c1 = c2) then 0 else 1 in
      match mget matrix (i - 1) j, mget matrix i (j - 1),
            mget matrix (i - 1) (j - 1) with
      | Some up, Some lft, Some diag =>
          mset matrix i j ((up + 1) `min` ((lft + 1) `min` (diag + cost)))
      | _, _, _ => None
      end
  | _, _ => None
  end.

(** [levenshteinDistance(str1, str2)], loop by loop. *)
Definition levenshteinDistance (str1 str2 : list char) : option nat :=
  let len1 := length str1 in
  let len2 := length str2 in
  let matrix : list (list nat) := [] in
  match for_loop (S len1) 0 (λ i matrix, arr_set matrix i [i]) matrix with
  | Some matrix =>
      match for_loop (S len2) 0
              (λ j matrix,
                 match matrix !! 0 with
                 | Some row0 =>
                     match arr_set row0 j j with
                     | Some row0' => Some (<[0:=row0']> matrix)
                     | None => None
                     end
                 | None => None
                 end) matrix with
      | Some matrix =>
          match for_loop len1 1
                  (λ i matrix, for_loop len2 1 (lev_cell str1 str2 i) matrix)
                  matrix with
          | Some matrix => mget matrix len1 len2
          | None => None
          end
      | None => None
      end
  | None => None
  end.

(** *** What the distance is measured against

    One single-character edit: an insertion, a deletion or a substitution
    at any place of the string. *)
Inductive edit1 : list char → list char → Prop :=
  | edit1_ins p c q : edit1 (p ++ q) (p ++ c :: q)
  | edit1_del p c q : edit1 (p ++ c :: q) (p ++ q)
  | edit1_sub p c c' q : edit1 (p ++ c :: q) (p ++ c' :: q).

(** [edits n a b]: [n] single-character edits in a row turn [a] into [b]. *)
Inductive edits : nat → list char → list char → Prop :=
  | edits_O a : edits 0 a a
  | edits_S n a b c : edit1 a b → edits n b c → edits (S n) a c.

(** The textbook recurrence, on the heads of the two strings. *)
Fixpoint lev (a : list char) : list char → nat :=
  fix lev_a (b : list char) : nat :=
    match a, b with
    | [], _ => length b
    | _, [] => length a
    | x :: a', y :: b' =>
        (lev a' b + 1) `min`
          ((lev_a b' + 1) `min` (lev a' b' + (if decide (x = y) then 0 else 1)))
    end.

(** *** The matrix during the run

    The cell [matrix[i][j]] is meant to hold the distance between the first
    [i] characters of [str1] and the first [j] of [str2]. *)
Definition lev_dp (str1 str2 : list char) (i j : nat) : nat :=
  lev (reverse (take i str1)) (reverse (take j str2)).

Definition lev_dp_row (str1 str2 : list char) (i n : nat) : list nat :=
  lev_dp str1 str2 i <$> seq 0 n.

(** The matrix when the outer loop is in row [i] and the inner loop is
    about to write column [j]: the rows above are complete, row [i] has its
    first [j] cells, the rows below still are [[k]]. *)
Definition lev_dp_matrix (str1 str2 : list char) (i j : nat) : list (list nat) :=
  (λ k, if decide (k < i) then lev_dp_row str1 str2 k (S (length str2))
        else if decide (k = i) then lev_dp_row str1 str2 k j else [k])
    <$> seq 0 (S (length str1)).
End levenshtein.


(** ** JS numbers

    A JS number is a binary64 value.  A finite one is written here as the
    rational it denotes; every arithmetic operation computes the exact
    rational result and rounds it to the nearest binary64 value, ties to
    the even significand, as IEEE 754 and ECMAScript define the operation.
    The sign of zero is not represented: every zero is [+0], as is every
    zero this program divides by or compares. *)
Inductive Number : Type :=
  | NaN
  | Infinity (negative : bool)
  | Finite (q : Q).

(** The exponent of the binade of a positive rational:
    [2 ^ ilog2 q ≤ q < 2 ^ (ilog2 q + 1)]. *)
Definition ilog2 (q : Q) : Z :=
  let e := (Z.log2 (Qnum q) - Z.log2 (Z.pos (Qden q)))%Z in
  if Qle_bool (2 ^ e) q then e else (e - 1)%Z.

(** Rounding to the nearest integer, a tie going to the even one. *)
Definition rne (q : Q) : Z :=
  let f := Qfloor q in
  match (q - inject_Z f ?= 1 # 2)%Q with
  | Lt => f
  | Gt => (f + 1)%Z
  | Eq => if Z.even f then f else (f + 1)%Z
  end.

(** Rounding a positive rational to 53 significant bits: the unit in the
    last place is [2 ^ (ilog2 a - 52)], and never below the subnormal
    spacing [2 ^ -1074]. *)
Definition ulp_exp (a : Q) : Z := Z.max (ilog2 a - 52) (-1074).

Definition round_mag (a : Q) : Q :=
  let u := (2 ^ ulp_exp a)%Q in
  (inject_Z (rne (a / u)) * u)%Q.

(** Rounding to nearest-even is symmetric around zero. *)
Definition round_to_double (q : Q) : Q :=
  match (q ?= 0)%Q with
  | Eq => 0%Q
  | Gt => round_mag q
  | Lt => (- round_mag (- q))%Q
  end.

(** Rounding a rational to binary64; from [2 ^ 1024] on the result is an
    infinity. *)
Definition round64 (q : Q) : Number :=
  let r := round_to_double q in
  if Qle_bool (2 ^ 1024) (Qabs r) then Infinity (negb (Qle_bool 0 q))
  else Finite (Qred r).

(** A length or a count as a number (exact below 2^53, where every length
    of a JS string lies). *)
Definition Number_of_nat (n : nat) : Number := Finite (inject_Z (Z.of_nat n)).

Definition Number_of_Z (z : Z) : Number := Finite (inject_Z z).

(** [x / y] *)
Definition js_div (x y : Number) : Number :=
  match x, y with
  | NaN, _ | _, NaN => NaN
  | Infinity _, Infinity _ => NaN
  | Infinity s, Finite b => Infinity (xorb s (negb (Qle_bool 0 b)))
  | Finite _, Infinity _ => Finite 0
  | Finite a, Finite b =>
      if Qeq_bool b 0 then
        if Qeq_bool a 0 then NaN else Infinity (negb (Qle_bool 0 a))
      else round64 (a / b)
  end.

(** [x * y] *)
Definition js_mul (x y : Number) : Number :=
  match x, y with
  | NaN, _ | _, NaN => NaN
  | Infinity s, Infinity t => Infinity (xorb s t)
  | Infinity s, Finite b =>
      if Qeq_bool b 0 then NaN else Infinity (xorb s (negb (Qle_bool 0 b)))
  | Finite a, Infinity t =>
      if Qeq_bool a 0 then NaN else Infinity (xorb (negb (Qle_bool 0 a)) t)
  | Finite a, Finite b => round64 (a * b)
  end.

(** [Math.round(x)]: the integer nearest to [x], a tie going up. *)
Definition Math_round (x : Number) : Number :=
  match x with
  | Finite q => Finite (inject_Z (Qfloor (q + (1 # 2))))
  | _ => x
  end.

(** [x < y], [x > y], [x >= y]: false as soon as one side is [NaN]. *)
Definition js_lt (x y : Number) : bool :=
  match x, y with
  | NaN, _ | _, NaN => false
  | Infinity s, Infinity t => s && negb t
  | Infinity s, Finite _ => s
  | Finite _, Infinity t => negb t
  | Finite a, Finite b => negb (Qle_bool b a)
  end.

Definition js_gt (x y : Number) : bool := js_lt y x.

Definition js_ge (x y : Number) : bool :=
  match x, y with
  | NaN, _ | _, NaN => false
  | _, _ => negb (js_lt x y)
  end.

(** The value a binary64 datum of the kernel denotes, for comparing the
    operations above with the hardware's on concrete operands. *)
Definition Number_of_float (f : float) : Number :=
  match Prim2SF f with
  | S754_zero _ => Finite 0
  | S754_infinity s => Infinity s
  | S754_nan => NaN
  | S754_finite s m e =>
      Finite (Qred ((if s then -1 else 1) * inject_Z (Z.pos m) * 2 ^ e))
  end.

Definition float_of_nat (n : nat) : float :=
  PrimFloat.of_uint63 (Uint63.of_Z (Z.of_nat n)).

Definition float_of_Z (z : Z) : float :=
  if (z <? 0)%Z then PrimFloat.opp (float_of_nat (Z.to_nat (- z)))
  else float_of_nat (Z.to_nat z).

Definition same_number (x y : Number) : bool :=
  match x, y with
  | Finite a, Finite b => Qeq_bool a b
  | NaN, NaN => true
  | Infinity s, Infinity t => bool_decide (s = t)
  | _, _ => false
  end.

(** [d / m * 100] and [(f - o) / o * 100] computed by the operations above
    and by the kernel's binary64 arithmetic: the same value? *)
Definition percent_operations_agree (d m : nat) : bool :=
  same_number
    (js_mul (js_div (Number_of_nat d) (Number_of_nat m)) (Number_of_nat 100))
    (Number_of_float
       (PrimFloat.mul (PrimFloat.div (float_of_nat d) (float_of_nat m))
          (float_of_nat 100))).

Definition change_operations_agree (o f : nat) : bool :=
  same_number
    (js_mul (js_div (Number_of_Z (Z.of_nat f - Z.of_nat o)) (Number_of_nat o))
       (Number_of_nat 100))
    (Number_of_float
       (PrimFloat.mul
          (PrimFloat.div (float_of_Z (Z.of_nat f - Z.of_nat o)) (float_of_nat o))
          (float_of_nat 100))).

(** The same question for one product and one quotient of two binary64
    values. *)
Definition product_agrees (x y : float) : bool :=
  same_number (js_mul (Number_of_float x) (Number_of_float y))
    (Number_of_float (PrimFloat.mul x y)).

Definition quotient_agrees (x y : float) : bool :=
  same_number (js_div (Number_of_float x) (Number_of_float y))
    (Number_of_float (PrimFloat.div x y)).

(** *** For the length heuristic

    The value a rational rounds to when that is finite, and a ratio that
    lies above one fifth and below every ratio above one fifth of two counts
    under 2^32 (21474836480 is 5 * 2^32). *)
Definition is_Finite (x : Number) : bool :=
  match x with
  | Finite _ => true
  | _ => false
  end.

Definition round64_value (q : Q) : Q :=
  match round64 q with
  | Finite r => r
  | _ => 0
  end.

Definition fifth_above : Q := (1 # 5) + (1 # 21474836480).

(** ** JS strings *)

(** A string is the sequence of its UTF-16 code units. *)
Definition jsstring : Type := list N.

(** A string literal of the source (ASCII). *)
Definition js (s : string) : jsstring :=
  (λ c, Ascii.N_of_ascii c) <$> String.list_ascii_of_string s.
Arguments js _%_string.

(** The class [\s] of JS regular expressions: white space and line
    terminators. *)
Definition is_ws (c : N) : bool :=
  ((9 <=? c) && (c <=? 13) || (c =? 32) || (c =? 160) || (c =? 5760)
   || (8192 <=? c) && (c <=? 8202) || (c =? 8232) || (c =? 8233)
   || (c =? 8239) || (c =? 8287) || (c =? 12288) || (c =? 65279))%N.

(** [s.split(/\s+/)]: the pieces of [s] between maximal runs of white space.
    [in_run] says that the last character read was white space, [piece] is
    the piece being read.  A run at the start or at the end of [s] leaves an
    empty piece there, and the empty string has the one piece [""]. *)
Fixpoint split_ws_from (in_run : bool) (piece s : jsstring) : list jsstring :=
  match s with
  | [] => [piece]
  | c :: s' =>
      if is_ws c then
        if in_run then split_ws_from true [] s'
        else piece :: split_ws_from true [] s'
      else split_ws_from false (piece ++ [c]) s'
  end.

Definition split_ws (s : jsstring) : list jsstring := split_ws_from false [] s.

(** [text.split(/\s+/).filter(w => w.length > 0).length] *)
Definition wordCount (text : jsstring) : nat :=
  length (filter (λ w : jsstring, 0 < length w) (split_ws text)).

(** ** The edit percentage *)

(** [calculateEditPercentage(original, final)] *)
Definition calculateEditPercentage (original final : jsstring) : option Number :=
  match levenshteinDistance original final with
  | Some distance =>
      let maxLength := length original `max` length final in
      Some (Math_round
              (js_mul (js_div (Number_of_nat distance) (Number_of_nat maxLength))
                 (Number_of_nat 100)))
  | None => None
  end.

(** The percentage as the specification words it,
    [round(distance / max(len(A), len(B)) * 100)] with the zero-length
    divide special-cased to 0, over the same arithmetic. *)
Definition editPercentage_spec (distance maxLength : nat) : Number :=
  if decide (maxLength = 0) then Finite 0
  else Math_round
         (js_mul (js_div (Number_of_nat distance) (Number_of_nat maxLength))
            (Number_of_nat 100)).

(** [d] is the least number of single-character edits that turn [a] into
    [b]. *)
Definition edit_distance (a b : jsstring) (d : nat) : Prop :=
  edits d a b ∧ ∀ n, edits n a b → d ≤ n.

(** ** The length heuristic *)

(** [categorizeLengthChange(original, final)].  Note the counts: the pieces
    of [split], empty ones included. *)
Definition categorizeLengthChange (original final : jsstring) : jsstring :=
  let origWords := length (split_ws original) in
  let finalWords := length (split_ws final) in
  let change :=
    js_mul (js_div (Number_of_Z (Z.of_nat finalWords - Z.of_nat origWords))
              (Number_of_nat origWords))
      (Number_of_nat 100) in
  if js_gt change (Number_of_nat 20) then js "Expanded"
  else if js_lt change (Number_of_Z (-20)) then js "Shortened"
  else js "No significant change".

(** ** JS values and objects *)

#[local] Unset Elimination Schemes.
Inductive jsval : Type :=
  | VUndefined
  | VNull
  | VBool (b : bool)
  | VNum (n : Number)
  | VStr (s : jsstring)
  | VArr (l : list jsval)
  | VObj (o : gmap string jsval).
#[local] Set Elimination Schemes.

(** [o.k] on an object: a missing property reads as [undefined]. *)
Definition get (o : gmap string jsval) (k : string) : jsval :=
  default VUndefined (o !! k).

(** [v.k] on any value, for the property names this program reads from a
    response ([choices], [message], [content]): a [TypeError] ([None]) on
    [undefined] and [null], [undefined] on a value that is not an object. *)
Definition member (v : jsval) (k : string) : option jsval :=
  match v with
  | VUndefined | VNull => None
  | VObj o => Some (get o k)
  | _ => Some VUndefined
  end.

(** [v[0]] *)
Definition element0 (v : jsval) : option jsval :=
  match v with
  | VUndefined | VNull => None
  | VArr l => Some (default VUndefined (l !! 0))
  | VStr s => Some (match s with c :: _ => VStr [c] | [] => VUndefined end)
  | VObj o => Some (get o "0")
  | _ => Some VUndefined
  end.

(** Truthiness, and [a || b]. *)
Definition truthy (v : jsval) : bool :=
  match v with
  | VUndefined | VNull => false
  | VBool b => b
  | VNum NaN => false
  | VNum (Infinity _) => true
  | VNum (Finite q) => negb (Qeq_bool q 0)
  | VStr s => negb (bool_decide (s = []))
  | VArr _ | VObj _ => true
  end.

Definition js_or (a b : jsval) : jsval := if truthy a then a else b.

(** [v === s] for a string [s]. *)
Definition strict_eq_str (v : jsval) (s : jsstring) : bool :=
  match v with
  | VStr t => bool_decide (t = s)
  | _ => false
  end.

(** The own enumerable properties that [{...v}] copies: those of an
    object, the indexed elements of an array or a string, nothing for the
    other values. *)
Definition spread (v : jsval) : gmap string jsval :=
  match v with
  | VObj o => o
  | VArr l => list_to_map (imap (λ i x, (pretty i, x)) l)
  | VStr s => list_to_map (imap (λ i c, (pretty i, VStr [c])) s)
  | _ => ∅
  end.

(** ** The edit classifier *)

(** What [fetch] resolves to: the [ok] flag, the status, and the body as
    [response.json()] reads it ([None] when that rejects). *)
Record Response : Type := {
  resp_ok : bool;
  resp_status : Z;
  resp_json : option jsval
}.

(** The request to the completion endpoint: the bearer key and the four
    values the prompt is built from. *)
Record Request : Type := {
  req_apiKey : jsstring;
  req_originalText : jsstring;
  req_finalText : jsstring;
  req_editPercentage : Number;
  req_sendDelay : Z
}.

(** What surrounds one call of the classifier: the stored key as
    [getOpenAIKey] resolves to it (the empty string when none is stored,
    [None] when reading the storage throws), the network ([None] when
    [fetch] rejects) and [JSON.parse] ([None] when it throws). *)
Record ClassifierEnv : Type := {
  openai_api_key : option jsstring;
  fetch : Request → option Response;
  JSON_parse : jsval → option jsval
}.

(** A verdict of the fallback paths. *)
Definition fallback_verdict (note summary : string)
    (originalText finalText : jsstring) : jsval :=
  VObj (<["toneChange" := VStr (js note)]>
       (<["ctaChange" := VStr (js note)]>
       (<["lengthChange" := VStr (categorizeLengthChange originalText finalText)]>
       (<["summary" := VStr (js summary)]> ∅)))).

(** [data.choices[0].message.content] for the body [data] of a response:
    [None] where reading the body or one of the member accesses throws. *)
Definition response_content (response : Response) : option jsval :=
  match resp_json response with
  | Some data =>
      match member data "choices" with
      | Some choices =>
          match element0 choices with
          | Some choice =>
              match member choice "message" with
              | Some message => member message "content"
              | None => None
              end
          | None => None
          end
      | None => None
      end
  | None => None
  end.

(** The [try] block of [analyzeEdits] after the key check: the value it
    returns, or [None] where it throws, and the requests it sent. *)
Definition analyzeEdits_call (env : ClassifierEnv) (request : Request)
    : option jsval * list Request :=
  (match fetch env request with
   | Some response =>
       if negb (resp_ok response) then None
       else
         match response_content response with
         | Some content => JSON_parse env content
         | None => None
         end
   | None => None
   end, [request]).

(** [analyzeEdits(originalText, finalText, editPercentage, sendDelay)]: the
    verdict the promise resolves to and the network calls made. *)
Definition analyzeEdits (env : ClassifierEnv) (originalText finalText : jsstring)
    (editPercentage : Number) (sendDelay : Z) : jsval * list Request :=
  match openai_api_key env with
  | Some apiKey =>
      if bool_decide (apiKey = []) then
        (fallback_verdict "Unable to analyze (no API key)" "No API key configured"
           originalText finalText, [])
      else
        let request :=
          {| req_apiKey := apiKey; req_originalText := originalText;
             req_finalText := finalText; req_editPercentage := editPercentage;
             req_sendDelay := sendDelay |} in
        match analyzeEdits_call env request with
        | (Some result, calls) => (result, calls)
        | (None, calls) =>
            (fallback_verdict "Unable to analyze (API error)" "Analysis failed"
               originalText finalText, calls)
        end
  | None =>
      (fallback_verdict "Unable to analyze (API error)" "Analysis failed"
         originalText finalText, [])
  end.

(** The ways a call can fail, in the words of the specification: the
    network call fails, the status is not a success, or the response cannot
    be parsed (its body, the path to the content, or the content). *)
Inductive api_failure (env : ClassifierEnv) (request : Request) : Prop :=
  | network_failure :
      fetch env request = None → api_failure env request
  | non_success_status response :
      fetch env request = Some response → resp_ok response = false →
      api_failure env request
  | unreadable_response response :
      fetch env request = Some response → resp_ok response = true →
      response_content response = None → api_failure env request
  | unparsable_content response content :
      fetch env request = Some response → resp_ok response = true →
      response_content response = Some content →
      JSON_parse env content = None → api_failure env request.

(** The length verdict on two counts: more than 20% more, more than 20%
    fewer, or neither. *)
Definition length_verdict (origWords finalWords : nat) : jsstring :=
  if decide (origWords < 5 * (finalWords - origWords)) then js "Expanded"
  else if decide (origWords < 5 * (origWords - finalWords)) then js "Shortened"
  else js "No significant change".

(** A text with a character that is not white space at either end. *)
Definition trimmed (s : jsstring) : Prop :=
  (∃ c, head s = Some c ∧ is_ws c = false)
  ∧ (∃ c, last s = Some c ∧ is_ws c = false).

(** Two surroundings to try the classifier in: no key stored, and a key
    stored with the network down. *)
Definition env_no_key : ClassifierEnv :=
  {| openai_api_key := Some []; fetch := λ _, None; JSON_parse := λ _, None |}.

Definition env_network_down : ClassifierEnv :=
  {| openai_api_key := Some (js "sk-test"); fetch := λ _, None;
     JSON_parse := λ _, None |}.

(** ** The persisted draft list *)

(** The list under the key [drafts] of [chrome.storage.local]: [None] while
    the key is absent.  Each storage operation below is the callback of one
    [get], taken with its [set] as one step. *)
Definition Drafts : Type := option (list (gmap string jsval)).

(** The draft being tracked ([currentDraft]). *)
Record Draft : Type := {
  draft_id : jsstring;
  draft_textBox : nat;
  originalText : jsstring;
  originalWordCount : nat;
  generatedAt : jsstring;
  timestamp : Z
}.

(** The record [storeDraft] builds. *)
Definition draftRecord (draft : Draft) : gmap string jsval :=
  <["id" := VStr (draft_id draft)]>
  (<["originalText" := VStr (originalText draft)]>
  (<["originalWordCount" := VNum (Number_of_nat (originalWordCount draft))]>
  (<["generatedAt" := VStr (generatedAt draft)]>
  (<["timestamp" := VNum (Number_of_Z (timestamp draft))]>
  (<["status" := VStr (js "pending")]> ∅))))).

(** [storeDraft(draft)] *)
Definition storeDraft (draft : Draft) (stored : Drafts) : Drafts :=
  let drafts := default [] stored in
  Some (drafts ++ [draftRecord draft]).

(** The record [updateDraftWithAnalysis] writes over [record]. *)
Definition merge_analysis (record analysisData : gmap string jsval)
    : gmap string jsval :=
  <["status" := js_or (get analysisData "status") (VStr (js "editing"))]>
  (<["summary" := get analysisData "summary"]>
  (<["lengthChange" := get analysisData "lengthChange"]>
  (<["ctaChange" := get analysisData "ctaChange"]>
  (<["toneChange" := get analysisData "toneChange"]>
  (<["editPercentage" := get analysisData "editPercentage"]>
  (<["sendDelay" := get analysisData "sendDelay"]>
  (<["sentAt" := get analysisData "sentAt"]>
  (<["finalWordCount" := get analysisData "finalWordCount"]>
  (<["finalText" := get analysisData "finalText"]> record))))))))).

(** The ten properties [updateDraftWithAnalysis] assigns. *)
Definition analysis_fields : list string :=
  ["finalText"; "finalWordCount"; "sentAt"; "sendDelay"; "editPercentage";
   "toneChange"; "ctaChange"; "lengthChange"; "summary"; "status"].

(** [updateDraftWithAnalysis(draftId, analysisData)]: [findIndex] gives the
    first record with that id; without one nothing is written. *)
Definition updateDraftWithAnalysis (draftId : jsstring)
    (analysisData : gmap string jsval) (stored : Drafts) : Drafts :=
  let drafts := default [] stored in
  match list_find (λ d, strict_eq_str (get d "id") draftId = true) drafts with
  | Some (draftIndex, record) =>
      Some (<[draftIndex := merge_analysis record analysisData]> drafts)
  | None => stored
  end.

(** The object [analyzeCurrentEdits] passes to [updateDraftWithAnalysis]:
    the spread of the verdict sits between the five measured fields and the
    status. *)
Definition analysis_data (currentText : jsstring) (wordCount : nat)
    (sentAt : jsstring) (timeSinceGeneration : Z) (editPercentage : Number)
    (analysis : jsval) : gmap string jsval :=
  <["status" := VStr (js "editing")]>
  (spread analysis ∪
   (<["finalText" := VStr currentText]>
   (<["finalWordCount" := VNum (Number_of_nat wordCount)]>
   (<["sentAt" := VStr sentAt]>
   (<["sendDelay" := VNum (Number_of_Z timeSinceGeneration)]>
   (<["editPercentage" := VNum editPercentage]> ∅)))))).

(** Two stored records and an analysis, to try the update on. *)
Definition record_a : gmap string jsval :=
  <["id" := VStr (js "draft_a")]> (<["status" := VStr (js "pending")]> ∅).

Definition record_b : gmap string jsval :=
  <["id" := VStr (js "draft_b")]> (<["status" := VStr (js "pending")]> ∅).

Definition sample_analysis : gmap string jsval :=
  analysis_data (js "Thanks, talk soon.") 3 (js "2023-11-14T22:14:00.000Z") 40000
    (Finite 50) VNull.

(** ** The draft-lifecycle tracker *)

(** [DETECTION_CONFIG] *)
Definition MIN_WORD_COUNT : nat := 30.
Definition BULK_INSERT_THRESHOLD : Z := 2000.
Definition MIN_EDIT_PERCENTAGE : nat := 10.
Definition ANALYSIS_DELAY : Z := 3000.

(** The variables [monitorComposeWindow] closes over, one set per call:
    the text box it found (DOM elements are numbered) and the state of the
    observer it puts on that text box.  Such a watcher is what is called a
    surface below; [observeComposeWindows] is there to give each text box
    one.  A timer handle is a positive integer. *)
Record Surface : Type := {
  textBox : nat;
  lastText : jsstring;
  lastChangeTime : Z;
  fridayDraftDetected : bool;
  analysisTimer : option positive
}.

(** An armed timer: its handle, the watcher (a call of
    [monitorComposeWindow], by its number) whose callback armed it, the
    time from which it may fire, and the [currentText] its closure holds. *)
Record Timer : Type := {
  timer_id : positive;
  timer_surface : nat;
  timer_due : Z;
  timer_text : jsstring
}.

(** A call of [analyzeEdits] that has not settled yet, with the values the
    [then] callback closes over. *)
Record Pending : Type := {
  pending_originalText : jsstring;
  pending_currentText : jsstring;
  pending_wordCount : nat;
  pending_editPercentage : Number;
  pending_timeSinceGeneration : Z
}.

(** The calls a run makes, in order: [handleFridayDraftDetected] from the
    observer of a watcher, [storeDraft], [analyzeCurrentEdits] from the
    timer of a watcher, [analyzeEdits], [fetch] and
    [updateDraftWithAnalysis]. *)
Inductive Effect : Type :=
  | EDetected (surface : nat) (draftId : jsstring)
  | EStored (draft : Draft)
  | EAnalyze (surface : nat) (currentText : jsstring)
  | EClassify (original final : jsstring)
  | EFetch (request : Request)
  | EUpdate (draftId : jsstring) (analysisData : gmap string jsval).

(** The content script's state: the one shared [currentDraft], the
    watchers in the order of the calls of [monitorComposeWindow] that made
    them (a watcher's number is its place in this list; none is ever
    removed), the armed timers, the persisted list and the classifier calls
    in flight; [effects] records the calls made so far. *)
Record World : Type := {
  currentDraft : option Draft;
  surfaces : list Surface;
  timers : list Timer;
  next_timer : positive;
  stored_drafts : Drafts;
  in_flight : list Pending;
  effects : list Effect
}.

Definition initial_world : World :=
  {| currentDraft := None; surfaces := []; timers := []; next_timer := 1%positive;
     stored_drafts := None; in_flight := []; effects := [] |}.

(** What a detection reads from its surroundings: the id
    [generateDraftId] makes up, [new Date().toISOString()] and
    [Date.now()]. *)
Record Fresh : Type := {
  fresh_id : jsstring;
  fresh_iso : jsstring;
  fresh_now : Z
}.

(** The test of the observer callback, on the text and the time it read. *)
Definition paste_pattern (s : Surface) (currentText : jsstring) (currentTime : Z)
    : bool :=
  let wordCount := wordCount currentText in
  let timeDelta := (currentTime - lastChangeTime s)%Z in
  let textAdded := (Z.of_nat (length currentText) - Z.of_nat (length (lastText s)))%Z in
  negb (fridayDraftDetected s)
  && bool_decide (MIN_WORD_COUNT ≤ wordCount)
  && bool_decide (100 < textAdded)%Z
  && bool_decide (timeDelta < BULK_INSERT_THRESHOLD)%Z.

(** [handleFridayDraftDetected(textBox, originalText)], with [storeDraft],
    called from the observer of the watcher [surface]. *)
Definition handleFridayDraftDetected (surface textBox : nat) (text : jsstring)
    (fresh : Fresh) (w : World) : World :=
  let draft :=
    {| draft_id := fresh_id fresh; draft_textBox := textBox;
       originalText := text; originalWordCount := wordCount text;
       generatedAt := fresh_iso fresh; timestamp := fresh_now fresh |} in
  {| currentDraft := Some draft;
     surfaces := surfaces w;
     timers := timers w;
     next_timer := next_timer w;
     stored_drafts := storeDraft draft (stored_drafts w);
     in_flight := in_flight w;
     effects := effects w ++ [EDetected surface (fresh_id fresh); EStored draft] |}.

(** [clearTimeout(handle)] *)
Definition clearTimeout (handle : positive) (w : World) : World :=
  {| currentDraft := currentDraft w;
     surfaces := surfaces w;
     timers := filter (λ t, timer_id t ≠ handle) (timers w);
     next_timer := next_timer w;
     stored_drafts := stored_drafts w;
     in_flight := in_flight w;
     effects := effects w |}.

(** [setTimeout(() => analyzeCurrentEdits(currentText), ANALYSIS_DELAY)] *)
Definition setTimeout (surface : nat) (currentText : jsstring) (now : Z)
    (w : World) : World * positive :=
  let handle := next_timer w in
  ({| currentDraft := currentDraft w;
      surfaces := surfaces w;
      timers := timers w ++ [{| timer_id := handle; timer_surface := surface;
                                timer_due := (now + ANALYSIS_DELAY)%Z;
                                timer_text := currentText |}];
      next_timer := Pos.succ handle;
      stored_drafts := stored_drafts w;
      in_flight := in_flight w;
      effects := effects w |}, handle).

Definition set_surface (surface : nat) (s : Surface) (w : World) : World :=
  {| currentDraft := currentDraft w;
     surfaces := <[surface := s]> (surfaces w);
     timers := timers w;
     next_timer := next_timer w;
     stored_drafts := stored_drafts w;
     in_flight := in_flight w;
     effects := effects w |}.

(** The callback of the mutation observer of one watcher, run with the text
    and the time it reads. *)
Definition on_mutation (surface : nat) (currentText : jsstring) (currentTime : Z)
    (fresh : Fresh) (w : World) : World :=
  match surfaces w !! surface with
  | None => w
  | Some s =>
      if bool_decide (currentText = lastText s) then w
      else
        let detect := paste_pattern s currentText currentTime in
        let w := if detect
                 then handleFridayDraftDetected surface (textBox s) currentText
                        fresh w
                 else w in
        let detected := fridayDraftDetected s || detect in
        if detected && bool_decide (is_Some (currentDraft w)) then
          let w := match analysisTimer s with
                   | Some handle => clearTimeout handle w
                   | None => w
                   end in
          let '(w, handle) := setTimeout surface currentText currentTime w in
          set_surface surface
            {| textBox := textBox s;
               lastText := currentText; lastChangeTime := currentTime;
               fridayDraftDetected := detected; analysisTimer := Some handle |} w
        else
          set_surface surface
            {| textBox := textBox s;
               lastText := currentText; lastChangeTime := currentTime;
               fridayDraftDetected := detected; analysisTimer := analysisTimer s |} w
  end.

(** [monitorComposeWindow(element)] at time [now], from the point where
    the text box has been found: whatever watches that text box already,
    the call makes a watcher of its own, with its own variables and its own
    observer. *)
Definition monitorComposeWindow (textBox : nat) (now : Z) (w : World) : World :=
  {| currentDraft := currentDraft w;
     surfaces :=
       surfaces w ++
         [{| textBox := textBox; lastText := []; lastChangeTime := now;
             fridayDraftDetected := false; analysisTimer := None |}];
     timers := timers w;
     next_timer := next_timer w;
     stored_drafts := stored_drafts w;
     in_flight := in_flight w;
     effects := effects w |}.

(** [analyzeCurrentEdits(currentText)] at time [now]: the call of
    [analyzeEdits] is left in flight. *)
Definition analyzeCurrentEdits (currentText : jsstring) (now : Z) (w : World)
    : World :=
  match currentDraft w with
  | None => w
  | Some draft =>
      match calculateEditPercentage (originalText draft) currentText with
      | None => w
      | Some editPercentage =>
          if js_ge editPercentage (Number_of_nat MIN_EDIT_PERCENTAGE) then
            {| currentDraft := currentDraft w;
               surfaces := surfaces w;
               timers := timers w;
               next_timer := next_timer w;
               stored_drafts := stored_drafts w;
               in_flight :=
                 in_flight w ++
                   [{| pending_originalText := originalText draft;
                       pending_currentText := currentText;
                       pending_wordCount := wordCount currentText;
                       pending_editPercentage := editPercentage;
                       pending_timeSinceGeneration := (now - timestamp draft)%Z |}];
               effects := effects w ++ [EClassify (originalText draft) currentText] |}
          else w
      end
  end.

(** A timer fires: its callback runs. *)
Definition timer_callback (now : Z) (w : World) (t : Timer) : World :=
  analyzeCurrentEdits (timer_text t) now
    {| currentDraft := currentDraft w;
       surfaces := surfaces w;
       timers := timers w;
       next_timer := next_timer w;
       stored_drafts := stored_drafts w;
       in_flight := in_flight w;
       effects := effects w ++ [EAnalyze (timer_surface t) (timer_text t)] |}.

(** The event loop reaches time [now]: the timers due by then fire, in the
    order they were armed, and are armed no more. *)
Definition run_timers (now : Z) (w : World) : World :=
  let due := filter (λ t, (timer_due t ≤ now)%Z) (timers w) in
  foldl (timer_callback now)
    {| currentDraft := currentDraft w;
       surfaces := surfaces w;
       timers := filter (λ t, ¬ (timer_due t ≤ now)%Z) (timers w);
       next_timer := next_timer w;
       stored_drafts := stored_drafts w;
       in_flight := in_flight w;
       effects := effects w |}
    due.

(** The [k]-th classifier call in flight settles: [analyzeEdits] runs in
    [env], and the [then] callback hands the verdict to
    [updateDraftWithAnalysis] under the id of the draft that is current
    then. *)
Definition settle (k : nat) (env : ClassifierEnv) (sentAt : jsstring) (w : World)
    : World :=
  match in_flight w !! k with
  | None => w
  | Some p =>
      let '(analysis, calls) :=
        analyzeEdits env (pending_originalText p) (pending_currentText p)
          (pending_editPercentage p) (pending_timeSinceGeneration p) in
      match currentDraft w with
      | None =>
          {| currentDraft := currentDraft w;
             surfaces := surfaces w;
             timers := timers w;
             next_timer := next_timer w;
             stored_drafts := stored_drafts w;
             in_flight := delete k (in_flight w);
             effects := effects w ++ (EFetch <$> calls) |}
      | Some draft =>
          let analysisData :=
            analysis_data (pending_currentText p) (pending_wordCount p) sentAt
              (pending_timeSinceGeneration p) (pending_editPercentage p) analysis in
          {| currentDraft := currentDraft w;
             surfaces := surfaces w;
             timers := timers w;
             next_timer := next_timer w;
             stored_drafts :=
               updateDraftWithAnalysis (draft_id draft) analysisData (stored_drafts w);
             in_flight := delete k (in_flight w);
             effects := effects w ++ (EFetch <$> calls)
                          ++ [EUpdate (draft_id draft) analysisData] |}
      end
  end.

(** The dashboard's "clear all": the key [drafts] is removed. *)
Definition clearAllData (w : World) : World :=
  {| currentDraft := currentDraft w;
     surfaces := surfaces w;
     timers := timers w;
     next_timer := next_timer w;
     stored_drafts := None;
     in_flight := in_flight w;
     effects := effects w |}.

(** What happens to the content script: [monitorComposeWindow] finds a
    text box, the observer of a watcher runs, time passes, a classifier
    call settles, the stored list is cleared.  A content change is seen by
    an observer after the timers that were due by then have fired. *)
Inductive Event : Type :=
  | Attach (textBox : nat) (now : Z)
  | Mutation (surface : nat) (currentText : jsstring) (currentTime : Z)
      (fresh : Fresh)
  | Tick (now : Z)
  | Settle (k : nat) (env : ClassifierEnv) (sentAt : jsstring)
  | ClearAll.

Definition step (w : World) (e : Event) : World :=
  match e with
  | Attach textBox now => monitorComposeWindow textBox now w
  | Mutation surface currentText currentTime fresh =>
      on_mutation surface currentText currentTime fresh (run_timers currentTime w)
  | Tick now => run_timers now w
  | Settle k env sentAt => settle k env sentAt w
  | ClearAll => clearAllData w
  end.

Definition run (events : list Event) (w : World) : World := foldl step w events.

(** The texts [analyzeCurrentEdits] was called with from the timers of one
    watcher, the calls of the handler from the observer of one watcher, and
    the records appended for one text box, as the effects record them. *)
Definition analyses_of (surface : nat) (l : list Effect) : list jsstring :=
  omap (λ e, match e with
             | EAnalyze s text => if decide (s = surface) then Some text else None
             | _ => None
             end) l.

Definition is_detected_on (surface : nat) (e : Effect) : bool :=
  match e with
  | EDetected s _ => bool_decide (s = surface)
  | _ => false
  end.

Definition detections_of (surface : nat) (l : list Effect) : nat :=
  length (filter (λ e, is_detected_on surface e = true) l).

Definition is_stored_for (textBox : nat) (e : Effect) : bool :=
  match e with
  | EStored draft => bool_decide (draft_textBox draft = textBox)
  | _ => false
  end.

Definition stores_of (textBox : nat) (l : list Effect) : nat :=
  length (filter (λ e, is_stored_for textBox e = true) l).

Definition is_classifier_effect (e : Effect) : bool :=
  match e with EClassify _ _ | EFetch _ | EUpdate _ _ => true | _ => false end.

(** ** The vocabulary of the claims about the tracker *)

(** The handler fired between [w] and [w']: it captured a draft, which is
    the current one now, and stored it. *)
Definition detection_fires (surface : nat) (w w' : World) : Prop :=
  ∃ draft,
    effects w' = effects w ++ [EDetected surface (draft_id draft); EStored draft]
    ∧ currentDraft w' = Some draft.

(** The three thresholds as the specification words them: at least the
    minimum of words, at least [minChars] characters added, at most the
    bulk-insert window since the previous change. *)
Definition claimed_paste_pattern (minChars : Z) (s : Surface)
    (currentText : jsstring) (currentTime : Z) : Prop :=
  MIN_WORD_COUNT ≤ wordCount currentText
  ∧ (minChars ≤ Z.of_nat (length currentText) - Z.of_nat (length (lastText s)))%Z
  ∧ (currentTime - lastChangeTime s ≤ BULK_INSERT_THRESHOLD)%Z.

(** A text of 40 words and 250 characters, and what a detection of it may
    read from its surroundings. *)
Definition paste_40_250 : jsstring :=
  concat (replicate 39 (js "lorem ")) ++ js "consecteturadipi".

Definition fresh_1 : Fresh :=
  {| fresh_id := js "draft_1700000000500_k3x9q2m1z";
     fresh_iso := js "2023-11-14T22:13:20.500Z";
     fresh_now := 500 |}.

(** A watcher put on text box 0 at time 0 and nothing else. *)
Definition attached_world : World := monitorComposeWindow 0 0 initial_world.

Definition attached_surface : Surface :=
  {| textBox := 0; lastText := []; lastChangeTime := 0;
     fridayDraftDetected := false; analysisTimer := None |}.

(** ** Invariants of the tracker *)

(** Effects of a timer callback: the analysis call and the classifier call
    it may start. *)
Definition timer_effect (e : Effect) : Prop :=
  match e with
  | EAnalyze _ _ | EClassify _ _ => True
  | _ => False
  end.

(** The one effect [analyzeCurrentEdits] may have. *)
Definition classify_effect (e : Effect) : Prop :=
  match e with
  | EClassify _ _ => True
  | _ => False
  end.

(** Effects of a settled classifier call. *)
Definition settle_effect (e : Effect) : Prop :=
  match e with
  | EFetch _ | EUpdate _ _ => True
  | _ => False
  end.

(** The detected flag of a watcher, false while there is none of that
    number. *)
Definition detected (surface : nat) (w : World) : bool :=
  match surfaces w !! surface with
  | Some s => fridayDraftDetected s
  | None => false
  end.

(** The armed timers that belong to one watcher. *)
Definition timers_of (surface : nat) (w : World) : list Timer :=
  filter (λ t, timer_surface t = surface) (timers w).

(** Timers and the shared draft: a watcher that has detected has a current
    draft to compare with; handles are fresh and distinct; an armed timer
    is the one its watcher remembers in [analysisTimer]. *)
Record timers_inv (w : World) : Prop := {
  inv_draft : ∀ surface, detected surface w = true → is_Some (currentDraft w);
  inv_fresh : ∀ t, t ∈ timers w → (timer_id t < next_timer w)%positive;
  inv_distinct : NoDup (timer_id <$> timers w);
  inv_owner : ∀ t, t ∈ timers w →
    ∃ s, surfaces w !! timer_surface t = Some s
         ∧ analysisTimer s = Some (timer_id t)
}.

(** A status this subsystem writes. *)
Definition written_status (v : jsval) : Prop :=
  v = VStr (js "pending") ∨ v = VStr (js "editing").

(** What the effects say about the statuses written: a stored record is
    pending, an update carries the status editing. *)
Definition status_effect (e : Effect) : Prop :=
  match e with
  | EStored draft => get (draftRecord draft) "status" = VStr (js "pending")
  | EUpdate _ analysisData => get analysisData "status" = VStr (js "editing")
  | _ => True
  end.

(** Content changes seen by one watcher that follow one another within the
    quiet period, each with a text that differs from the one before. *)
Fixpoint paced (previousText : jsstring) (previousTime : option Z)
    (changes : list (jsstring * Z * Fresh)) : Prop :=
  match changes with
  | [] => True
  | (text, time, _) :: changes' =>
      text ≠ previousText
      ∧ match previousTime with
        | Some t => (t ≤ time < t + ANALYSIS_DELAY)%Z
        | None => True
        end
      ∧ paced text (Some time) changes'
  end.

Definition mutations (surface : nat) (changes : list (jsstring * Z * Fresh))
    : list Event :=
  (λ c, Mutation surface c.1.1 c.1.2 c.2) <$> changes.

(** The observer of each watcher has called the handler once if the
    watcher's flag is set and never otherwise. *)
Definition once_inv (w : World) : Prop :=
  ∀ surface,
    detections_of surface (effects w) = (if detected surface w then 1 else 0).

(** Every stored record, and every effect, carries a status this subsystem
    writes. *)
Definition status_inv (w : World) : Prop :=
  Forall (λ record, written_status (get record "status"))
    (default [] (stored_drafts w))
  ∧ Forall status_effect (effects w).

(** A world with a current draft whose baseline is the sentence of the
    specification's example, and that sentence with white space changed. *)
Definition baseline_text : jsstring :=
  js "Hello, just following up on our call yesterday. Let me know your thoughts.".

Definition respaced_text : jsstring :=
  js "Hello,  just following up on our call yesterday.  Let me know your thoughts. ".

Definition baseline_world : World :=
  {| currentDraft :=
       Some {| draft_id := fresh_id fresh_1; draft_textBox := 0;
               originalText := baseline_text;
               originalWordCount := wordCount baseline_text;
               generatedAt := fresh_iso fresh_1; timestamp := fresh_now fresh_1 |};
     surfaces := []; timers := []; next_timer := 1%positive;
     stored_drafts := None; in_flight := []; effects := [] |}.

(** The world after the text of 40 words was pasted into the watched text
    box, the watcher as it is then, and three edits of the text, half a
    second apart (the first two, then the last). *)
Definition detected_world : World :=
  run [Attach 0 0; Mutation 0 paste_40_250 500 fresh_1] initial_world.

Definition detected_surface : Surface :=
  {| textBox := 0; lastText := paste_40_250; lastChangeTime := 500;
     fridayDraftDetected := true; analysisTimer := Some 1%positive |}.

Definition three_edits : list (jsstring * Z * Fresh) :=
  [(paste_40_250 ++ js " T", 1000%Z, fresh_1);
   (paste_40_250 ++ js " Th", 1500%Z, fresh_1)].

Definition last_edit : jsstring := paste_40_250 ++ js " Thx".

(** One whole episode after the paste: the text is cut to 26 words at
    1000 ms, the timer fires, and the classifier, without a key, settles. *)
Definition shortened_text : jsstring :=
  concat (replicate 25 (js "lorem ")) ++ js "ipsum".

Definition episode : list Event :=
  [Mutation 0 shortened_text 1000 fresh_1; Tick 4000;
   Settle 0 env_no_key (js "2023-11-14T22:13:24.000Z")].

(** The state between two changes of a run of changes: the watcher has
    detected and has seen [text], its one armed timer holds [text] and is
    due a quiet period after [time], and no analysis has run from its
    timers since the world [w0]. *)
Definition between_changes (surface : nat) (w0 w : World) (text : jsstring)
    (time : Z) : Prop :=
  timers_inv w
  ∧ (∃ s, surfaces w !! surface = Some s ∧ fridayDraftDetected s = true
          ∧ lastText s = text)
  ∧ (∃ t, timers_of surface w = [t] ∧ timer_text t = text
          ∧ timer_due t = (time + ANALYSIS_DELAY)%Z)
  ∧ analyses_of surface (effects w) = analyses_of surface (effects w0).

(** ** Finding the text boxes ([observeComposeWindows]) *)

(** The page: the content script's state, [watchedComposeWindows] (the
    elements it holds, by number), and the calls of [monitorComposeWindow]
    that the body observer has set to run, each with the time from which it
    may and the text box it is for. *)
Record Page : Type := {
  page_world : World;
  watchedComposeWindows : gset nat;
  monitor_timers : list (Z * nat)
}.

Definition initial_page : Page :=
  {| page_world := initial_world; watchedComposeWindows := ∅;
     monitor_timers := [] |}.

(** [monitorComposeWindow(element)] for an element that is no text box,
    given the editable text boxes in it: the first one is watched; without
    one the call returns. *)
Definition monitor_container (textBoxes : list nat) (now : Z) (w : World) : World :=
  match head textBoxes with
  | Some textBox => monitorComposeWindow textBox now w
  | None => w
  end.

(** The end of [observeComposeWindows], for one dialog that is open (the
    dialog and the editable text boxes in it): unless the dialog is in
    [watchedComposeWindows], it is added and handed to
    [monitorComposeWindow]. *)
Definition watch_existing (now : Z) (page : Page) (window : nat * list nat) : Page :=
  if bool_decide (window.1 ∈ watchedComposeWindows page) then page
  else
    {| page_world := monitor_container window.2 now (page_world page);
       watchedComposeWindows := {[window.1]} ∪ watchedComposeWindows page;
       monitor_timers := monitor_timers page |}.

(** The callback of the body observer, for one text box found in an added
    node: unless the text box is in [watchedComposeWindows], it is added
    and [monitorComposeWindow] is set to run on it 500 ms later. *)
Definition watch_added (now : Z) (page : Page) (textBox : nat) : Page :=
  if bool_decide (textBox ∈ watchedComposeWindows page) then page
  else
    {| page_world := page_world page;
       watchedComposeWindows := {[textBox]} ∪ watchedComposeWindows page;
       monitor_timers := monitor_timers page ++ [((now + 500)%Z, textBox)] |}.

(** The calls set to run by [now] are made, in the order they were set,
    and are set no more. *)
Definition run_monitor_timers (now : Z) (page : Page) : Page :=
  {| page_world :=
       foldl (λ w call, monitorComposeWindow call.2 now w) (page_world page)
         (filter (λ call, (call.1 ≤ now)%Z) (monitor_timers page));
     watchedComposeWindows := watchedComposeWindows page;
     monitor_timers := filter (λ call, ¬ (call.1 ≤ now)%Z) (monitor_timers page) |}.

(** The watchers whose observer is on a text box, in the order they were
    made. *)
Definition observers_of (box : nat) (w : World) : list nat :=
  filter (λ surface, textBox <$> surfaces w !! surface = Some box)
    (seq 0 (length (surfaces w))).

Definition in_page (f : World → World) (page : Page) : Page :=
  {| page_world := f (page_world page);
     watchedComposeWindows := watchedComposeWindows page;
     monitor_timers := monitor_timers page |}.

(** What happens in the page: [observeComposeWindows] runs and finds the
    dialogs that are open; nodes are added, with text boxes in them; the
    content of a text box changes, and every observer on it runs, each
    detection reading its own surroundings; time passes; a classifier call
    settles; the stored list is cleared. *)
Inductive PageEvent : Type :=
  | Observe (existingWindows : list (nat * list nat)) (now : Z)
  | Added (textBoxes : list nat) (now : Z)
  | Changed (box : nat) (currentText : jsstring) (currentTime : Z)
      (fresh : nat → Fresh)
  | Elapse (now : Z)
  | Settled (k : nat) (env : ClassifierEnv) (sentAt : jsstring)
  | Cleared.

Definition page_step (page : Page) (e : PageEvent) : Page :=
  match e with
  | Observe existingWindows now => foldl (watch_existing now) page existingWindows
  | Added textBoxes now => foldl (watch_added now) page textBoxes
  | Changed box currentText currentTime fresh =>
      in_page
        (λ w, run ((λ surface, Mutation surface currentText currentTime
                                 (fresh surface))
                   <$> observers_of box w) w)
        page
  | Elapse now => in_page (run_timers now) (run_monitor_timers now page)
  | Settled k env sentAt => in_page (settle k env sentAt) page
  | Cleared => in_page clearAllData page
  end.

Definition page_run (events : list PageEvent) (page : Page) : Page :=
  foldl page_step page events.

(** ** Constants of the threshold proofs *)

(** The largest ratio of two lengths under 2^32 that lies below 19/200
    is at most this (858993459200 is 200 * 2^32). *)
Definition below_19_200 : Q := (19 # 200) - (1 # 858993459200).

(** ** More vocabulary for the tracker *)

(** The drafts captured and the requests sent, in order, as the effects
    record them. *)
Definition stored_of (l : list Effect) : list Draft :=
  omap (λ e, match e with EStored draft => Some draft | _ => None end) l.

Definition requests_of (l : list Effect) : list Request :=
  omap (λ e, match e with EFetch request => Some request | _ => None end) l.

(** Along a list of effects that starts with [current] as the shared
    draft: every classification compares with the draft captured last
    before it, and every update is addressed to that draft. *)
Fixpoint targets_current (current : option Draft) (l : list Effect) : Prop :=
  match l with
  | [] => True
  | EStored draft :: l' => targets_current (Some draft) l'
  | EClassify original _ :: l' =>
      (∃ draft, current = Some draft ∧ original = originalText draft)
      ∧ targets_current current l'
  | EUpdate draftId _ :: l' =>
      (∃ draft, current = Some draft ∧ draftId = draft_id draft)
      ∧ targets_current current l'
  | _ :: l' => targets_current current l'
  end.

(** The shared draft after the effects [l], when it was [current] before. *)
Definition current_after (current : option Draft) (l : list Effect) : option Draft :=
  match last (stored_of l) with
  | Some draft => Some draft
  | None => current
  end.

(** A draft that passed the paste-pattern test. *)
Definition passed_detection (draft : Draft) : Prop :=
  MIN_WORD_COUNT ≤ originalWordCount draft
  ∧ originalWordCount draft = wordCount (originalText draft)
  ∧ 100 < length (originalText draft).

(** An edit percentage that passed the minimum: an integer from 10 to
    100. *)
Definition analysed_percentage (x : Number) : Prop :=
  ∃ z : Z, x = Finite (inject_Z z) ∧ (10 ≤ z ≤ 100)%Z.

(** What the tracker keeps true of its shared draft, its calls in flight
    and its effects. *)
Record history_inv (w : World) : Prop := {
  hist_current : currentDraft w = last (stored_of (effects w));
  hist_targets : targets_current None (effects w);
  hist_drafts : Forall passed_detection (stored_of (effects w));
  hist_pending :
    Forall (λ p, analysed_percentage (pending_editPercentage p)
                 ∧ pending_wordCount p = wordCount (pending_currentText p)
                 ∧ ∃ draft, draft ∈ stored_of (effects w)
                            ∧ pending_originalText p = originalText draft)
      (in_flight w);
  hist_requests :
    Forall (λ request, analysed_percentage (req_editPercentage request)
                       ∧ ∃ draft, draft ∈ stored_of (effects w)
                                  ∧ req_originalText request = originalText draft)
      (requests_of (effects w));
  hist_records :
    Forall (λ record, ∃ draft, draft ∈ stored_of (effects w)
                               ∧ ∀ k, k ∉ analysis_fields →
                                      record !! k = draftRecord draft !! k)
      (default [] (stored_drafts w))
}.

(** The draft of the watched text box once the text of 40 words is
    pasted. *)
Definition draft_1 : Draft :=
  {| draft_id := fresh_id fresh_1; draft_textBox := 0;
     originalText := paste_40_250; originalWordCount := wordCount paste_40_250;
     generatedAt := fresh_iso fresh_1; timestamp := fresh_now fresh_1 |}.

(** Two text boxes, each with its watcher.  A draft of 30 words is pasted
    into the first and cut to 20 words at once; within the quiet period
    another draft is pasted into the second; then the timer of the first
    watcher fires, and the classifier, without a key, settles. *)
Definition paste_first : jsstring :=
  concat (replicate 29 (js "lor ")) ++ js "ipsum".

Definition paste_second : jsstring :=
  concat (replicate 29 (js "sit ")) ++ js "ametq".

Definition cut_first : jsstring :=
  concat (replicate 19 (js "lor ")) ++ js "ipsum".

Definition fresh_2 : Fresh :=
  {| fresh_id := js "draft_1700000001000_p0w4r7t2c";
     fresh_iso := js "2023-11-14T22:13:21.000Z";
     fresh_now := 1000 |}.

Definition draft_first : Draft :=
  {| draft_id := fresh_id fresh_1; draft_textBox := 0;
     originalText := paste_first; originalWordCount := wordCount paste_first;
     generatedAt := fresh_iso fresh_1; timestamp := fresh_now fresh_1 |}.

Definition draft_second : Draft :=
  {| draft_id := fresh_id fresh_2; draft_textBox := 1;
     originalText := paste_second; originalWordCount := wordCount paste_second;
     generatedAt := fresh_iso fresh_2; timestamp := fresh_now fresh_2 |}.

Definition two_surfaces : list Event :=
  [Attach 0 0; Attach 1 0;
   Mutation 0 paste_first 500 fresh_1;
   Mutation 0 cut_first 600 fresh_1;
   Mutation 1 paste_second 1000 fresh_2;
   Tick 3700;
   Settle 0 env_no_key (js "2023-11-14T22:13:23.700Z")].

(** One text box: after the draft of 30 words was pasted, it is cut to 20
    words and analysed. *)
Definition cut_episode (env : ClassifierEnv) : list Event :=
  [Mutation 0 cut_first 1000 fresh_1; Tick 4000;
   Settle 0 env (js "2023-11-14T22:13:24.000Z")].

(** One text box, watched twice.  A compose dialog (element 100, with the
    text box 0 in it) is open when [observeComposeWindows] runs: the dialog
    goes into [watchedComposeWindows] and its text box is watched.  At
    200 ms the text box is among the nodes added to the page; it is not in
    [watchedComposeWindows], so after the delay of 500 ms
    [monitorComposeWindow] runs on it as well.  A minute later the user
    types a greeting and, one second after, the draft of 30 words is
    pasted.  Each detection makes up an id of its own. *)
Definition fresh_3 : Fresh :=
  {| fresh_id := js "draft_1700000061000_k3x9q2m1z";
     fresh_iso := js "2023-11-14T22:14:21.000Z";
     fresh_now := 61000 |}.

Definition fresh_4 : Fresh :=
  {| fresh_id := js "draft_1700000061000_p0w4r7t2c";
     fresh_iso := js "2023-11-14T22:14:21.000Z";
     fresh_now := 61000 |}.

Definition fresh_of (surface : nat) : Fresh :=
  match surface with 0 => fresh_3 | _ => fresh_4 end.

Definition draft_third : Draft :=
  {| draft_id := fresh_id fresh_3; draft_textBox := 0;
     originalText := paste_first; originalWordCount := wordCount paste_first;
     generatedAt := fresh_iso fresh_3; timestamp := fresh_now fresh_3 |}.

Definition draft_fourth : Draft :=
  {| draft_id := fresh_id fresh_4; draft_textBox := 0;
     originalText := paste_first; originalWordCount := wordCount paste_first;
     generatedAt := fresh_iso fresh_4; timestamp := fresh_now fresh_4 |}.

Definition watched_twice : list PageEvent :=
  [Observe [(100, [0])] 0; Added [0] 200; Elapse 700;
   Changed 0 (js "Hi") 60000 fresh_of;
   Changed 0 paste_first 61000 fresh_of].

(** The same text box watched again after the detection.  The draft is
    pasted at 61 s, while the text box has one watcher.  At 70 s the text
    box is among the nodes added to the page and gets its second watcher,
    500 ms later; half a second after that the user types one character. *)
Definition fresh_5 : Fresh :=
  {| fresh_id := js "draft_1700000071000_h8d2v5n0a";
     fresh_iso := js "2023-11-14T22:14:31.000Z";
     fresh_now := 71000 |}.

Definition draft_fifth : Draft :=
  {| draft_id := fresh_id fresh_5; draft_textBox := 0;
     originalText := paste_first ++ js "!";
     originalWordCount := wordCount (paste_first ++ js "!");
     generatedAt := fresh_iso fresh_5; timestamp := fresh_now fresh_5 |}.

Definition watched_again : list PageEvent :=
  [Observe [(100, [0])] 0;
   Changed 0 (js "Hi") 60000 fresh_of;
   Changed 0 paste_first 61000 fresh_of;
   Added [0] 70000; Elapse 70500;
   Changed 0 (paste_first ++ js "!") 71000 (λ _, fresh_5)].

(** The draft of 30 words grown to 36 words, with a line break at its
    end. *)
Definition grown_text : jsstring :=
  concat (replicate 35 (js "lor ")) ++ js "ipsum" ++ [10%N].

(** Then the draft is cut to 20 words at 62 s, and nothing else happens
    until 65 s. *)
Definition cut_and_wait : list PageEvent :=
  [Changed 0 cut_first 62000 fresh_of; Elapse 65000].

(** ** The fields of an analysis *)

(** The five values [analyzeCurrentEdits] measures itself, and the four the
    verdict is to bring. *)
Definition measured_fields : list string :=
  ["finalText"; "finalWordCount"; "sentAt"; "sendDelay"; "editPercentage"].

Definition verdict_fields : list string :=
  ["toneChange"; "ctaChange"; "lengthChange"; "summary"].

(** The properties written before the spread of the verdict in the object
    [analyzeCurrentEdits] builds. *)
Definition measurements (currentText : jsstring) (wordCount : nat)
    (sentAt : jsstring) (timeSinceGeneration : Z) (editPercentage : Number)
    : gmap string jsval :=
  <["finalText" := VStr currentText]>
  (<["finalWordCount" := VNum (Number_of_nat wordCount)]>
  (<["sentAt" := VStr sentAt]>
  (<["sendDelay" := VNum (Number_of_Z timeSinceGeneration)]>
  (<["editPercentage" := VNum editPercentage]> ∅)))).

(** A verdict that brings, beside a tone, an edit percentage of its own. *)
Definition verdict_with_percentage : jsval :=
  VObj (<["toneChange" := VStr (js "More formal")]>
       (<["editPercentage" := VNum (Finite 0)]> ∅)).

(** The request of the episode in which the draft of 30 words is cut to
    20, with a key stored. *)
Definition cut_request : Request :=
  {| req_apiKey := js "sk-test"; req_originalText := paste_first;
     req_finalText := cut_first; req_editPercentage := Finite 33;
     req_sendDelay := 3500 |}.

(** ** The dashboard *)

(** [loadAnalytics]: the stored drafts it hands to [displayAnalytics]. *)
Definition loadAnalytics (stored : Drafts) : list (gmap string jsval) :=
  let allDrafts := default [] stored in
  filter (λ d, strict_eq_str (get d "status") (js "sent")
               || strict_eq_str (get d "status") (js "editing") = true)
    allDrafts.


(** ** The stored key *)

(** [s.trim()]: white space and line terminators, the characters of the
    class [\s], are dropped at both ends. *)
Fixpoint trim_start (s : jsstring) : jsstring :=
  match s with
  | [] => []
  | c :: s' => if is_ws c then trim_start s' else s
  end.

Definition trim (s : jsstring) : jsstring :=
  reverse (trim_start (reverse (trim_start s))).

(** Where the key is kept: [chrome.storage.sync] when the page has it,
    [localStorage] otherwise. *)
Inductive KeyStore : Type :=
  | ChromeSync (sync : gmap string jsval)
  | LocalStorage (items : gmap string jsstring).

(** [getOpenAIKey()] of the content script and of the tone analyzer, and
    [getAPIKey()] of the dashboard, which reads [chrome.storage.sync]. *)
Definition getOpenAIKey (store : KeyStore) : jsval :=
  match store with
  | ChromeSync sync => js_or (get sync "openai_api_key") (VStr [])
  | LocalStorage items =>
      js_or (match items !! "openai_api_key" with
             | Some v => VStr v
             | None => VNull
             end) (VStr [])
  end.

Definition getAPIKey (sync : gmap string jsval) : jsval :=
  js_or (get sync "openai_api_key") (VStr []).

(** [saveOpenAIKey(apiKey)] of the tone analyzer, for a key that is a
    string. *)
Definition saveOpenAIKey (apiKey : jsstring) (store : KeyStore) : KeyStore :=
  match store with
  | ChromeSync sync => ChromeSync (<["openai_api_key" := VStr apiKey]> sync)
  | LocalStorage items => LocalStorage (<["openai_api_key" := apiKey]> items)
  end.

(** [saveAPIKey()] of the dashboard on the value of the input field: the
    storage after it, and the message and the colour handed to
    [showStatus]. *)
Definition saveAPIKey (input : jsstring) (sync : gmap string jsval)
    : gmap string jsval * (jsstring * jsstring) :=
  let apiKey := trim input in
  if bool_decide (js "sk-" `prefix_of` apiKey) then
    (<["openai_api_key" := VStr apiKey]> sync,
     (js "API key saved successfully " ++ [10003%N], js "#059669"))
  else (sync, (js "Invalid API key format", js "#dc2626")).
(** * Proofs

    ** The recurrence and sequences of edits *)

Section levenshtein_facts.
Context {char : Type} `{EqDecision char}.
Implicit Types a b : list char.

Lemma lev_nil_l b : lev [] b = length b.
Proof. by destruct b. Qed.

Lemma lev_nil_r a : lev a [] = length a.
Proof. by destruct a. Qed.

Lemma lev_cons x a y b :
  lev (x :: a) (y :: b) =
    (lev a (y :: b) + 1) `min`
      ((lev (x :: a) b + 1) `min` (lev a b + (if decide (x = y) then 0 else 1))).
Proof. done. Qed.

Lemma lev_refl a : lev a a = 0.
Proof.
  induction a as [|x a IH]; [done|].
  rewrite lev_cons, IH. rewrite decide_True by done. lia.
Qed.

Lemma lev_sym a b : lev a b = lev b a.
Proof.
  revert b. induction a as [|x a IHa]; intros b.
  { by rewrite lev_nil_l, lev_nil_r. }
  induction b as [|y b IHb].
  { by rewrite lev_nil_l, lev_nil_r. }
  rewrite !lev_cons, IHb, (IHa (y :: b)), (IHa b).
  destruct (decide (x = y)), (decide (y = x)); try congruence; lia.
Qed.

(** Dropping or adding a head character moves the distance by at most one. *)
Lemma lev_cons_l_le x a b : lev (x :: a) b ≤ S (lev a b).
Proof.
  destruct b as [|y b]; [rewrite !lev_nil_r; simpl; lia|].
  rewrite lev_cons. lia.
Qed.

Lemma lev_cons_r_le a y b : lev a (y :: b) ≤ S (lev a b).
Proof. rewrite (lev_sym a (y :: b)), (lev_sym a b). apply lev_cons_l_le. Qed.

Lemma lev_uncons_l_le x a b : lev a b ≤ S (lev (x :: a) b).
Proof.
  induction b as [|y b IH]; [rewrite !lev_nil_r; simpl; lia|].
  rewrite lev_cons.
  pose proof (lev_cons_r_le a y b).
  destruct (decide (x = y)); lia.
Qed.

Lemma lev_subst_le x x' a b : lev (x :: a) b ≤ S (lev (x' :: a) b).
Proof.
  induction b as [|y b IH]; [rewrite !lev_nil_r; simpl; lia|].
  rewrite !lev_cons.
  destruct (decide (x = y)), (decide (x' = y)); lia.
Qed.

Lemma lev_prefix_le z u u' :
  (∀ b, lev u b ≤ S (lev u' b)) → ∀ b, lev (z :: u) b ≤ S (lev (z :: u') b).
Proof.
  intros Hu b. induction b as [|y b IH].
  { rewrite !lev_nil_r. specialize (Hu []). rewrite !lev_nil_r in Hu.
    simpl; lia. }
  rewrite !lev_cons.
  pose proof (Hu (y :: b)). pose proof (Hu b).
  destruct (decide (z = y)); lia.
Qed.

(** One edit of the first string moves the distance to any [b] by at most
    one. *)
Lemma lev_edit1_le a a' b : edit1 a a' → lev a b ≤ S (lev a' b).
Proof.
  intros He. revert b. destruct He as [p c q|p c q|p c c' q].
  - induction p as [|z p IH]; simpl.
    + intros b. apply lev_uncons_l_le.
    + by apply lev_prefix_le.
  - induction p as [|z p IH]; simpl.
    + intros b. apply lev_cons_l_le.
    + by apply lev_prefix_le.
  - induction p as [|z p IH]; simpl.
    + intros b. apply lev_subst_le.
    + by apply lev_prefix_le.
Qed.

(** No sequence of edits is shorter than [lev]. *)
Lemma lev_lower_bound n a b : edits n a b → lev a b ≤ n.
Proof.
  induction 1 as [a|n a a' b He _ IH].
  - by rewrite lev_refl.
  - pose proof (lev_edit1_le a a' b He). lia.
Qed.

Lemma edit1_cons z a b : edit1 a b → edit1 (z :: a) (z :: b).
Proof.
  destruct 1 as [p c q|p c q|p c c' q].
  - apply (edit1_ins (z :: p)).
  - apply (edit1_del (z :: p)).
  - apply (edit1_sub (z :: p)).
Qed.

Lemma edits_cons z n a b : edits n a b → edits n (z :: a) (z :: b).
Proof.
  induction 1 as [a|n a a' b He _ IH]; [constructor|].
  econstructor; [by apply edit1_cons|done].
Qed.

Lemma edits_delete_all a : edits (length a) a [].
Proof.
  induction a as [|x a IH]; [constructor|].
  simpl. econstructor; [apply (edit1_del [] x a)|done].
Qed.

Lemma edits_insert_all b : edits (length b) [] b.
Proof.
  induction b as [|y b IH]; [constructor|].
  simpl. econstructor; [apply (edit1_ins [] y [])|].
  simpl. by apply edits_cons.
Qed.

(** Some sequence of edits has exactly [lev] steps. *)
Lemma lev_upper_bound a b : edits (lev a b) a b.
Proof.
  revert b. induction a as [|x a IHa]; intros b.
  { rewrite lev_nil_l. apply edits_insert_all. }
  induction b as [|y b IHb].
  { rewrite lev_nil_r. apply edits_delete_all. }
  rewrite lev_cons.
  destruct (Nat.min_spec (lev a (y :: b) + 1)
              ((lev (x :: a) b + 1) `min`
                 (lev a b + (if decide (x = y) then 0 else 1))))
    as [[_ ->]|[_ ->]].
  - rewrite Nat.add_1_r. econstructor; [apply (edit1_del [] x a)|]. apply IHa.
  - destruct (Nat.min_spec (lev (x :: a) b + 1)
                (lev a b + (if decide (x = y) then 0 else 1)))
      as [[_ ->]|[_ ->]].
    + rewrite Nat.add_1_r.
      econstructor; [apply (edit1_ins [] y (x :: a))|].
      simpl. by apply edits_cons.
    + destruct (decide (x = y)) as [->|Hne].
      * rewrite Nat.add_0_r. apply edits_cons, IHa.
      * rewrite Nat.add_1_r.
        econstructor; [apply (edit1_sub [] x y a)|].
        simpl. apply edits_cons, IHa.
Qed.

(** Reading both strings backwards does not change the distance. *)
Lemma edit1_reverse a b : edit1 a b → edit1 (reverse a) (reverse b).
Proof.
  destruct 1 as [p c q|p c q|p c c' q];
    rewrite ?reverse_app, ?reverse_cons, <-?(assoc_L (++)); simpl.
  - apply edit1_ins.
  - apply edit1_del.
  - apply edit1_sub.
Qed.

Lemma edits_reverse n a b : edits n a b → edits n (reverse a) (reverse b).
Proof.
  induction 1 as [a|n a a' b He _ IH]; [constructor|].
  econstructor; [by apply edit1_reverse|done].
Qed.

Lemma lev_reverse a b : lev (reverse a) (reverse b) = lev a b.
Proof.
  apply Nat.le_antisymm.
  - apply lev_lower_bound, edits_reverse, lev_upper_bound.
  - rewrite <-(reverse_involutive a), <-(reverse_involutive b) at 1.
    apply lev_lower_bound, edits_reverse, lev_upper_bound.
Qed.
End levenshtein_facts.


(** ** The dynamic programme computes the recurrence *)

Lemma for_loop_inv {St : Type} (I : nat → St) count start body s :
s = I 0 →
(∀ k, k < count → body (start + k) (I k) = Some (I (S k))) →
for_loop count start body s = Some (I count).
Proof.
intros ->.
revert I start. induction count as [|count IH]; intros I start Hbody; [done|].
simpl. pose proof (Hbody 0) as H0. rewrite Nat.add_0_r in H0.
rewrite H0 by lia.
apply (IH (λ k, I (S k)) (S start)).
intros k Hk. rewrite <-(Hbody (S k)) by lia. f_equal. lia.
Qed.

Lemma arr_set_append {A : Type} (arr : list A) v :
arr_set arr (length arr) v = Some (arr ++ [v]).
Proof.
unfold arr_set. rewrite decide_False by lia. by rewrite decide_True.
Qed.

Section levenshtein_dp.
Context {char : Type} `{EqDecision char}.
Variables str1 str2 : list char.

Local Abbreviation dp := (lev_dp str1 str2).
Local Abbreviation dp_row := (lev_dp_row str1 str2).
Local Abbreviation dp_matrix := (lev_dp_matrix str1 str2).

Lemma dp_0_r i : i ≤ length str1 → dp i 0 = i.
Proof.
  intros Hi. unfold lev_dp. rewrite take_0, reverse_nil, lev_nil_r, length_reverse, length_take.
  lia.
Qed.

Lemma dp_0_l j : j ≤ length str2 → dp 0 j = j.
Proof.
  intros Hj. unfold lev_dp. rewrite take_0, reverse_nil, lev_nil_l, length_reverse, length_take.
  lia.
Qed.

Lemma dp_S_S i j c1 c2 :
  str1 !! i = Some c1 → str2 !! j = Some c2 →
  dp (S i) (S j) =
    (dp i (S j) + 1) `min`
      ((dp (S i) j + 1) `min` (dp i j + (if decide (c1 = c2) then 0 else 1))).
Proof.
  intros H1 H2. unfold lev_dp.
  rewrite (take_S_r _ _ _ H1), (take_S_r _ _ _ H2), !reverse_snoc.
  apply lev_cons.
Qed.

Lemma dp_row_lookup i n j : j < n → dp_row i n !! j = Some (dp i j).
Proof.
  intros Hj. unfold lev_dp_row. rewrite list_lookup_fmap, lookup_seq_lt by done.
  done.
Qed.

Lemma dp_row_length i n : length (dp_row i n) = n.
Proof. unfold lev_dp_row. by rewrite length_fmap, length_seq. Qed.

Lemma dp_row_S i n : dp_row i (S n) = dp_row i n ++ [dp i n].
Proof. unfold lev_dp_row. by rewrite seq_S, fmap_app. Qed.

Lemma dp_matrix_lookup i j k :
  k ≤ length str1 →
  dp_matrix i j !! k =
    Some (if decide (k < i) then dp_row k (S (length str2))
          else if decide (k = i) then dp_row k j else [k]).
Proof.
  intros Hk. unfold lev_dp_matrix.
  rewrite list_lookup_fmap, lookup_seq_lt by lia. done.
Qed.

Lemma dp_matrix_length i j : length (dp_matrix i j) = S (length str1).
Proof. unfold lev_dp_matrix. by rewrite length_fmap, length_seq. Qed.

(** The first loop: one row [[i]] per prefix of [str1]. *)
Lemma first_loop :
  for_loop (S (length str1)) 0 (λ i matrix, arr_set matrix i [i]) [] =
    Some ((λ i, [i]) <$> seq 0 (S (length str1))).
Proof.
  apply (for_loop_inv (λ n, (λ i : nat, [i]) <$> seq 0 n)); [done|].
  intros k _. cbv beta.
  rewrite seq_S, fmap_app, Nat.add_0_l. simpl.
  rewrite <-(arr_set_append ((λ i : nat, [i]) <$> seq 0 k) [k]).
  by rewrite length_fmap, length_seq.
Qed.

(** The second loop fills row 0, which leaves the matrix as the third loop
    expects it at [i = 1], [j = 1]. *)
Lemma second_loop :
  for_loop (S (length str2)) 0
    (λ j matrix,
       match matrix !! 0 with
       | Some row0 =>
           match arr_set row0 j j with
           | Some row0' => Some (<[0:=row0']> matrix)
           | None => None
           end
       | None => None
       end) ((λ i, [i]) <$> seq 0 (S (length str1))) =
    Some (dp_matrix 1 1).
Proof.
  set (I := λ n : nat,
         seq 0 (n `max` 1) :: ((λ i : nat, [i]) <$> seq 1 (length str1))).
  assert (dp_matrix 1 1 = I (S (length str2))) as ->.
  { unfold I, lev_dp_matrix. rewrite Nat.max_l by lia.
    change (seq 0 (S (length str1))) with (0 :: seq 1 (length str1)).
    rewrite fmap_cons. rewrite decide_True by lia. f_equal.
    - unfold lev_dp_row. f_equal.
      apply list_eq. intros j. rewrite list_lookup_fmap.
      destruct (decide (j < S (length str2))) as [Hj|Hj].
      + rewrite lookup_seq_lt by done. simpl. f_equal. apply dp_0_l. lia.
      + by rewrite lookup_seq_ge by lia.
    - apply list_eq. intros k. rewrite !list_lookup_fmap.
      destruct (decide (k < length str1)) as [Hk|Hk].
      + rewrite lookup_seq_lt by done. simpl.
        repeat case_decide; try lia; [|done].
        unfold lev_dp_row. simpl. f_equal. f_equal. rewrite dp_0_r by lia. lia.
      + by rewrite lookup_seq_ge by lia. }
  apply (for_loop_inv I); [done|]. intros k Hk. unfold I.
  set (rest := (λ i : nat, [i]) <$> seq 1 (length str1)).
  change (match arr_set (seq 0 (k `max` 1)) k k with
          | Some row0' => Some (row0' :: rest)
          | None => None
          end = Some (seq 0 (S k `max` 1) :: rest)).
  destruct k as [|k]; [done|].
  rewrite (Nat.max_l (S k)) by lia. rewrite (Nat.max_l (S (S k))) by lia.
  replace (arr_set (seq 0 (S k)) (S k) (S k)) with
    (Some (seq 0 (S k) ++ [S k])).
  - by rewrite <-seq_S.
  - rewrite <-arr_set_append. by rewrite length_seq.
Qed.

(** One round of the inner loop writes the next cell of row [i]. *)
Lemma lev_cell_step i j :
  1 ≤ i ≤ length str1 → 1 ≤ j ≤ length str2 →
  lev_cell str1 str2 i j (dp_matrix i j) = Some (dp_matrix i (S j)).
Proof.
  intros Hi Hj. unfold lev_cell.
  destruct (lookup_lt_is_Some_2 str1 (i - 1)) as [c1 Hc1]; [lia|].
  destruct (lookup_lt_is_Some_2 str2 (j - 1)) as [c2 Hc2]; [lia|].
  rewrite Hc1, Hc2. unfold mget, mset.
  rewrite !dp_matrix_lookup by lia.
  rewrite !(decide_True (P:=i - 1 < i)) by lia.
  rewrite !(decide_False (P:=i < i)) by lia.
  rewrite !(decide_True (P:=i = i)) by done.
  rewrite !dp_row_lookup by lia.
  replace (arr_set (dp_row i j) j) with (arr_set (dp_row i j) (length (dp_row i j)))
    by (by rewrite dp_row_length).
  rewrite arr_set_append. f_equal.
  apply list_eq. intros k.
  destruct (decide (k ≤ length str1)) as [Hk|Hk].
  - rewrite (dp_matrix_lookup i (S j) k Hk).
    destruct (decide (k = i)) as [->|Hki].
    + rewrite list_lookup_insert_eq by (rewrite dp_matrix_length; lia).
      rewrite (decide_False (P:=i < i)) by lia. f_equal.
      pose proof (dp_S_S (i - 1) (j - 1) c1 c2 Hc1 Hc2) as Hrec.
      replace (S (i - 1)) with i in Hrec by lia.
      replace (S (j - 1)) with j in Hrec by lia.
      by rewrite dp_row_S, Hrec.
    + rewrite list_lookup_insert_ne by done.
      rewrite dp_matrix_lookup by done.
      by rewrite (decide_False (P:=k = i)).
  - rewrite !lookup_ge_None_2; [done| |].
    + rewrite dp_matrix_length. lia.
    + rewrite length_insert, dp_matrix_length. lia.
Qed.

(** When row [i] is complete the matrix is ready for row [i + 1]. *)
Lemma dp_matrix_next_row i :
  dp_matrix i (S (length str2)) = dp_matrix (S i) 1.
Proof.
  apply list_eq. intros k.
  destruct (decide (k ≤ length str1)) as [Hk|Hk].
  - rewrite !dp_matrix_lookup by done. f_equal.
    destruct (decide (k < i)).
    + by rewrite decide_True by lia.
    + destruct (decide (k = i)) as [->|].
      * by rewrite decide_True by lia.
      * rewrite decide_False by lia.
        destruct (decide (k = S i)) as [->|]; [|done].
        unfold lev_dp_row. simpl. by rewrite dp_0_r.
  - rewrite !lookup_ge_None_2; [done| |]; rewrite dp_matrix_length; lia.
Qed.

Lemma third_loop :
  for_loop (length str1) 1
    (λ i matrix, for_loop (length str2) 1 (lev_cell str1 str2 i) matrix)
    (dp_matrix 1 1) =
    Some (dp_matrix (S (length str1)) 1).
Proof.
  apply (for_loop_inv (λ k, dp_matrix (S k) 1)); [done|].
  intros k Hk. simpl.
  rewrite <-(dp_matrix_next_row (S k)).
  apply (for_loop_inv (λ m, dp_matrix (S k) (S m))); [done|].
  intros m Hm. apply lev_cell_step; lia.
Qed.

(** The code returns the value of the recurrence, for every two strings:
    no read is out of range and no write leaves a hole. *)
Lemma levenshteinDistance_lev : levenshteinDistance str1 str2 = Some (lev str1 str2).
Proof.
  unfold levenshteinDistance.
  rewrite first_loop, second_loop, third_loop.
  unfold mget. rewrite dp_matrix_lookup by lia.
  rewrite decide_True by lia.
  rewrite dp_row_lookup by lia. f_equal.
  unfold lev_dp. rewrite !firstn_all. apply lev_reverse.
Qed.
End levenshtein_dp.

(** ** Rounding to binary64 *)

(** Turns a hypothesis [(p ?= q) = c] into the order fact it states. *)
Ltac qcompare_in H :=
  first [ apply (proj2 (Qeq_alt _ _)) in H
        | apply (proj2 (Qlt_alt _ _)) in H
        | apply (proj2 (Qgt_alt _ _)) in H ].

Section rounding.
Local Open Scope Q_scope.

Lemma pow2_pos e : 0 < 2 ^ e.
Proof. by apply Qpower_0_lt. Qed.

Lemma pow2_add a b : 2 ^ (a + b) == 2 ^ a * 2 ^ b.
Proof. by apply Qpower_plus. Qed.

Lemma pow2_le a b : (a <= b)%Z → 2 ^ a <= 2 ^ b.
Proof. intros. by apply Qpower_le_compat_l. Qed.

Lemma pow2_lt a b : (a < b)%Z → 2 ^ a < 2 ^ b.
Proof. intros. by apply Qpower_lt_compat_l. Qed.

Lemma pow2_inject e : (0 <= e)%Z → 2 ^ e == inject_Z (2 ^ e).
Proof. intros. symmetry. by apply (Zpower_Qpower 2). Qed.

Lemma Qmake_div n d : n # d == inject_Z n / inject_Z (Z.pos d).
Proof. apply Qmake_Qdiv. Qed.

(** *** The binade of a positive rational *)

Lemma ilog2_spec q : 0 < q → 2 ^ ilog2 q <= q ∧ q < 2 ^ (ilog2 q + 1).
Proof.
  destruct q as [n d]. intros Hq.
  assert (0 < n)%Z as Hn.
  { unfold Qlt in Hq. simpl in Hq. lia. }
  unfold ilog2. simpl Qnum. simpl Qden.
  set (a := Z.log2 n). set (b := Z.log2 (Z.pos d)).
  destruct (Z.log2_spec n Hn) as [Ha1 Ha2]. fold a in Ha1, Ha2.
  destruct (Z.log2_spec (Z.pos d) eq_refl) as [Hb1 Hb2]. fold b in Hb1, Hb2.
  assert (0 <= a)%Z as Ha0 by apply Z.log2_nonneg.
  assert (0 <= b)%Z as Hb0 by apply Z.log2_nonneg.
  assert (0 < inject_Z (Z.pos d)) as Hd by done.
  assert (inject_Z (2 ^ a) <= inject_Z n) as Ha1' by (by rewrite <-Zle_Qle).
  assert (inject_Z n < inject_Z (2 ^ Z.succ a)) as Ha2' by (by rewrite <-Zlt_Qlt).
  assert (inject_Z (2 ^ b) <= inject_Z (Z.pos d)) as Hb1' by (by rewrite <-Zle_Qle).
  assert (inject_Z (Z.pos d) < inject_Z (2 ^ Z.succ b)) as Hb2'
    by (by rewrite <-Zlt_Qlt).
  rewrite <-pow2_inject in Ha1', Ha2', Hb1', Hb2' by lia.
  (* the quotient lies strictly between 2^(a-b-1) and 2^(a-b+1) *)
  assert (2 ^ (a - b - 1) <= n # d) as Hlow.
  { rewrite (Qmake_div n d). apply Qle_shift_div_l; [done|].
    apply Qle_trans with (2 ^ (a - b - 1) * 2 ^ Z.succ b).
    - apply Qmult_le_l; [apply pow2_pos|by apply Qlt_le_weak].
    - rewrite <-pow2_add. replace (a - b - 1 + Z.succ b)%Z with a by lia. done. }
  assert (n # d < 2 ^ (a - b + 1)) as Hhigh.
  { rewrite (Qmake_div n d). apply Qlt_shift_div_r; [done|].
    apply Qlt_le_trans with (2 ^ Z.succ a); [done|].
    replace (Z.succ a) with (a - b + 1 + b)%Z by lia. rewrite pow2_add.
    apply Qmult_le_l; [apply pow2_pos|done]. }
  destruct (Qle_bool (2 ^ (a - b)) (n # d)) eqn:Hcmp.
  - apply Qle_bool_iff in Hcmp. done.
  - split; [done|].
    replace (a - b - 1 + 1)%Z with (a - b)%Z by lia.
    apply Qnot_le_lt. intros Hle. apply Qle_bool_iff in Hle. congruence.
Qed.

Lemma ilog2_mono x y : 0 < x → x <= y → (ilog2 x <= ilog2 y)%Z.
Proof.
  intros Hx Hxy.
  assert (0 < y) as Hy by (by eapply Qlt_le_trans).
  destruct (ilog2_spec x Hx) as [Hx1 _], (ilog2_spec y Hy) as [_ Hy2].
  destruct (Z.le_gt_cases (ilog2 x) (ilog2 y)) as [|Hgt]; [done|].
  exfalso. apply (Qlt_irrefl y).
  eapply Qlt_le_trans; [exact Hy2|].
  eapply Qle_trans; [|exact Hxy].
  eapply Qle_trans; [|exact Hx1].
  apply pow2_le. lia.
Qed.

(** *** Rounding to the nearest integer *)

Lemma rne_bounds q : (Qfloor q <= rne q <= Qfloor q + 1)%Z.
Proof.
  unfold rne. destruct (q - inject_Z (Qfloor q) ?= 1 # 2); [|lia..].
  destruct (Z.even (Qfloor q)); lia.
Qed.

Lemma rne_mono x y : x <= y → (rne x <= rne y)%Z.
Proof.
  intros Hxy.
  pose proof (Qfloor_resp_le x y Hxy) as Hf.
  pose proof (rne_bounds x) as Hbx. pose proof (rne_bounds y) as Hby.
  destruct (Z.eq_dec (Qfloor x) (Qfloor y)) as [Heq|Hne]; [|lia].
  unfold rne in *. rewrite <-Heq in *.
  destruct (x - inject_Z (Qfloor x) ?= 1 # 2) eqn:Hcx;
    destruct (y - inject_Z (Qfloor x) ?= 1 # 2) eqn:Hcy;
    try lia; try (destruct (Z.even (Qfloor x)); lia).
  all: exfalso; qcompare_in Hcx; qcompare_in Hcy; lra.
Qed.

Lemma rne_Z z : rne (inject_Z z) = z.
Proof.
  unfold rne. rewrite Qfloor_Z.
  assert ((inject_Z z - inject_Z z ?= 1 # 2) = Lt) as ->; [|done].
  apply (proj1 (Qlt_alt _ _)). lra.
Qed.

Lemma rne_le_Z q z : q <= inject_Z z → (rne q <= z)%Z.
Proof. intros H. rewrite <-(rne_Z z). by apply rne_mono. Qed.

Lemma rne_ge_Z q z : inject_Z z <= q → (z <= rne q)%Z.
Proof. intros H. rewrite <-(rne_Z z). by apply rne_mono. Qed.

(** *** Rounding a magnitude *)

Lemma ulp_exp_mono x y : 0 < x → x <= y → (ulp_exp x <= ulp_exp y)%Z.
Proof.
  intros Hx Hxy. unfold ulp_exp. pose proof (ilog2_mono x y Hx Hxy). lia.
Qed.

Lemma round_mag_nonneg a : 0 < a → 0 <= round_mag a.
Proof.
  intros Ha. unfold round_mag.
  apply Qmult_le_0_compat; [|apply Qlt_le_weak, pow2_pos].
  change 0 with (inject_Z 0). rewrite <-Zle_Qle. apply rne_ge_Z.
  apply Qle_shift_div_l; [apply pow2_pos|].
  change (inject_Z 0) with 0. rewrite Qmult_0_l. by apply Qlt_le_weak.
Qed.

Lemma round_mag_mono x y : 0 < x → x <= y → round_mag x <= round_mag y.
Proof.
  intros Hx Hxy.
  assert (0 < y) as Hy by (by eapply Qlt_le_trans).
  pose proof (ulp_exp_mono x y Hx Hxy) as Hu.
  unfold round_mag.
  destruct (Z.eq_dec (ulp_exp x) (ulp_exp y)) as [Heq|Hne].
  - rewrite Heq. apply Qmult_le_compat_r; [|apply Qlt_le_weak, pow2_pos].
    rewrite <-Zle_Qle. apply rne_mono.
    apply Qmult_le_compat_r; [done|]. apply Qlt_le_weak, Qinv_lt_0_compat, pow2_pos.
  - (* [x] lies in a lower binade: the power of two between them separates
       the two rounded values *)
    set (ey := ilog2 y).
    assert (ulp_exp y = ey - 52 ∧ ilog2 x < ey)%Z as [Huy Hlt].
    { unfold ulp_exp in *. fold ey in Hu, Hne |- *.
      pose proof (ilog2_mono x y Hx Hxy). fold ey in H. lia. }
    destruct (ilog2_spec x Hx) as [_ Hx2], (ilog2_spec y Hy) as [Hy1 _].
    fold ey in Hy1.
    assert (ulp_exp x < ey)%Z as Hux by lia.
    apply Qle_trans with (2 ^ ey).
    + assert (2 ^ ey == inject_Z (2 ^ (ey - ulp_exp x)) * 2 ^ ulp_exp x) as ->.
      { rewrite <-pow2_inject by lia. rewrite <-pow2_add.
        by replace (ey - ulp_exp x + ulp_exp x)%Z with ey by lia. }
      apply Qmult_le_compat_r; [|apply Qlt_le_weak, pow2_pos].
      rewrite <-Zle_Qle. apply rne_le_Z.
      apply Qle_shift_div_r; [apply pow2_pos|].
      rewrite <-pow2_inject by lia. rewrite <-pow2_add.
      replace (ey - ulp_exp x + ulp_exp x)%Z with ey by lia.
      apply Qlt_le_weak. eapply Qlt_le_trans; [exact Hx2|]. apply pow2_le. lia.
    + rewrite Huy.
      assert (2 ^ ey == inject_Z (2 ^ 52) * 2 ^ (ey - 52)) as Hey.
      { rewrite <-pow2_inject by lia. rewrite <-pow2_add.
        by replace (52 + (ey - 52))%Z with ey by lia. }
      rewrite Hey at 1.
      apply Qmult_le_compat_r; [|apply Qlt_le_weak, pow2_pos].
      rewrite <-Zle_Qle. apply rne_ge_Z.
      apply Qle_shift_div_l; [apply pow2_pos|].
      by rewrite <-Hey.
Qed.

(** *** Rounding is monotone *)

Lemma round_to_double_mono x y : x <= y → round_to_double x <= round_to_double y.
Proof.
  intros Hxy. unfold round_to_double.
  destruct (x ?= 0) eqn:Hx; destruct (y ?= 0) eqn:Hy;
    qcompare_in Hx; qcompare_in Hy.
  - lra.
  - exfalso. lra.
  - by apply round_mag_nonneg.
  - assert (0 <= round_mag (- x)) by (apply round_mag_nonneg; lra). lra.
  - assert (- y <= - x) by lra.
    assert (round_mag (- y) <= round_mag (- x)) by (apply round_mag_mono; lra).
    lra.
  - assert (0 <= round_mag (- x)) by (apply round_mag_nonneg; lra).
    assert (0 <= round_mag y) by (by apply round_mag_nonneg). lra.
  - exfalso. lra.
  - exfalso. lra.
  - by apply round_mag_mono.
Qed.

Lemma round64_Finite q r :
  round64 q = Finite r → r == round_to_double q ∧ Qabs r < 2 ^ 1024.
Proof.
  unfold round64.
  destruct (Qle_bool (2 ^ 1024) (Qabs (round_to_double q))) eqn:Hb; [done|].
  intros [= <-]. split; [apply Qred_correct|]. rewrite Qred_correct.
  apply Qnot_le_lt. intros Hle. apply Qle_bool_iff in Hle. congruence.
Qed.

(** A value between two values that round to finite numbers rounds to a
    finite number between them. *)
Lemma round64_between lo hi lo' hi' q :
  lo <= q → q <= hi →
  round64 lo = Finite lo' → round64 hi = Finite hi' →
  ∃ r, round64 q = Finite r ∧ lo' <= r ∧ r <= hi'.
Proof.
  intros Hlo Hhi Hrlo Hrhi.
  apply round64_Finite in Hrlo as [Hlo1 Hlo2], Hrhi as [Hhi1 Hhi2].
  pose proof (round_to_double_mono _ _ Hlo) as H1.
  pose proof (round_to_double_mono _ _ Hhi) as H2.
  rewrite <-Hlo1 in H1. rewrite <-Hhi1 in H2.
  apply Qabs_Qlt_condition in Hlo2, Hhi2.
  exists (Qred (round_to_double q)). split; [|by rewrite Qred_correct].
  unfold round64.
  destruct (Qle_bool (2 ^ 1024) (Qabs (round_to_double q))) eqn:Hb; [|done].
  exfalso. apply Qle_bool_iff in Hb.
  assert (Qabs (round_to_double q) < 2 ^ 1024); [|lra].
  apply Qabs_Qlt_condition. lra.
Qed.
End rounding.

(** ** The edit distance (claims C4 and C8) *)

(** Claim C4.  For all strings A and B, [levenshteinDistance(A, B)] returns
    the minimum number of single-character insertions, deletions and
    substitutions that transform A into B: the code returns a number [d],
    some sequence of [d] single-character edits turns A into B, and no
    sequence of fewer edits does. *)
Theorem levenshteinDistance_is_edit_distance (A B : jsstring) :
  ∃ d, levenshteinDistance A B = Some d ∧ edit_distance A B d.
Proof.
  exists (lev A B). split; [apply levenshteinDistance_lev|].
  split; [apply lev_upper_bound|].
  intros n Hn. by apply lev_lower_bound.
Qed.

(** Claim C8.  For all strings A and B: the distance from A to A is 0, the
    distance from A to B is the distance from B to A, and the distance from
    the empty string to B is the length of B. *)
Theorem levenshteinDistance_laws (A B : jsstring) :
  levenshteinDistance A A = Some 0
  ∧ levenshteinDistance A B = levenshteinDistance B A
  ∧ levenshteinDistance [] B = Some (length B).
Proof.
  rewrite !levenshteinDistance_lev. split_and!.
  - by rewrite lev_refl.
  - by rewrite lev_sym.
  - by rewrite lev_nil_l.
Qed.

(** The distance never exceeds the longer of the two lengths: substitute
    along the shorter string, then insert or delete the rest. *)
Lemma lev_le_max {char : Type} `{EqDecision char} (a b : list char) :
  lev a b ≤ length a `max` length b.
Proof.
  revert b. induction a as [|x a IH]; intros b.
  { rewrite lev_nil_l. simpl. lia. }
  destruct b as [|y b]; [rewrite lev_nil_r; simpl; lia|].
  rewrite lev_cons. specialize (IH b). simpl. destruct (decide (x = y)); lia.
Qed.

(** ** The edit percentage (claim C3) *)

Section percentage.
Local Open Scope Q_scope.

Lemma round64_0 : round64 0 = Finite 0.
Proof. reflexivity. Qed.

Lemma round64_1 : round64 1 = Finite 1.
Proof. vm_compute. reflexivity. Qed.

Lemma round64_100 : round64 100 = Finite 100.
Proof. vm_compute. reflexivity. Qed.

(** For [0 ≤ d ≤ m] and [m ≥ 1] the three operations stay inside
    [0 .. 100]: the quotient rounds into [0, 1], its hundredfold into
    [0, 100], and [Math.round] of that is one of the integers 0 to 100. *)
Lemma percentage_range (d m : nat) :
  (d ≤ m)%nat → (1 ≤ m)%nat →
  ∃ p : Z,
    Math_round
      (js_mul (js_div (Number_of_nat d) (Number_of_nat m)) (Number_of_nat 100))
    = Finite (inject_Z p) ∧ (0 <= p <= 100)%Z.
Proof.
  intros Hdm Hm. unfold Number_of_nat, js_div.
  assert (0 < inject_Z (Z.of_nat m)) as Hm'.
  { change 0 with (inject_Z 0). rewrite <-Zlt_Qlt. lia. }
  assert (0 <= inject_Z (Z.of_nat d)) as Hd'.
  { change 0 with (inject_Z 0). rewrite <-Zle_Qle. lia. }
  assert (inject_Z (Z.of_nat d) <= inject_Z (Z.of_nat m)) as Hdm'.
  { rewrite <-Zle_Qle. lia. }
  destruct (Qeq_bool (inject_Z (Z.of_nat m)) 0) eqn:Hz.
  { apply Qeq_bool_iff in Hz. rewrite Hz in Hm'. by apply Qlt_irrefl in Hm'. }
  destruct (round64_between 0 1 0 1 (inject_Z (Z.of_nat d) / inject_Z (Z.of_nat m)))
    as (y & -> & Hy0 & Hy1).
  { apply Qle_shift_div_l; [done|]. by rewrite Qmult_0_l. }
  { apply Qle_shift_div_r; [done|]. by rewrite Qmult_1_l. }
  { apply round64_0. }
  { apply round64_1. }
  unfold js_mul.
  destruct (round64_between 0 100 0 100 (y * inject_Z (Z.of_nat 100)))
    as (z & -> & Hz0 & Hz1).
  { change (inject_Z (Z.of_nat 100)) with 100. lra. }
  { change (inject_Z (Z.of_nat 100)) with 100. lra. }
  { apply round64_0. }
  { apply round64_100. }
  unfold Math_round. eexists. split; [done|]. split.
  - change 0%Z with (Qfloor 0). apply Qfloor_resp_le. lra.
  - change 100%Z with (Qfloor (100 + (1 # 2))). apply Qfloor_resp_le. lra.
Qed.
End percentage.

(** Claim C3, as the code has it.  For all strings A and B of which at
    least one is non-empty, [calculateEditPercentage(A, B)] is
    [Math.round(distance / max(len(A), len(B)) * 100)] in double
    arithmetic, [distance] being the least number of single-character edits
    between A and B, and it is one of the integers 0 to 100.  For two empty
    strings the code has no special case: it divides 0 by 0 and the result
    is [NaN]. *)
Theorem calculateEditPercentage_spec (A B : jsstring) :
  (A ≠ [] ∨ B ≠ [] →
   ∃ (d : nat) (p : Z),
     edit_distance A B d
     ∧ calculateEditPercentage A B
       = Some (editPercentage_spec d (length A `max` length B))
     ∧ calculateEditPercentage A B = Some (Finite (inject_Z p))
     ∧ (0 ≤ p ≤ 100)%Z)
  ∧ (A = [] → B = [] → calculateEditPercentage A B = Some NaN).
Proof.
  split.
  - intros Hne. unfold calculateEditPercentage, editPercentage_spec.
    rewrite levenshteinDistance_lev.
    assert (1 ≤ length A `max` length B) as Hmax.
    { destruct Hne as [Hne|Hne]; [destruct A|destruct B]; simpl; try done; lia. }
    destruct (percentage_range (lev A B) (length A `max` length B))
      as (p & Hp & Hrange); [apply lev_le_max|done|].
    exists (lev A B), p. split_and!.
    + split; [apply lev_upper_bound|]. intros n Hn. by apply lev_lower_bound.
    + by rewrite decide_False by lia.
    + by rewrite Hp.
    + lia.
    + lia.
  - intros -> ->. reflexivity.
Qed.

(** Claim C3, witness: "kitten" and "sitting". *)
Lemma calculateEditPercentage_spec_witness :
  ∃ (d : nat) (p : Z),
    edit_distance (js "kitten") (js "sitting") d
    ∧ calculateEditPercentage (js "kitten") (js "sitting")
      = Some (editPercentage_spec d
                (length (js "kitten") `max` length (js "sitting")))
    ∧ calculateEditPercentage (js "kitten") (js "sitting")
      = Some (Finite (inject_Z p))
    ∧ (0 ≤ p ≤ 100)%Z.
Proof.
  apply (proj1 (calculateEditPercentage_spec (js "kitten") (js "sitting"))).
  left. discriminate.
Defined.

(** Claim C3, counterexample.  The claim has the percentage of two empty
    strings be 0, the zero-length divide being special-cased; the code
    returns [NaN] there. *)
Lemma calculateEditPercentage_empty_not_0 :
  ¬ (calculateEditPercentage [] [] = Some (editPercentage_spec 0 0)).
Proof. vm_compute. discriminate. Qed.

(** Doubles, not exact arithmetic: 57 edits on 200 characters are 28.5
    percent, which would round to 29; in doubles 57 / 200 * 100 is
    28.499999999999996, and the code returns 28. *)
Example percentage_57_of_200 :
  Math_round
    (js_mul (js_div (Number_of_nat 57) (Number_of_nat 200)) (Number_of_nat 100))
  = Finite 28%Q
  ∧ Qfloor ((57 # 200) * 100 + (1 # 2))%Q = 29%Z.
Proof. split; vm_compute; reflexivity. Qed.

(** The same operations through the kernel's binary64 arithmetic give the
    same values, on every distance and length up to 40. *)
Example percent_operations_agree_to_40 :
  forallb (λ m, forallb (λ d, percent_operations_agree d m) (seq 0 (S m)))
    (seq 0 41) = true.
Proof. vm_compute. reflexivity. Qed.

(** So do the operations of the length heuristic, on a first count up to 30
    and a second up to 60, where the change runs from -100 to 5900. *)
Example change_operations_agree_to_30 :
  forallb (λ o, forallb (λ f, change_operations_agree o f) (seq 0 61))
    (seq 1 30) = true.
Proof. vm_compute. reflexivity. Qed.

(** And at the ends of the range: a product that overflows, products next
    to the largest finite value, and quotients that are subnormal (a tie
    among them). *)
Example operations_agree_at_the_ends :
  let big := Z.ldexp (float_of_nat 1) 1000 in
  let tiny := Z.ldexp (float_of_nat 3) (-1070) in
  product_agrees big big = true
  ∧ product_agrees big (float_of_Z (-16777217)) = true
  ∧ product_agrees big (float_of_Z 16777215) = true
  ∧ quotient_agrees tiny (float_of_nat 7) = true
  ∧ quotient_agrees tiny (float_of_Z (-48)) = true
  ∧ quotient_agrees tiny (float_of_nat 96) = true
  ∧ quotient_agrees (float_of_nat 0) (float_of_nat 0) = true
  ∧ quotient_agrees (float_of_nat 1) (float_of_nat 0) = true.
Proof. vm_compute. by repeat split. Qed.

(** ** The persisted list (claims C10 and C9) *)

Lemma merge_analysis_other record analysisData k :
  k ∉ analysis_fields → merge_analysis record analysisData !! k = record !! k.
Proof.
  intros Hk. unfold merge_analysis.
  rewrite !lookup_insert_ne; [done|..];
    intros <-; apply Hk; unfold analysis_fields; set_solver.
Qed.

Lemma merge_analysis_status record analysisData :
  merge_analysis record analysisData !! "status"
  = Some (js_or (get analysisData "status") (VStr (js "editing"))).
Proof. unfold merge_analysis. by rewrite lookup_insert_eq. Qed.

(** Claim C10.  [updateDraftWithAnalysis] leaves the stored list as it is
    when no record has the given id.  When one has, the first such record,
    at index [i], is replaced by itself with the analysis fields assigned
    (its other properties kept), every other record stays as it is, and so
    do the length and the order of the list. *)
Theorem updateDraftWithAnalysis_frame (draftId : jsstring)
    (analysisData : gmap string jsval) (stored : Drafts) :
  let drafts := default [] stored in
  (Forall (λ d, strict_eq_str (get d "id") draftId = false) drafts →
   updateDraftWithAnalysis draftId analysisData stored = stored)
  ∧ (∀ i record,
       drafts !! i = Some record →
       strict_eq_str (get record "id") draftId = true →
       (∀ j d, j < i → drafts !! j = Some d →
               strict_eq_str (get d "id") draftId = false) →
       ∃ drafts',
         updateDraftWithAnalysis draftId analysisData stored = Some drafts'
         ∧ length drafts' = length drafts
         ∧ (∀ j, j ≠ i → drafts' !! j = drafts !! j)
         ∧ ∃ record',
             drafts' !! i = Some record'
             ∧ (∀ k, k ∉ analysis_fields → record' !! k = record !! k)
             ∧ (∀ k, k ∈ analysis_fields → k ≠ "status" →
                     record' !! k = Some (get analysisData k))).
Proof.
  intros drafts. unfold updateDraftWithAnalysis. fold drafts. split.
  - intros Hall.
    destruct (list_find _ drafts) as [[i d]|] eqn:Hfind; [|done].
    apply list_find_Some in Hfind as (Hi & Hd & _).
    rewrite Forall_lookup in Hall. specialize (Hall i d Hi). congruence.
  - intros i record Hi Hrec Hfirst.
    assert (list_find (λ d, strict_eq_str (get d "id") draftId = true) drafts
            = Some (i, record)) as ->.
    { apply list_find_Some. split_and!; [done..|].
      intros j d Hj Hlt. rewrite (Hfirst j d Hlt Hj). done. }
    eexists. split; [done|]. split_and!.
    + by rewrite length_insert.
    + intros j Hj. by rewrite list_lookup_insert_ne.
    + exists (merge_analysis record analysisData). split_and!.
      * apply list_lookup_insert_eq. by eapply lookup_lt_Some.
      * intros k Hk. by apply merge_analysis_other.
      * intros k Hk Hstatus. unfold merge_analysis, analysis_fields in *.
        repeat (apply elem_of_cons in Hk as [->|Hk]);
          [..|by apply elem_of_nil in Hk]; try done;
          by repeat (rewrite lookup_insert_ne by done); rewrite lookup_insert_eq.
Qed.

(** Claim C10, witness: a list of two records; an id that neither has, and
    the id of the second. *)
Lemma updateDraftWithAnalysis_frame_witness :
  updateDraftWithAnalysis (js "draft_c") sample_analysis (Some [record_a; record_b])
  = Some [record_a; record_b]
  ∧ ∃ drafts',
      updateDraftWithAnalysis (js "draft_b") sample_analysis
        (Some [record_a; record_b]) = Some drafts'
      ∧ length drafts' = length (default [] (Some [record_a; record_b]))
      ∧ (∀ j, j ≠ 1 → drafts' !! j = default [] (Some [record_a; record_b]) !! j)
      ∧ ∃ record',
          drafts' !! 1 = Some record'
          ∧ (∀ k, k ∉ analysis_fields → record' !! k = record_b !! k)
          ∧ (∀ k, k ∈ analysis_fields → k ≠ "status" →
                  record' !! k = Some (get sample_analysis k)).
Proof.
  split.
  - apply (proj1 (updateDraftWithAnalysis_frame (js "draft_c") sample_analysis
                    (Some [record_a; record_b]))).
    repeat constructor.
  - apply (proj2 (updateDraftWithAnalysis_frame (js "draft_b") sample_analysis
                    (Some [record_a; record_b])) 1 record_b).
    + reflexivity.
    + reflexivity.
    + intros j d Hj Hd. destruct j as [|j]; [|lia].
      injection Hd as <-. reflexivity.
Defined.

(** ** The length heuristic in doubles *)

(** Writes the integer constants under [inject_Z] as rational constants. *)
Ltac q_constants :=
  repeat match goal with
    | |- context [inject_Z (Z.pos ?p)] =>
        change (inject_Z (Z.pos p)) with (Z.pos p # 1)%Q
    | |- context [inject_Z (Z.neg ?p)] =>
        change (inject_Z (Z.neg p)) with (Z.neg p # 1)%Q
    | |- context [inject_Z 0] => change (inject_Z 0) with 0%Q
    end.

Section length_heuristic.
Local Open Scope Q_scope.

Lemma round64_value_eq q : is_Finite (round64 q) = true → round64 q = Finite (round64_value q).
Proof. unfold round64_value. by destruct (round64 q). Qed.

(** The hundredfold of a rounded ratio lies between the hundredfolds of the
    rounded bounds of the ratio. *)
Lemma change_between lo hi x :
  lo <= x → x <= hi →
  is_Finite (round64 lo) = true → is_Finite (round64 hi) = true →
  is_Finite (round64 (round64_value lo * 100)) = true →
  is_Finite (round64 (round64_value hi * 100)) = true →
  ∃ z, js_mul (round64 x) (Number_of_nat 100) = Finite z
       ∧ round64_value (round64_value lo * 100) <= z
       ∧ z <= round64_value (round64_value hi * 100).
Proof.
  intros Hlo Hhi Flo Fhi Flo2 Fhi2.
  apply round64_value_eq in Flo, Fhi, Flo2, Fhi2.
  destruct (round64_between lo hi _ _ x Hlo Hhi Flo Fhi) as (y & -> & Hy1 & Hy2).
  unfold js_mul, Number_of_nat. change (inject_Z (Z.of_nat 100)) with 100.
  apply (round64_between (round64_value lo * 100) (round64_value hi * 100));
    [lra|lra|done..].
Qed.

Lemma js_gt_Finite z c : js_gt (Finite z) (Finite c) = negb (Qle_bool z c).
Proof. done. Qed.

Lemma Qle_bool_false x y : y < x → Qle_bool x y = false.
Proof.
  intros H. destruct (Qle_bool x y) eqn:Hb; [|done].
  apply Qle_bool_iff in Hb. lra.
Qed.

Lemma Qle_bool_true x y : x <= y → Qle_bool x y = true.
Proof. intros H. by apply Qle_bool_iff. Qed.

(** The ratio of two counts below 2^32, as rationals. *)
Lemma ratio_bounds (ow fw : nat) :
  (1 ≤ ow)%nat → (Z.of_nat ow < 2 ^ 32)%Z → (Z.of_nat fw < 2 ^ 32)%Z →
  let x := inject_Z (Z.of_nat fw - Z.of_nat ow) / inject_Z (Z.of_nat ow) in
  -1 <= x ∧ x <= 4294967296
  ∧ ((ow < 5 * (fw - ow))%nat → fifth_above <= x)
  ∧ (¬ (ow < 5 * (fw - ow))%nat → x <= 1 # 5)
  ∧ ((ow < 5 * (ow - fw))%nat → x <= - fifth_above)
  ∧ (¬ (ow < 5 * (ow - fw))%nat → - (1 # 5) <= x).
Proof.
  intros Ho Hob Hfb x.
  change (2 ^ 32)%Z with 4294967296%Z in Hob, Hfb.
  set (K := (Z.of_nat fw - Z.of_nat ow)%Z) in *.
  set (O := Z.of_nat ow) in *.
  assert (1 <= O < 4294967296)%Z as HO by lia.
  assert (- O <= K < 4294967296)%Z as HK by lia.
  assert (0 < inject_Z O) as HO0.
  { change 0 with (inject_Z 0). rewrite <-Zlt_Qlt. lia. }
  assert (inject_Z O <= 4294967295) as HO1.
  { change 4294967295 with (inject_Z 4294967295). rewrite <-Zle_Qle. lia. }
  assert (1 <= inject_Z O) as HO2.
  { change 1 with (inject_Z 1). rewrite <-Zle_Qle. lia. }
  assert (∀ a b c : Z, (a * K + b * O + c <= 0)%Z →
            inject_Z a * inject_Z K + inject_Z b * inject_Z O + inject_Z c <= 0)
    as Hlin.
  { intros a b c H. rewrite <-!inject_Z_mult, <-!inject_Z_plus.
    change 0 with (inject_Z 0). by rewrite <-Zle_Qle. }
  unfold x. split_and!.
  - apply Qle_shift_div_l; [done|].
    pose proof (Hlin (-1) (-1) 0)%Z as H. simpl in H. lapply H; [|lia]. q_constants. lra.
  - apply Qle_shift_div_r; [done|].
    pose proof (Hlin 1 0 (-4294967295))%Z as H. simpl in H. lapply H; [|lia].
    q_constants. lra.
  - intros Hgt. apply Qle_shift_div_l; [done|].
    pose proof (Hlin (-5) 1 1)%Z as H. simpl in H. lapply H; [|lia].
    q_constants. unfold fifth_above. simpl. lra.
  - intros Hle. apply Qle_shift_div_r; [done|].
    pose proof (Hlin 5 (-1) 0)%Z as H. simpl in H. lapply H; [|lia]. q_constants. lra.
  - intros Hgt. apply Qle_shift_div_r; [done|].
    pose proof (Hlin 5 1 1)%Z as H. simpl in H. lapply H; [|lia].
    q_constants. unfold fifth_above. simpl. lra.
  - intros Hle. apply Qle_shift_div_l; [done|].
    pose proof (Hlin (-5) (-1) 0)%Z as H. simpl in H. lapply H; [|lia]. q_constants. lra.
Qed.

(** In doubles as in exact arithmetic: for counts below 2^32 the change is
    above 20 exactly when the second count exceeds the first by more than a
    fifth of it, and below -20 exactly when it falls short by more than a
    fifth. *)
Lemma change_thresholds (ow fw : nat) :
  (1 ≤ ow)%nat → (Z.of_nat ow < 2 ^ 32)%Z → (Z.of_nat fw < 2 ^ 32)%Z →
  let change :=
    js_mul (js_div (Number_of_Z (Z.of_nat fw - Z.of_nat ow)) (Number_of_nat ow))
      (Number_of_nat 100) in
  js_gt change (Number_of_nat 20) = bool_decide (ow < 5 * (fw - ow))%nat
  ∧ js_lt change (Number_of_Z (-20)) = bool_decide (ow < 5 * (ow - fw))%nat.
Proof.
  intros Ho Hob Hfb.
  destruct (ratio_bounds ow fw Ho Hob Hfb) as (Hx1 & Hx2 & Hup & Hnup & Hdn & Hndn).
  cbv zeta in *.
  set (x := inject_Z (Z.of_nat fw - Z.of_nat ow) / inject_Z (Z.of_nat ow)) in *.
  assert (js_div (Number_of_Z (Z.of_nat fw - Z.of_nat ow)) (Number_of_nat ow)
          = round64 x) as ->.
  { unfold js_div, Number_of_Z, Number_of_nat.
    destruct (Qeq_bool (inject_Z (Z.of_nat ow)) 0) eqn:Hz; [|done].
    apply Qeq_bool_iff in Hz.
    assert (0 < inject_Z (Z.of_nat ow)); [|lra].
    change 0 with (inject_Z 0). rewrite <-Zlt_Qlt. lia. }
  split.
  - case_bool_decide as Hc.
    + destruct (change_between fifth_above 4294967296 x)
        as (z & -> & Hz1 & _); [by apply Hup|done|by vm_compute..|].
      assert (20 < round64_value (round64_value fifth_above * 100)) as H20
        by (by vm_compute).
      change (Number_of_nat 20) with (Finite 20).
      rewrite js_gt_Finite, Qle_bool_false; [done|lra].
    + destruct (change_between (-1) (1 # 5) x)
        as (z & -> & _ & Hz2); [done|by apply Hnup|by vm_compute..|].
      assert (round64_value (round64_value (1 # 5) * 100) <= 20) as H20
        by (by vm_compute).
      change (Number_of_nat 20) with (Finite 20).
      rewrite js_gt_Finite, Qle_bool_true; [done|lra].
  - case_bool_decide as Hc.
    + destruct (change_between (-1) (- fifth_above) x)
        as (z & -> & _ & Hz2); [done|by apply Hdn|by vm_compute..|].
      assert (round64_value (round64_value (- fifth_above) * 100) < -20) as H20
        by (by vm_compute).
      change (Number_of_Z (-20)) with (Finite (-20)).
      unfold js_lt. rewrite Qle_bool_false; [done|lra].
    + destruct (change_between (- (1 # 5)) 4294967296 x)
        as (z & -> & Hz1 & _); [by apply Hndn|done|by vm_compute..|].
      assert (-20 <= round64_value (round64_value (- (1 # 5)) * 100)) as H20
        by (by vm_compute).
      change (Number_of_Z (-20)) with (Finite (-20)).
      unfold js_lt. rewrite Qle_bool_true; [done|lra].
Qed.
End length_heuristic.

(** ** Pieces and words *)

Lemma split_ws_from_length in_run piece s :
  1 ≤ length (split_ws_from in_run piece s) ≤ S (length s).
Proof.
  revert in_run piece. induction s as [|c s IH]; intros in_run piece; simpl.
  { lia. }
  destruct (is_ws c).
  - destruct in_run; simpl; [specialize (IH true [])|specialize (IH true [])]; lia.
  - specialize (IH false (piece ++ [c])). lia.
Qed.

(** On a text that ends in a character that is not white space, and that
    does not start with white space unless a piece is under way, no piece
    is empty. *)
Lemma split_ws_from_nonempty s in_run piece :
  (∃ c, last s = Some c ∧ is_ws c = false) →
  (in_run = false → piece ≠ [] ∨ ∃ c, head s = Some c ∧ is_ws c = false) →
  Forall (λ w : jsstring, 0 < length w) (split_ws_from in_run piece s).
Proof.
  revert in_run piece. induction s as [|c s IH]; intros in_run piece Hlast Hhead.
  { destruct Hlast as (c & Hc & _). done. }
  simpl. destruct (is_ws c) eqn:Hws.
  - assert (∃ c', last s = Some c' ∧ is_ws c' = false) as Hlast'.
    { destruct s as [|c' s].
      - destruct Hlast as (c0 & [= <-] & Hc0). congruence.
      - by rewrite last_cons_cons in Hlast. }
    destruct in_run.
    + apply IH; [done|]. done.
    + constructor.
      * destruct Hhead as [Hp|(c0 & [= <-] & Hc0)]; [done| |congruence].
        destruct piece; [done|simpl; lia].
      * apply IH; [done|]. done.
  - destruct s as [|c' s].
    + simpl. constructor; [|done]. rewrite length_app. simpl. lia.
    + apply IH.
      * by rewrite last_cons_cons in Hlast.
      * intros _. left. by destruct piece.
Qed.

Lemma wordCount_trimmed s : trimmed s → wordCount s = length (split_ws s).
Proof.
  intros [Hhead Hlast]. unfold wordCount, split_ws.
  pose proof (split_ws_from_nonempty s false [] Hlast (λ _, or_intror Hhead)) as Hall.
  induction Hall as [|w l Hw _ IH]; [done|].
  rewrite filter_cons_True by done. simpl. by rewrite IH.
Qed.

(** The heuristic on the counts of pieces, for texts shorter than 2^32 - 1
    code units. *)
Lemma categorizeLengthChange_pieces (original final : jsstring) :
  (Z.of_nat (length original) < 2 ^ 32 - 1)%Z →
  (Z.of_nat (length final) < 2 ^ 32 - 1)%Z →
  categorizeLengthChange original final
  = length_verdict (length (split_ws original)) (length (split_ws final)).
Proof.
  intros Ho Hf. unfold categorizeLengthChange, length_verdict.
  pose proof (split_ws_from_length false [] original) as Hlo.
  pose proof (split_ws_from_length false [] final) as Hlf.
  fold (split_ws original) in Hlo. fold (split_ws final) in Hlf.
  destruct (change_thresholds (length (split_ws original)) (length (split_ws final)))
    as [-> ->]; [lia..|].
  repeat case_bool_decide; repeat case_decide; done.
Qed.

(** ** The classifier's fallback *)

Lemma fallback_verdict_fields note summary originalText finalText :
  let verdict := fallback_verdict note summary originalText finalText in
  member verdict "toneChange" = Some (VStr (js note))
  ∧ member verdict "ctaChange" = Some (VStr (js note))
  ∧ member verdict "lengthChange"
    = Some (VStr (categorizeLengthChange originalText finalText))
  ∧ member verdict "summary" = Some (VStr (js summary)).
Proof. done. Qed.

(** The fallback paths of the classifier.  Without a stored key
    [analyzeEdits] makes no network call and resolves to a verdict whose tone and CTA read
    "Unable to analyze (no API key)" and whose length change is
    [categorizeLengthChange] of the two texts.  With a key, when the
    network call fails, the status is not a success, or the body or its
    content cannot be parsed, it resolves (nothing is thrown) after its one
    network call to a verdict of the same form that says "Unable to analyze
    (API error)" instead, with the same length change; so it does, without
    a network call, when reading the key fails.  For two texts that
    have a character other than white space at either end (and fewer than
    2^32 - 1 code units) that length change is "Expanded" when the word
    count rose by more than 20%, "Shortened" when it fell by more than 20%,
    and "No significant change" otherwise. *)
Theorem analyzeEdits_fallback (env : ClassifierEnv)
    (originalText finalText : jsstring) (editPercentage : Number) (sendDelay : Z) :
  let request apiKey :=
    {| req_apiKey := apiKey; req_originalText := originalText;
       req_finalText := finalText; req_editPercentage := editPercentage;
       req_sendDelay := sendDelay |} in
  let verdict note summary := fallback_verdict note summary originalText finalText in
  (openai_api_key env = Some [] →
   analyzeEdits env originalText finalText editPercentage sendDelay
   = (verdict "Unable to analyze (no API key)" "No API key configured", []))
  ∧ (∀ apiKey,
       openai_api_key env = Some apiKey → apiKey ≠ [] →
       api_failure env (request apiKey) →
       analyzeEdits env originalText finalText editPercentage sendDelay
       = (verdict "Unable to analyze (API error)" "Analysis failed",
          [request apiKey]))
  ∧ (openai_api_key env = None →
     analyzeEdits env originalText finalText editPercentage sendDelay
     = (verdict "Unable to analyze (API error)" "Analysis failed", []))
  ∧ (∀ note summary,
       member (verdict note summary) "toneChange" = Some (VStr (js note))
       ∧ member (verdict note summary) "ctaChange" = Some (VStr (js note))
       ∧ member (verdict note summary) "lengthChange"
         = Some (VStr (categorizeLengthChange originalText finalText)))
  ∧ (trimmed originalText → trimmed finalText →
     (Z.of_nat (length originalText) < 2 ^ 32 - 1)%Z →
     (Z.of_nat (length finalText) < 2 ^ 32 - 1)%Z →
     categorizeLengthChange originalText finalText
     = length_verdict (wordCount originalText) (wordCount finalText)).
Proof.
  intros request verdict. split_and!.
  - intros Hkey. unfold analyzeEdits. rewrite Hkey. by rewrite bool_decide_true.
  - intros apiKey Hkey Hne Hfail. unfold analyzeEdits. rewrite Hkey.
    rewrite bool_decide_false by done.
    fold (request apiKey). unfold analyzeEdits_call.
    destruct Hfail as [Hf|response Hf Hok|response Hf Hok Hc
                      |response content Hf Hok Hc Hp]; rewrite Hf; [done|..].
    + by rewrite Hok.
    + by rewrite Hok, Hc.
    + by rewrite Hok, Hc, Hp.
  - intros Hkey. unfold analyzeEdits. by rewrite Hkey.
  - intros note summary.
    destruct (fallback_verdict_fields note summary originalText finalText)
      as (? & ? & ? & _). done.
  - intros Ht1 Ht2 Hl1 Hl2.
    rewrite !wordCount_trimmed by done. by apply categorizeLengthChange_pieces.
Qed.

(** No key, and the network down, on a text of five words that grows to
    seven. *)
Lemma analyzeEdits_fallback_witness :
  analyzeEdits env_no_key (js "a b c d e") (js "a b c d e f g") (Finite 20) 5000
  = (fallback_verdict "Unable to analyze (no API key)" "No API key configured"
       (js "a b c d e") (js "a b c d e f g"), [])
  ∧ analyzeEdits env_network_down (js "a b c d e") (js "a b c d e f g")
      (Finite 20) 5000
    = (fallback_verdict "Unable to analyze (API error)" "Analysis failed"
         (js "a b c d e") (js "a b c d e f g"),
       [{| req_apiKey := js "sk-test"; req_originalText := js "a b c d e";
           req_finalText := js "a b c d e f g";
           req_editPercentage := Finite 20; req_sendDelay := 5000 |}])
  ∧ categorizeLengthChange (js "a b c d e") (js "a b c d e f g")
    = length_verdict (wordCount (js "a b c d e")) (wordCount (js "a b c d e f g")).
Proof.
  split_and!.
  - apply (analyzeEdits_fallback env_no_key). reflexivity.
  - apply (analyzeEdits_fallback env_network_down); [reflexivity|discriminate|].
    apply network_failure. reflexivity.
  - apply (analyzeEdits_fallback env_no_key _ _ (Finite 20) 5000).
    + split; eexists; (split; [reflexivity|reflexivity]).
    + split; eexists; (split; [reflexivity|reflexivity]).
    + vm_compute. reflexivity.
    + vm_compute. reflexivity.
Defined.

(** The counts of [categorizeLengthChange] are counts of pieces: white
    space at the end of the text adds an empty piece.  Six words after five
    are 20% more words, not more than 20%, yet with a trailing space the
    verdict is "Expanded". *)
Example categorizeLengthChange_trailing_space :
  wordCount (js "a b c d e") = 5 ∧ wordCount (js "a b c d e f ") = 6
  ∧ length_verdict 5 6 = js "No significant change"
  ∧ categorizeLengthChange (js "a b c d e") (js "a b c d e f ") = js "Expanded".
Proof. split_and!; vm_compute; reflexivity. Qed.

(** Claim C5, where the code departs from it.  The fallback verdict takes
    its length change from [categorizeLengthChange], which counts the
    pieces that [split(/\s+/)] gives without dropping the empty ones, as
    the other word counts of the script do
    ([filter(w => w.length > 0)]): white space at an end of a text counts
    as a word.  The draft of 30 words has grown to 36 words and ends in a
    line break, an edit of 17%, which is analysed.  The word count rose by
    20%, not by more, so the length change of the claim is "No significant
    change"; the verdict, without a key (and without a network call) as
    with the network down, reads "Expanded". *)
Theorem analyzeEdits_fallback_counts_empty_piece :
  wordCount paste_first = 30 ∧ wordCount grown_text = 36
  ∧ length_verdict 30 36 = js "No significant change"
  ∧ calculateEditPercentage paste_first grown_text = Some (Finite 17)
  ∧ analyzeEdits env_no_key paste_first grown_text (Finite 17) 5000
    = (fallback_verdict "Unable to analyze (no API key)" "No API key configured"
         paste_first grown_text, [])
  ∧ member (fallback_verdict "Unable to analyze (no API key)"
              "No API key configured" paste_first grown_text) "lengthChange"
    = Some (VStr (js "Expanded"))
  ∧ member (analyzeEdits env_network_down paste_first grown_text (Finite 17)
              5000).1 "lengthChange"
    = Some (VStr (js "Expanded"))
  ∧ length (split_ws paste_first) = 30 ∧ length (split_ws grown_text) = 37.
Proof. split_and!; vm_compute; reflexivity. Qed.

(** ** Detection (claim C1) *)

Lemma paste_pattern_true s currentText currentTime :
  paste_pattern s currentText currentTime = true ↔
  fridayDraftDetected s = false
  ∧ MIN_WORD_COUNT ≤ wordCount currentText
  ∧ (100 < Z.of_nat (length currentText) - Z.of_nat (length (lastText s)))%Z
  ∧ (currentTime - lastChangeTime s < BULK_INSERT_THRESHOLD)%Z.
Proof.
  unfold paste_pattern.
  rewrite !andb_true_iff, negb_true_iff, !bool_decide_eq_true. tauto.
Qed.

(** What one run of the observer callback adds to the calls made: the
    handler and the store when the test holds, nothing otherwise. *)
Lemma on_mutation_effects surface s currentText currentTime fresh w :
  surfaces w !! surface = Some s →
  let w' := on_mutation surface currentText currentTime fresh w in
  if bool_decide (currentText ≠ lastText s)
     && paste_pattern s currentText currentTime
  then
    effects w'
    = effects w ++ [EDetected surface (fresh_id fresh);
                    EStored {| draft_id := fresh_id fresh;
                               draft_textBox := textBox s;
                               originalText := currentText;
                               originalWordCount := wordCount currentText;
                               generatedAt := fresh_iso fresh;
                               timestamp := fresh_now fresh |}]
    ∧ currentDraft w'
      = Some {| draft_id := fresh_id fresh; draft_textBox := textBox s;
                originalText := currentText;
                originalWordCount := wordCount currentText;
                generatedAt := fresh_iso fresh; timestamp := fresh_now fresh |}
  else effects w' = effects w ∧ currentDraft w' = currentDraft w.
Proof.
  intros Hs w'. unfold w', on_mutation. rewrite Hs.
  destruct (decide (currentText = lastText s)) as [Heq|Hne].
  - rewrite (bool_decide_true (currentText = lastText s)) by done.
    by rewrite (bool_decide_false (currentText ≠ lastText s)) by tauto.
  - rewrite (bool_decide_false (currentText = lastText s)) by done.
    rewrite (bool_decide_true (currentText ≠ lastText s)) by done.
    destruct (paste_pattern s currentText currentTime); simpl andb; cbv iota.
    + rewrite orb_true_r. simpl. by destruct (analysisTimer s).
    + rewrite orb_false_r.
      destruct (fridayDraftDetected s && bool_decide (is_Some (currentDraft w)));
        [by destruct (analysisTimer s)|done].
Qed.

(** Claim C1, as the code has it.  On a surface where no draft has been
    detected yet, a content change fires the detection (the handler runs,
    captures the text as the current draft and stores it) if and only if
    the text has at least 30 words, more than 100 characters were added
    since the previous observed text, and less than 2000 ms passed since the
    previous change. *)
Theorem paste_pattern_detection (w : World) (surface : nat) (s : Surface)
    (currentText : jsstring) (currentTime : Z) (fresh : Fresh) :
  surfaces w !! surface = Some s →
  fridayDraftDetected s = false →
  detection_fires surface w (on_mutation surface currentText currentTime fresh w)
  ↔ MIN_WORD_COUNT ≤ wordCount currentText
    ∧ (100 < Z.of_nat (length currentText) - Z.of_nat (length (lastText s)))%Z
    ∧ (currentTime - lastChangeTime s < BULK_INSERT_THRESHOLD)%Z.
Proof.
  intros Hs Hflag.
  pose proof (on_mutation_effects surface s currentText currentTime fresh w Hs)
    as Heff. cbv zeta in Heff.
  destruct (paste_pattern s currentText currentTime) eqn:Hp.
  - pose proof Hp as Hp'. apply paste_pattern_true in Hp' as (_ & Hw & Ha & Ht).
    assert (currentText ≠ lastText s) as Hne.
    { intros ->. lia. }
    rewrite bool_decide_true in Heff by done. simpl in Heff.
    destruct Heff as [He Hd]. split; [done|]. intros _.
    eexists. split; [|exact Hd]. exact He.
  - rewrite andb_false_r in Heff. destruct Heff as [He _]. split.
    + intros (draft & He' & _). rewrite He in He'.
      apply (f_equal length) in He'. rewrite length_app in He'. simpl in He'. lia.
    + intros (Hw & Ha & Ht).
      assert (paste_pattern s currentText currentTime = true); [|congruence].
      by apply paste_pattern_true.
Qed.

(** Claim C1, witness: 40 words and 250 characters, 500 ms after the
    surface was attached: the detection fires. *)
Lemma paste_pattern_detection_witness :
  detection_fires 0 attached_world (on_mutation 0 paste_40_250 500 fresh_1 attached_world).
Proof.
  apply (paste_pattern_detection attached_world 0 attached_surface);
    [reflexivity|reflexivity|].
  vm_compute. split_and!; [lia|done..].
Defined.

(** The same text 3000 ms after the previous change is not detected. *)
Example paste_after_3000ms_not_detected :
  ¬ detection_fires 0 attached_world
      (on_mutation 0 paste_40_250 3000 fresh_1 attached_world).
Proof.
  rewrite (paste_pattern_detection attached_world 0 attached_surface) by done.
  vm_compute. intros (_ & _ & H). done.
Qed.

(** Claim C1, counterexample.  The claim counts a change that arrives at
    most 2000 ms after the previous one; the code asks for less than
    2000 ms.  The text of 40 words and 250 characters that arrives exactly
    2000 ms after the surface was attached meets the three thresholds as the
    claim words them (with 100 characters as the minimum) and is not
    detected. *)
Lemma paste_at_2000ms_not_detected :
  ¬ (detection_fires 0 attached_world
       (on_mutation 0 paste_40_250 2000 fresh_1 attached_world)
     ↔ claimed_paste_pattern 100 attached_surface paste_40_250 2000).
Proof.
  rewrite (paste_pattern_detection attached_world 0 attached_surface) by done.
  intros [_ H]. destruct H as (_ & _ & H).
  - vm_compute. split_and!; [lia|discriminate..].
  - vm_compute in H. done.
Qed.

(** ** What each step leaves alone *)

Lemma analyzeCurrentEdits_frame currentText now w :
  let w' := analyzeCurrentEdits currentText now w in
  currentDraft w' = currentDraft w ∧ surfaces w' = surfaces w
  ∧ timers w' = timers w ∧ next_timer w' = next_timer w
  ∧ stored_drafts w' = stored_drafts w
  ∧ ∃ ext, effects w' = effects w ++ ext ∧ Forall classify_effect ext.
Proof.
  unfold analyzeCurrentEdits.
  destruct (currentDraft w) as [draft|] eqn:Hd;
    [|by split_and!; try done; exists []; rewrite app_nil_r].
  destruct (calculateEditPercentage _ _) as [pct|];
    [|by split_and!; try done; exists []; rewrite app_nil_r].
  destruct (js_ge pct _);
    [|by split_and!; try done; exists []; rewrite app_nil_r].
  simpl. split_and!; try done. eexists. split; [done|].
  by repeat constructor.
Qed.

Lemma timer_callback_frame now w t :
  let w' := timer_callback now w t in
  currentDraft w' = currentDraft w ∧ surfaces w' = surfaces w
  ∧ timers w' = timers w ∧ next_timer w' = next_timer w
  ∧ stored_drafts w' = stored_drafts w
  ∧ ∃ ext, effects w' = effects w ++ EAnalyze (timer_surface t) (timer_text t) :: ext
           ∧ Forall classify_effect ext.
Proof.
  unfold timer_callback.
  destruct (analyzeCurrentEdits_frame (timer_text t) now
              {| currentDraft := currentDraft w; surfaces := surfaces w;
                 timers := timers w; next_timer := next_timer w;
                 stored_drafts := stored_drafts w; in_flight := in_flight w;
                 effects := effects w ++ [EAnalyze (timer_surface t) (timer_text t)] |})
    as (H1 & H2 & H3 & H4 & H5 & ext & H6 & H7).
  simpl in *. split_and!; try done.
  exists ext. split; [|done]. by rewrite H6, <-(assoc_L (++)).
Qed.

Lemma analyses_of_app surface l1 l2 :
  analyses_of surface (l1 ++ l2) = analyses_of surface l1 ++ analyses_of surface l2.
Proof. apply omap_app. Qed.

Lemma analyses_of_classify surface ext :
  Forall classify_effect ext → analyses_of surface ext = [].
Proof.
  induction 1 as [|e ext He _ IH]; [done|].
  by destruct e.
Qed.

Lemma classify_timer_effect ext : Forall classify_effect ext → Forall timer_effect ext.
Proof. intros H. eapply Forall_impl; [exact H|]. by intros []. Qed.

(** The timers that fire at [now], one after the other. *)
Lemma fire_timers_frame now due w :
  let w' := foldl (timer_callback now) w due in
  currentDraft w' = currentDraft w ∧ surfaces w' = surfaces w
  ∧ timers w' = timers w ∧ next_timer w' = next_timer w
  ∧ stored_drafts w' = stored_drafts w
  ∧ ∃ ext, effects w' = effects w ++ ext
           ∧ Forall timer_effect ext
           ∧ ∀ surface,
               analyses_of surface ext
               = timer_text <$> filter (λ t, timer_surface t = surface) due.
Proof.
  revert w. induction due as [|t due IH]; intros w; simpl.
  { split_and!; try done. exists []. by rewrite app_nil_r. }
  destruct (timer_callback_frame now w t)
    as (H1 & H2 & H3 & H4 & H5 & ext1 & H6 & H7).
  destruct (IH (timer_callback now w t))
    as (G1 & G2 & G3 & G4 & G5 & ext2 & G6 & G7 & G8).
  cbv zeta in *. split_and!; try congruence.
  exists (EAnalyze (timer_surface t) (timer_text t) :: ext1 ++ ext2).
  split_and!.
  - rewrite G6, H6. by rewrite <-(assoc_L (++)).
  - constructor; [done|]. apply Forall_app. split; [|done].
    by apply classify_timer_effect.
  - intros surface.
    change (EAnalyze (timer_surface t) (timer_text t) :: ext1 ++ ext2)
      with ([EAnalyze (timer_surface t) (timer_text t)] ++ ext1 ++ ext2).
    rewrite !analyses_of_app, G8, (analyses_of_classify _ ext1) by done.
    unfold analyses_of. simpl.
    destruct (decide (timer_surface t = surface)) as [Hs|Hs].
    + by rewrite filter_cons_True by done.
    + by rewrite filter_cons_False by done.
Qed.

Lemma run_timers_frame now w :
  let w' := run_timers now w in
  currentDraft w' = currentDraft w ∧ surfaces w' = surfaces w
  ∧ timers w' = filter (λ t, ¬ (timer_due t ≤ now)%Z) (timers w)
  ∧ next_timer w' = next_timer w
  ∧ stored_drafts w' = stored_drafts w
  ∧ ∃ ext, effects w' = effects w ++ ext
           ∧ Forall timer_effect ext
           ∧ ∀ surface,
               analyses_of surface ext
               = timer_text <$> filter (λ t, timer_surface t = surface)
                                  (filter (λ t, (timer_due t ≤ now)%Z) (timers w)).
Proof.
  unfold run_timers.
  destruct (fire_timers_frame now
              (filter (λ t, (timer_due t ≤ now)%Z) (timers w))
              {| currentDraft := currentDraft w; surfaces := surfaces w;
                 timers := filter (λ t, ¬ (timer_due t ≤ now)%Z) (timers w);
                 next_timer := next_timer w; stored_drafts := stored_drafts w;
                 in_flight := in_flight w; effects := effects w |})
    as (H1 & H2 & H3 & H4 & H5 & ext & H6 & H7 & H8).
  simpl in *. split_and!; try done. by exists ext.
Qed.

Lemma settle_frame k env sentAt w :
  let w' := settle k env sentAt w in
  currentDraft w' = currentDraft w ∧ surfaces w' = surfaces w
  ∧ timers w' = timers w ∧ next_timer w' = next_timer w
  ∧ ∃ ext, effects w' = effects w ++ ext ∧ Forall settle_effect ext
           ∧ Forall status_effect ext.
Proof.
  unfold settle.
  destruct (in_flight w !! k) as [p|];
    [|by split_and!; try done; exists []; rewrite app_nil_r].
  destruct (analyzeEdits env _ _ _ _) as [analysis calls].
  assert (Forall settle_effect (EFetch <$> calls)) as Hcalls.
  { apply Forall_fmap. by apply Forall_true. }
  assert (Forall status_effect (EFetch <$> calls)) as Hcalls'.
  { apply Forall_fmap. by apply Forall_true. }
  destruct (currentDraft w) as [draft|] eqn:Hd; simpl.
  - split_and!; try done. eexists. split; [done|].
    split; apply Forall_app; (split; [done|]); (constructor; [|done]).
    + done.
    + unfold status_effect, analysis_data, get. by rewrite lookup_insert_eq.
  - split_and!; try done. by eexists.
Qed.

(** The observer callback on a text that differs from the last one, when
    it arms the timer: the surface is detected (now or before) and there is
    a current draft. *)
Lemma on_mutation_armed surface s currentText currentTime fresh w :
  surfaces w !! surface = Some s → currentText ≠ lastText s →
  let detect := paste_pattern s currentText currentTime in
  let w1 := if detect
            then handleFridayDraftDetected surface (textBox s) currentText fresh w
            else w in
  (fridayDraftDetected s || detect) && bool_decide (is_Some (currentDraft w1))
  = true →
  on_mutation surface currentText currentTime fresh w
  = {| currentDraft := currentDraft w1;
       surfaces :=
         <[surface := {| textBox := textBox s;
                         lastText := currentText; lastChangeTime := currentTime;
                         fridayDraftDetected := true;
                         analysisTimer := Some (next_timer w) |}]> (surfaces w);
       timers :=
         match analysisTimer s with
         | Some handle => filter (λ t, timer_id t ≠ handle) (timers w)
         | None => timers w
         end ++ [{| timer_id := next_timer w; timer_surface := surface;
                    timer_due := (currentTime + ANALYSIS_DELAY)%Z;
                    timer_text := currentText |}];
       next_timer := Pos.succ (next_timer w);
       stored_drafts := stored_drafts w1;
       in_flight := in_flight w;
       effects := effects w1 |}.
Proof.
  intros Hs Hne detect w1 Hcond. unfold on_mutation. rewrite Hs.
  rewrite bool_decide_false by done. fold detect. fold w1. rewrite Hcond.
  apply andb_true_iff in Hcond as [-> _].
  unfold w1. by destruct detect, (analysisTimer s).
Qed.

(** The same when it does not arm the timer. *)
Lemma on_mutation_idle surface s currentText currentTime fresh w :
  surfaces w !! surface = Some s → currentText ≠ lastText s →
  let detect := paste_pattern s currentText currentTime in
  let w1 := if detect
            then handleFridayDraftDetected surface (textBox s) currentText fresh w
            else w in
  (fridayDraftDetected s || detect) && bool_decide (is_Some (currentDraft w1))
  = false →
  on_mutation surface currentText currentTime fresh w
  = {| currentDraft := currentDraft w1;
       surfaces :=
         <[surface := {| textBox := textBox s;
                         lastText := currentText; lastChangeTime := currentTime;
                         fridayDraftDetected := fridayDraftDetected s || detect;
                         analysisTimer := analysisTimer s |}]> (surfaces w);
       timers := timers w;
       next_timer := next_timer w;
       stored_drafts := stored_drafts w1;
       in_flight := in_flight w;
       effects := effects w1 |}.
Proof.
  intros Hs Hne detect w1 Hcond. unfold on_mutation. rewrite Hs.
  rewrite bool_decide_false by done. fold detect. fold w1. rewrite Hcond.
  unfold w1. by destruct detect.
Qed.

Lemma on_mutation_same surface s currentText currentTime fresh w :
  surfaces w !! surface = Some s → currentText = lastText s →
  on_mutation surface currentText currentTime fresh w = w.
Proof.
  intros Hs Heq. unfold on_mutation. rewrite Hs. by rewrite bool_decide_true.
Qed.

Lemma on_mutation_unwatched surface currentText currentTime fresh w :
  surfaces w !! surface = None →
  on_mutation surface currentText currentTime fresh w = w.
Proof. intros Hs. unfold on_mutation. by rewrite Hs. Qed.

(** ** Reachable worlds keep the timer invariant *)

Lemma NoDup_fmap_filter {A B : Type} (f : A → B) (P : A → Prop)
    `{∀ x, Decision (P x)} (l : list A) :
  NoDup (f <$> l) → NoDup (f <$> filter P l).
Proof.
  intros Hl. eapply sublist_NoDup; [exact Hl|].
  apply fmap_sublist, sublist_filter.
Qed.

Lemma detected_insert surface s sid w ws tm nt st fl ef :
  surface < length ws →
  detected sid {| currentDraft := w; surfaces := <[surface := s]> ws;
                  timers := tm; next_timer := nt; stored_drafts := st;
                  in_flight := fl; effects := ef |}
  = if decide (sid = surface) then fridayDraftDetected s
    else match ws !! sid with
         | Some s' => fridayDraftDetected s'
         | None => false
         end.
Proof.
  intros Hlt. unfold detected. simpl.
  destruct (decide (sid = surface)) as [->|Hne].
  - by rewrite list_lookup_insert_eq.
  - by rewrite list_lookup_insert_ne.
Qed.

(** A new watcher leaves the others as they are, and has not detected. *)
Lemma monitorComposeWindow_lookup box now w surface s :
  surfaces w !! surface = Some s →
  surfaces (monitorComposeWindow box now w) !! surface = Some s.
Proof. intros Hs. simpl. by apply lookup_app_l_Some. Qed.

Lemma detected_monitorComposeWindow sid box now w :
  detected sid (monitorComposeWindow box now w) = detected sid w.
Proof.
  unfold detected. simpl.
  destruct (surfaces w !! sid) as [s|] eqn:Hs.
  - by rewrite (lookup_app_l_Some _ _ _ _ Hs).
  - apply lookup_ge_None in Hs. rewrite lookup_app_r by done.
    by destruct (sid - length (surfaces w)) as [|[|n]].
Qed.

Lemma timers_inv_initial : timers_inv initial_world.
Proof.
  split; simpl.
  - done.
  - intros t Ht. by apply elem_of_nil in Ht.
  - constructor.
  - intros t Ht. by apply elem_of_nil in Ht.
Qed.

Lemma timers_inv_monitorComposeWindow box now w :
  timers_inv w → timers_inv (monitorComposeWindow box now w).
Proof.
  intros [Hd Hf Hn Ho]. split; [|done..|].
  - intros sid. rewrite detected_monitorComposeWindow. apply Hd.
  - intros t Ht. destruct (Ho t Ht) as (s & Hs & Ha).
    exists s. split; [|done]. by apply monitorComposeWindow_lookup.
Qed.

Lemma timers_inv_run_timers now w : timers_inv w → timers_inv (run_timers now w).
Proof.
  intros [Hd Hf Hn Ho].
  destruct (run_timers_frame now w) as (H1 & H2 & H3 & H4 & _).
  split.
  - intros sid. unfold detected. rewrite H2, H1. apply Hd.
  - intros t. rewrite H3, H4. intros [_ Ht]%list_elem_of_filter. by apply Hf.
  - rewrite H3. by apply NoDup_fmap_filter.
  - intros t. rewrite H3, H2. intros [_ Ht]%list_elem_of_filter. by apply Ho.
Qed.

Lemma timers_inv_settle k env sentAt w :
  timers_inv w → timers_inv (settle k env sentAt w).
Proof.
  intros [Hd Hf Hn Ho].
  destruct (settle_frame k env sentAt w) as (H1 & H2 & H3 & H4 & _).
  split.
  - intros sid. unfold detected. rewrite H2, H1. apply Hd.
  - intros t. rewrite H3, H4. apply Hf.
  - by rewrite H3.
  - intros t. rewrite H3, H2. apply Ho.
Qed.

Lemma currentDraft_after_handler surface s currentText currentTime fresh w :
  let detect := paste_pattern s currentText currentTime in
  let w1 := if detect
            then handleFridayDraftDetected surface (textBox s) currentText fresh w
            else w in
  is_Some (currentDraft w) → is_Some (currentDraft w1).
Proof. intros detect w1 H. unfold w1. by destruct detect. Qed.

Lemma timers_inv_on_mutation surface currentText currentTime fresh w :
  timers_inv w → timers_inv (on_mutation surface currentText currentTime fresh w).
Proof.
  intros Hinv.
  destruct (surfaces w !! surface) as [s|] eqn:Hs;
    [|by rewrite on_mutation_unwatched].
  destruct (decide (currentText = lastText s)) as [Heq|Hne];
    [by rewrite (on_mutation_same surface s)|].
  destruct Hinv as [Hd Hf Hn Ho].
  pose proof (lookup_lt_Some _ _ _ Hs) as Hlt.
  set (detect := paste_pattern s currentText currentTime).
  set (w1 := if detect
             then handleFridayDraftDetected surface (textBox s) currentText fresh w
            else w).
  destruct ((fridayDraftDetected s || detect)
            && bool_decide (is_Some (currentDraft w1))) eqn:Hcond.
  - rewrite (on_mutation_armed surface s) by done. fold detect. fold w1.
    apply andb_true_iff in Hcond as [_ Hsome%bool_decide_eq_true].
    assert (∀ t, t ∈ match analysisTimer s with
                     | Some handle => filter (λ t, timer_id t ≠ handle) (timers w)
                     | None => timers w
                     end → t ∈ timers w ∧ timer_surface t ≠ surface) as Hold.
    { intros t Ht.
      assert (t ∈ timers w ∧ analysisTimer s ≠ Some (timer_id t)) as [Ht' Hid].
      { destruct (analysisTimer s) as [handle|]; [|done].
        apply list_elem_of_filter in Ht as [Hid Ht]. split; [done|]. congruence. }
      split; [done|]. intros Hsurf.
      destruct (Ho t Ht') as (s' & Hs' & Ha). rewrite Hsurf, Hs in Hs'.
      congruence. }
    split; simpl.
    + done.
    + intros t [Ht| ->%list_elem_of_singleton]%elem_of_app; simpl.
      * apply Hold in Ht as [Ht _]. specialize (Hf t Ht). lia.
      * lia.
    + rewrite fmap_app. apply NoDup_app. split_and!.
      * destruct (analysisTimer s); [by apply NoDup_fmap_filter|done].
      * intros i (t & -> & Ht)%list_elem_of_fmap.
        apply Hold in Ht as [Ht _]. specialize (Hf t Ht).
        simpl. intros Heq%list_elem_of_singleton. lia.
      * simpl. apply NoDup_singleton.
    + intros t [Ht| ->%list_elem_of_singleton]%elem_of_app; simpl.
      * apply Hold in Ht as [Ht Hsurf].
        rewrite list_lookup_insert_ne by done. by apply Ho.
      * rewrite list_lookup_insert_eq by done. by eexists.
  - rewrite (on_mutation_idle surface s) by done. fold detect. fold w1.
    split; simpl; [|done..|].
    + intros sid. rewrite detected_insert by done. simpl.
      destruct (decide (sid = surface)) as [->|Hsid].
      * intros Hflag. rewrite Hflag in Hcond. simpl in Hcond.
        apply bool_decide_eq_false in Hcond. exfalso. apply Hcond.
        destruct detect eqn:Hdet; [done|]. rewrite orb_false_r in Hflag.
        apply (Hd surface). unfold detected. by rewrite Hs.
      * intros Hflag. apply currentDraft_after_handler.
        apply (Hd sid). by unfold detected.
    + intros t Ht. destruct (Ho t Ht) as (s' & Hs' & Ha).
      destruct (decide (timer_surface t = surface)) as [Hsurf|Hsurf].
      * rewrite Hsurf, list_lookup_insert_eq by done. rewrite Hsurf, Hs in Hs'.
        eexists. split; [done|]. simpl. congruence.
      * rewrite list_lookup_insert_ne by done. by exists s'.
Qed.

Lemma timers_inv_step w e : timers_inv w → timers_inv (step w e).
Proof.
  intros Hinv. destruct e; simpl.
  - by apply timers_inv_monitorComposeWindow.
  - by apply timers_inv_on_mutation, timers_inv_run_timers.
  - by apply timers_inv_run_timers.
  - by apply timers_inv_settle.
  - by destruct Hinv.
Qed.

Lemma run_snoc events e w : run (events ++ [e]) w = step (run events w) e.
Proof. unfold run. by rewrite foldl_app. Qed.

Lemma run_app events1 events2 w :
  run (events1 ++ events2) w = run events2 (run events1 w).
Proof. unfold run. by rewrite foldl_app. Qed.

Lemma timers_inv_run events w : timers_inv w → timers_inv (run events w).
Proof.
  intros Hinv. induction events as [|e events IH] using rev_ind; [done|].
  rewrite run_snoc. by apply timers_inv_step.
Qed.

(** ** Below the minimum nothing is classified (claim C6) *)

Lemma js_lt_not_ge x y : js_lt x y = true → js_ge x y = false.
Proof. unfold js_ge. destruct x, y; simpl; try done; by intros ->. Qed.

(** Claim C6.  When the debounce timer fires and the edit percentage of the
    current text against the baseline is below the minimum (10),
    [analyzeCurrentEdits] changes nothing: of the timer's callback only the
    call itself is on record, no classifier call is started or in flight
    (so no request is sent), and the stored list is as before. *)
Theorem analyzeCurrentEdits_below_minimum (w : World) (draft : Draft)
    (t : Timer) (now : Z) (editPercentage : Number) :
  currentDraft w = Some draft →
  calculateEditPercentage (originalText draft) (timer_text t) = Some editPercentage →
  js_lt editPercentage (Number_of_nat MIN_EDIT_PERCENTAGE) = true →
  analyzeCurrentEdits (timer_text t) now w = w
  ∧ effects (timer_callback now w t)
    = effects w ++ [EAnalyze (timer_surface t) (timer_text t)]
  ∧ in_flight (timer_callback now w t) = in_flight w
  ∧ stored_drafts (timer_callback now w t) = stored_drafts w.
Proof.
  intros Hd Hpct Hlt. apply js_lt_not_ge in Hlt.
  unfold timer_callback, analyzeCurrentEdits. simpl. rewrite Hd, Hpct, Hlt.
  done.
Qed.

(** Claim C6, witness: the sentence of the specification's example with its
    white space changed is 4 percent away from the baseline. *)
Lemma analyzeCurrentEdits_below_minimum_witness :
  analyzeCurrentEdits respaced_text 4000 baseline_world = baseline_world
  ∧ effects (timer_callback 4000 baseline_world
               {| timer_id := 1; timer_surface := 0; timer_due := 4000;
                  timer_text := respaced_text |})
    = effects baseline_world ++ [EAnalyze 0 respaced_text]
  ∧ in_flight (timer_callback 4000 baseline_world
                 {| timer_id := 1; timer_surface := 0; timer_due := 4000;
                    timer_text := respaced_text |})
    = in_flight baseline_world
  ∧ stored_drafts (timer_callback 4000 baseline_world
                     {| timer_id := 1; timer_surface := 0; timer_due := 4000;
                        timer_text := respaced_text |})
    = stored_drafts baseline_world.
Proof.
  apply (analyzeCurrentEdits_below_minimum baseline_world
           {| draft_id := fresh_id fresh_1; draft_textBox := 0;
              originalText := baseline_text;
              originalWordCount := wordCount baseline_text;
              generatedAt := fresh_iso fresh_1; timestamp := fresh_now fresh_1 |}
           {| timer_id := 1; timer_surface := 0; timer_due := 4000;
              timer_text := respaced_text |} 4000 (Finite 4)).
  - reflexivity.
  - vm_compute. reflexivity.
  - reflexivity.
Defined.

(** ** A watcher detects once *)

Lemma detections_of_app surface l1 l2 :
  detections_of surface (l1 ++ l2)
  = detections_of surface l1 + detections_of surface l2.
Proof. unfold detections_of. by rewrite filter_app, length_app. Qed.

Lemma stores_of_app box l1 l2 :
  stores_of box (l1 ++ l2) = stores_of box l1 + stores_of box l2.
Proof. unfold stores_of. by rewrite filter_app, length_app. Qed.

Lemma no_detection_in surface ext :
  Forall (λ e, timer_effect e ∨ settle_effect e) ext →
  detections_of surface ext = 0 ∧ stores_of surface ext = 0.
Proof.
  induction 1 as [|e ext He _ [IH1 IH2]]; [done|].
  unfold detections_of, stores_of in *.
  rewrite !filter_cons_False; [done|..]; destruct e, He; done.
Qed.

Lemma handler_counts sid surface i draft :
  detections_of sid [EDetected surface i; EStored draft]
  = (if decide (sid = surface) then 1 else 0).
Proof.
  unfold detections_of. rewrite !filter_cons, !filter_nil. simpl.
  destruct (decide (sid = surface)) as [->|Hne].
  - rewrite !bool_decide_true by done. by repeat case_decide.
  - rewrite !bool_decide_false by congruence. by repeat case_decide.
Qed.

Lemma once_inv_frame w w' ext :
  (∀ surface, detected surface w' = detected surface w) →
  effects w' = effects w ++ ext →
  Forall (λ e, timer_effect e ∨ settle_effect e) ext →
  once_inv w → once_inv w'.
Proof.
  intros Hs He Hext Hinv surface.
  destruct (no_detection_in surface ext Hext) as [G1 _].
  rewrite He, Hs, detections_of_app, G1, (Hinv surface). lia.
Qed.

(** The flag of each watcher after the observer of one of them has run on
    a text that differs from the last one it saw. *)
Lemma detected_on_mutation surface s currentText currentTime fresh w sid :
  surfaces w !! surface = Some s → currentText ≠ lastText s →
  detected sid (on_mutation surface currentText currentTime fresh w)
  = if decide (sid = surface)
    then fridayDraftDetected s || paste_pattern s currentText currentTime
    else detected sid w.
Proof.
  intros Hs Hne. pose proof (lookup_lt_Some _ _ _ Hs) as Hlt.
  set (detect := paste_pattern s currentText currentTime).
  set (w1 := if detect
             then handleFridayDraftDetected surface (textBox s) currentText fresh w
             else w).
  destruct ((fridayDraftDetected s || detect)
            && bool_decide (is_Some (currentDraft w1))) eqn:Hcond.
  - rewrite (on_mutation_armed surface s) by done.
    rewrite detected_insert by done.
    simpl. apply andb_true_iff in Hcond as [-> _]. done.
  - rewrite (on_mutation_idle surface s) by done.
    by rewrite detected_insert by done.
Qed.

Lemma once_inv_on_mutation surface currentText currentTime fresh w :
  once_inv w → once_inv (on_mutation surface currentText currentTime fresh w).
Proof.
  intros Hinv.
  destruct (surfaces w !! surface) as [s|] eqn:Hs;
    [|by rewrite on_mutation_unwatched].
  destruct (decide (currentText = lastText s)) as [Heq|Hne];
    [by rewrite (on_mutation_same surface s)|].
  pose proof (on_mutation_effects surface s currentText currentTime fresh w Hs)
    as Heff. cbv zeta in Heff. rewrite bool_decide_true in Heff by done.
  simpl in Heff.
  intros sid. rewrite (detected_on_mutation surface s) by done.
  pose proof (Hinv sid) as H1.
  destruct (paste_pattern s currentText currentTime) eqn:Hdetect.
  - destruct Heff as [-> _]. rewrite detections_of_app, H1, handler_counts.
    apply paste_pattern_true in Hdetect as (Hflag & _).
    destruct (decide (sid = surface)) as [->|Hsid]; [|lia].
    unfold detected. by rewrite Hs, Hflag.
  - destruct Heff as [-> _]. rewrite orb_false_r.
    destruct (decide (sid = surface)) as [->|Hsid]; [|done].
    unfold detected in H1. by rewrite Hs in H1.
Qed.

Lemma once_inv_step w e : once_inv w → once_inv (step w e).
Proof.
  intros Hinv. destruct e; simpl.
  - intros sid. rewrite detected_monitorComposeWindow. apply Hinv.
  - apply once_inv_on_mutation.
    destruct (run_timers_frame currentTime w)
      as (_ & H2 & _ & _ & _ & ext & H6 & H7 & _).
    eapply (once_inv_frame w); [|done| |done].
    + intros sid. unfold detected. by rewrite H2.
    + eapply Forall_impl; [exact H7|]. tauto.
  - destruct (run_timers_frame now w) as (_ & H2 & _ & _ & _ & ext & H6 & H7 & _).
    eapply (once_inv_frame w); [|done| |done].
    + intros sid. unfold detected. by rewrite H2.
    + eapply Forall_impl; [exact H7|]. tauto.
  - destruct (settle_frame k env sentAt w) as (_ & H2 & _ & _ & ext & H6 & H7 & _).
    eapply (once_inv_frame w); [|done| |done].
    + intros sid. unfold detected. by rewrite H2.
    + eapply Forall_impl; [exact H7|]. tauto.
  - done.
Qed.

Lemma once_inv_run events : once_inv (run events initial_world).
Proof.
  induction events as [|e events IH] using rev_ind; [done|].
  rewrite run_snoc. by apply once_inv_step.
Qed.

(** In every run the observer of each watcher calls the detection handler
    at most once.  Once the watcher's flag is set, a further content change
    seen by that observer, whatever its text and timing, calls neither the
    handler nor the store, for any text box, and the flag stays set. *)
Theorem observer_detects_at_most_once (events : list Event) (surface : nat) :
  let w := run events initial_world in
  detections_of surface (effects w) ≤ 1
  ∧ (detected surface w = true →
     ∀ currentText currentTime fresh,
       let w' := step w (Mutation surface currentText currentTime fresh) in
       detections_of surface (effects w') = detections_of surface (effects w)
       ∧ (∀ box, stores_of box (effects w') = stores_of box (effects w))
       ∧ detected surface w' = true).
Proof.
  intros w. pose proof (once_inv_run events) as Hinv. fold w in Hinv.
  pose proof (Hinv surface) as H1. split.
  - rewrite H1. destruct (detected surface w); lia.
  - intros Hdet currentText currentTime fresh w'.
    pose proof (once_inv_step w (Mutation surface currentText currentTime fresh) Hinv
                  surface) as G1. fold w' in G1.
    assert ((∀ box, stores_of box (effects w') = stores_of box (effects w))
            ∧ detected surface w' = true) as [Hst Hdet'].
    { unfold w'. simpl.
      destruct (run_timers_frame currentTime w)
        as (_ & R2 & _ & _ & _ & ext & R6 & R7 & _).
      set (w0 := run_timers currentTime w) in *.
      assert (∀ box, stores_of box (effects w0) = stores_of box (effects w))
        as Hst0.
      { intros box. rewrite R6, stores_of_app.
        destruct (no_detection_in box ext) as [_ ->]; [|lia].
        eapply Forall_impl; [exact R7|]. tauto. }
      unfold detected in Hdet. rewrite <-R2 in Hdet.
      destruct (surfaces w0 !! surface) as [s|] eqn:Hs; [|done].
      destruct (decide (currentText = lastText s)) as [Heq|Hne].
      { rewrite (on_mutation_same surface s) by done.
        unfold detected. by rewrite Hs. }
      assert (paste_pattern s currentText currentTime = false) as Hp.
      { unfold paste_pattern. by rewrite Hdet. }
      pose proof (on_mutation_effects surface s currentText currentTime fresh w0
                    Hs) as Heff. cbv zeta in Heff.
      rewrite Hp, andb_false_r in Heff. destruct Heff as [Heff _].
      split.
      - intros box. by rewrite Heff.
      - rewrite (detected_on_mutation surface s) by done.
        rewrite decide_True by done. by rewrite Hdet. }
    rewrite G1, H1, Hdet', Hdet. done.
Qed.

(** The same text pasted a second time into the text box where it was
    detected, one second later. *)
Lemma observer_detects_at_most_once_witness :
  detections_of 0 (effects (step detected_world
                              (Mutation 0 (paste_40_250 ++ paste_40_250) 1500 fresh_1)))
  = detections_of 0 (effects detected_world)
  ∧ (∀ box,
       stores_of box (effects (step detected_world
                                 (Mutation 0 (paste_40_250 ++ paste_40_250) 1500
                                    fresh_1)))
       = stores_of box (effects detected_world))
  ∧ detected 0 (step detected_world
                  (Mutation 0 (paste_40_250 ++ paste_40_250) 1500 fresh_1))
    = true.
Proof.
  apply (proj2 (observer_detects_at_most_once
                  [Attach 0 0; Mutation 0 paste_40_250 500 fresh_1] 0)).
  vm_compute. reflexivity.
Defined.

(** ** One record per text box (claim C7) *)

(** Whatever happens in the page, it is a run of the tracker: the
    statements about every run hold of every page. *)
Lemma page_step_is_run page e :
  ∃ events, page_world (page_step page e) = run events (page_world page).
Proof.
  destruct e as [existingWindows now|textBoxes now|box currentText currentTime fresh
                |now|k env sentAt|]; simpl.
  - revert page. induction existingWindows as [|[window boxes] l IH]; intros page.
    { by exists []. }
    simpl. destruct (IH (watch_existing now page (window, boxes))) as (events & ->).
    unfold watch_existing. simpl. case_bool_decide; [by exists events|].
    simpl. unfold monitor_container. destruct (head boxes) as [box|].
    + by exists (Attach box now :: events).
    + by exists events.
  - exists []. revert page. induction textBoxes as [|box l IH]; intros page; [done|].
    simpl. rewrite IH. unfold watch_added. by case_bool_decide.
  - by eexists.
  - unfold run_monitor_timers. simpl.
    generalize (filter (λ call : Z * nat, (call.1 ≤ now)%Z) (monitor_timers page)).
    intros calls. exists (((λ call : Z * nat, Attach call.2 now) <$> calls) ++ [Tick now]).
    rewrite run_snoc. simpl. f_equal. generalize (page_world page).
    induction calls as [|call calls IH]; intros w; [done|]. simpl. apply IH.
  - by exists [Settle k env sentAt].
  - by exists [ClearAll].
Qed.

Lemma page_run_is_run events page :
  ∃ events', page_world (page_run events page) = run events' (page_world page).
Proof.
  revert page. induction events as [|e events IH]; intros page; [by exists []|].
  simpl. destruct (IH (page_step page e)) as (events2 & ->).
  destruct (page_step_is_run page e) as (events1 & ->).
  exists (events1 ++ events2). by rewrite run_app.
Qed.

(** Claim C7, where the code departs from it.  [watchedComposeWindows] is
    to keep a compose window from being watched twice, but it holds the
    dialog for a window that is open when the script starts and the text
    box for one found among added nodes.  The text box of a dialog that was
    open at the start, when it shows among added nodes, is watched a second
    time, and each watcher has a detected flag of its own.  One paste into
    that text box then runs the detection handler and [storeDraft] twice:
    two drafts are created for the one text box and handed to the store,
    the second replacing the first as the current draft.  And when the text
    box is watched again after the detection, a character typed within two
    seconds is detected by the new watcher, which has seen no text yet: a
    second draft is created for the text box and handed to the store, with
    the edited text as its original. *)
Theorem text_box_detected_twice :
  let w := page_world (page_run watched_twice initial_page) in
  let w' := page_world (page_run watched_again initial_page) in
  textBox <$> surfaces w = [0; 0]
  ∧ effects w = [EDetected 0 (draft_id draft_third); EStored draft_third;
                 EDetected 1 (draft_id draft_fourth); EStored draft_fourth]
  ∧ draft_textBox draft_third = 0 ∧ draft_textBox draft_fourth = 0
  ∧ draft_id draft_third ≠ draft_id draft_fourth
  ∧ stores_of 0 (effects w) = 2
  ∧ currentDraft w = Some draft_fourth
  ∧ textBox <$> surfaces w' = [0; 0]
  ∧ effects w' = [EDetected 0 (draft_id draft_third); EStored draft_third;
                  EAnalyze 0 paste_first;
                  EDetected 1 (draft_id draft_fifth); EStored draft_fifth]
  ∧ draft_textBox draft_fifth = 0
  ∧ stores_of 0 (effects w') = 2
  ∧ currentDraft w' = Some draft_fifth.
Proof.
  split_and!; try (vm_compute; reflexivity). discriminate.
Qed.

(** ** The statuses written (claim C9) *)

Lemma draftRecord_status draft :
  get (draftRecord draft) "status" = VStr (js "pending").
Proof. done. Qed.

Lemma analysis_data_status currentText wordCount sentAt delay pct analysis :
  get (analysis_data currentText wordCount sentAt delay pct analysis) "status"
  = VStr (js "editing").
Proof. unfold analysis_data, get. by rewrite lookup_insert_eq. Qed.

Lemma merge_analysis_editing record analysisData :
  get analysisData "status" = VStr (js "editing") →
  get (merge_analysis record analysisData) "status" = VStr (js "editing").
Proof.
  intros H. unfold get at 1. rewrite merge_analysis_status. simpl. by rewrite H.
Qed.

Lemma storeDraft_statuses draft stored :
  Forall (λ record, written_status (get record "status")) (default [] stored) →
  Forall (λ record, written_status (get record "status"))
    (default [] (storeDraft draft stored)).
Proof.
  intros H. unfold storeDraft. simpl. apply Forall_app. split; [done|].
  constructor; [|done]. left. apply draftRecord_status.
Qed.

Lemma updateDraftWithAnalysis_statuses draftId analysisData stored :
  get analysisData "status" = VStr (js "editing") →
  Forall (λ record, written_status (get record "status")) (default [] stored) →
  Forall (λ record, written_status (get record "status"))
    (default [] (updateDraftWithAnalysis draftId analysisData stored)).
Proof.
  intros Hst H. unfold updateDraftWithAnalysis.
  destruct (list_find _ _) as [[i record]|]; [|done].
  simpl. apply Forall_insert; [done|]. right. by apply merge_analysis_editing.
Qed.

Lemma status_inv_on_mutation surface currentText currentTime fresh w :
  status_inv w → status_inv (on_mutation surface currentText currentTime fresh w).
Proof.
  intros [Hst Hef].
  destruct (surfaces w !! surface) as [s|] eqn:Hs;
    [|by rewrite on_mutation_unwatched].
  destruct (decide (currentText = lastText s)) as [Heq|Hne];
    [by rewrite (on_mutation_same surface s)|].
  set (detect := paste_pattern s currentText currentTime).
  set (w1 := if detect
             then handleFridayDraftDetected surface (textBox s) currentText fresh w
            else w).
  assert (status_inv w1) as [Hst1 Hef1].
  { unfold w1. destruct detect; [|done]. split; simpl.
    - by apply storeDraft_statuses.
    - apply Forall_app. split; [done|]. by repeat constructor. }
  destruct ((fridayDraftDetected s || detect)
            && bool_decide (is_Some (currentDraft w1))) eqn:Hcond.
  - rewrite (on_mutation_armed surface s) by done. by split.
  - rewrite (on_mutation_idle surface s) by done. by split.
Qed.

Lemma status_inv_settle k env sentAt w :
  status_inv w → status_inv (settle k env sentAt w).
Proof.
  intros [Hst Hef].
  destruct (settle_frame k env sentAt w) as (_ & _ & _ & _ & ext & H6 & _ & H8).
  split; [|rewrite H6; by apply Forall_app].
  unfold settle. destruct (in_flight w !! k) as [p|]; [|done].
  destruct (analyzeEdits env _ _ _ _) as [analysis calls].
  destruct (currentDraft w) as [draft|]; [|done]. simpl.
  apply updateDraftWithAnalysis_statuses; [|done]. apply analysis_data_status.
Qed.

Lemma status_inv_run_timers now w : status_inv w → status_inv (run_timers now w).
Proof.
  intros [Hst Hef].
  destruct (run_timers_frame now w) as (_ & _ & _ & _ & H5 & ext & H6 & H7 & _).
  split; [by rewrite H5|]. rewrite H6. apply Forall_app. split; [done|].
  eapply Forall_impl; [exact H7|]. by intros [].
Qed.

Lemma status_inv_step w e : status_inv w → status_inv (step w e).
Proof.
  intros Hinv. destruct e; simpl.
  - exact Hinv.
  - by apply status_inv_on_mutation, status_inv_run_timers.
  - by apply status_inv_run_timers.
  - by apply status_inv_settle.
  - destruct Hinv. by split.
Qed.

Lemma status_inv_run events : status_inv (run events initial_world).
Proof.
  induction events as [|e events IH] using rev_ind; [by split|].
  rewrite run_snoc. by apply status_inv_step.
Qed.

(** Claim C9.  In every run, every record of the stored list has the status
    "pending" or "editing", none has "sent"; the record [storeDraft] appends
    is pending, and every update that [analyzeCurrentEdits] hands over
    carries the status "editing", whatever the verdict says, although the
    update does assign [sentAt] and [sendDelay]. *)
Theorem statuses_written (events : list Event) :
  let w := run events initial_world in
  Forall (λ record, written_status (get record "status"))
    (default [] (stored_drafts w))
  ∧ Forall (λ record, get record "status" ≠ VStr (js "sent"))
      (default [] (stored_drafts w))
  ∧ Forall status_effect (effects w)
  ∧ (∀ draft, get (draftRecord draft) "status" = VStr (js "pending"))
  ∧ (∀ record currentText wordCount sentAt delay pct analysis,
       let analysisData :=
         analysis_data currentText wordCount sentAt delay pct analysis in
       get (merge_analysis record analysisData) "status" = VStr (js "editing")
       ∧ merge_analysis record analysisData !! "sentAt"
         = Some (get analysisData "sentAt")
       ∧ merge_analysis record analysisData !! "sendDelay"
         = Some (get analysisData "sendDelay")).
Proof.
  intros w. destruct (status_inv_run events) as [Hst Hef]. fold w in Hst, Hef.
  split_and!; [done| |done|done|].
  - eapply Forall_impl; [exact Hst|]. intros record [-> | ->]; discriminate.
  - intros record currentText wordCount sentAt delay pct analysis analysisData.
    split_and!.
    + apply merge_analysis_editing, analysis_data_status.
    + unfold merge_analysis. by repeat (rewrite lookup_insert_ne by done);
        rewrite lookup_insert_eq.
    + unfold merge_analysis. by repeat (rewrite lookup_insert_ne by done);
        rewrite lookup_insert_eq.
Qed.

(** ** The debounce of one watcher *)

Lemma filter_filter_comm {A : Type} (P Q : A → Prop)
    `{∀ x, Decision (P x)} `{∀ x, Decision (Q x)} (l : list A) :
  filter P (filter Q l) = filter Q (filter P l).
Proof.
  rewrite !list_filter_filter. apply list_filter_iff. tauto.
Qed.

(** A change of the text seen by a watcher that has detected leaves
    exactly one timer armed for it: the new one. *)
Lemma on_mutation_restarts surface s currentText currentTime fresh w :
  timers_inv w →
  surfaces w !! surface = Some s → fridayDraftDetected s = true →
  currentText ≠ lastText s →
  let w' := on_mutation surface currentText currentTime fresh w in
  timers_of surface w'
  = [{| timer_id := next_timer w; timer_surface := surface;
        timer_due := (currentTime + ANALYSIS_DELAY)%Z;
        timer_text := currentText |}]
  ∧ surfaces w'
    = <[surface := {| textBox := textBox s;
                      lastText := currentText; lastChangeTime := currentTime;
                      fridayDraftDetected := true;
                      analysisTimer := Some (next_timer w) |}]> (surfaces w)
  ∧ effects w' = effects w.
Proof.
  intros [Hd Hf Hn Ho] Hs Hflag Hne w'.
  assert (paste_pattern s currentText currentTime = false) as Hp.
  { unfold paste_pattern. by rewrite Hflag. }
  assert (is_Some (currentDraft w)) as Hsome.
  { apply (Hd surface). unfold detected. by rewrite Hs. }
  unfold w'. rewrite (on_mutation_armed surface s); [|done..|]; rewrite Hp.
  2: { rewrite Hflag. simpl. by apply bool_decide_eq_true. }
  simpl. split_and!; [|done..].
  unfold timers_of. simpl. rewrite filter_app, filter_cons_True by done.
  rewrite filter_nil.
  assert (filter (λ t, timer_surface t = surface)
            match analysisTimer s with
            | Some handle => filter (λ t, timer_id t ≠ handle) (timers w)
            | None => timers w
            end = []) as ->; [|done].
  apply elem_of_nil_inv. intros t [Hsurf Ht]%list_elem_of_filter.
  assert (t ∈ timers w ∧ analysisTimer s ≠ Some (timer_id t)) as [Ht' Hid].
  { destruct (analysisTimer s) as [handle|]; [|done].
    apply list_elem_of_filter in Ht as [Hid Ht]. split; [done|]. congruence. }
  destruct (Ho t Ht') as (s' & Hs' & Ha). rewrite Hsurf, Hs in Hs'. congruence.
Qed.

(** A change arrives before any timer of the watcher is due. *)
Lemma change_before_due surface s w text time fresh :
  timers_inv w →
  surfaces w !! surface = Some s → fridayDraftDetected s = true →
  text ≠ lastText s →
  (∀ t, t ∈ timers_of surface w → (time < timer_due t)%Z) →
  let w' := step w (Mutation surface text time fresh) in
  timers_inv w'
  ∧ (∃ s', surfaces w' !! surface = Some s' ∧ fridayDraftDetected s' = true
           ∧ lastText s' = text)
  ∧ (∃ t, timers_of surface w' = [t] ∧ timer_text t = text
          ∧ timer_due t = (time + ANALYSIS_DELAY)%Z)
  ∧ analyses_of surface (effects w') = analyses_of surface (effects w).
Proof.
  intros Hinv Hs Hflag Hne Hdue w'. unfold w'. simpl.
  destruct (run_timers_frame time w) as (R1 & R2 & R3 & R4 & R5 & ext & R6 & R7 & R8).
  pose proof (timers_inv_run_timers time w Hinv) as Hinv0.
  set (w0 := run_timers time w) in *.
  assert (surfaces w0 !! surface = Some s) as Hs0 by (by rewrite R2).
  destruct (on_mutation_restarts surface s text time fresh w0 Hinv0 Hs0 Hflag Hne)
    as (T1 & T2 & T3).
  split_and!.
  - by apply timers_inv_on_mutation.
  - rewrite T2, list_lookup_insert_eq by (by eapply lookup_lt_Some).
    by eexists.
  - rewrite T1. by eexists.
  - rewrite T3, R6, analyses_of_app, R8.
    rewrite filter_filter_comm. fold (timers_of surface w).
    assert (filter (λ t, (timer_due t ≤ time)%Z) (timers_of surface w) = [])
      as ->; [|by rewrite app_nil_r].
    apply elem_of_nil_inv. intros t [Ht1 Ht2]%list_elem_of_filter.
    specialize (Hdue t Ht2). lia.
Qed.

Lemma between_changes_step surface w0 w text time text' time' fresh :
  between_changes surface w0 w text time →
  text' ≠ text → (time' < time + ANALYSIS_DELAY)%Z →
  between_changes surface w0 (step w (Mutation surface text' time' fresh)) text' time'.
Proof.
  intros (Hinv & (s & Hs & Hflag & Htext) & (t & Ht & Htt & Htd) & Han) Hne Hlt.
  destruct (change_before_due surface s w text' time' fresh)
    as (G1 & G2 & G3 & G4); [done..|congruence| |].
  { intros t'. rewrite Ht. intros ->%list_elem_of_singleton. lia. }
  split_and!; [done..|]. by rewrite G4.
Qed.

(** A run of paced changes, from the state after the first of them. *)
Lemma between_changes_run surface w0 w text time changes :
  between_changes surface w0 w text time →
  paced text (Some time) changes →
  ∃ text' time',
    between_changes surface w0 (run (mutations surface changes) w) text' time'
    ∧ (last changes = None → text' = text ∧ time' = time)
    ∧ (∀ c, last changes = Some c → text' = c.1.1 ∧ time' = c.1.2).
Proof.
  revert w text time. induction changes as [|[[text1 time1] fresh1] changes IH];
    intros w text time Hb Hp.
  { exists text, time. by split_and!. }
  destruct Hp as (Hne & [Hle Hlt] & Hp).
  pose proof (between_changes_step surface w0 w text time text1 time1 fresh1
                Hb Hne Hlt) as Hb1.
  destruct (IH _ _ _ Hb1 Hp) as (text' & time' & Hb' & Hnone & Hsome).
  exists text', time'. split_and!.
  - done.
  - intros Hnil. by apply last_None in Hnil.
  - intros c. destruct changes as [|c' changes].
    + intros [= <-]. by apply Hnone.
    + rewrite last_cons_cons. apply Hsome.
Qed.

(** The quiet period has passed: the timer fires, with the last text. *)
Lemma between_changes_quiet surface w0 w text time now :
  between_changes surface w0 w text time →
  (time + ANALYSIS_DELAY ≤ now)%Z →
  let w' := step w (Tick now) in
  analyses_of surface (effects w') = analyses_of surface (effects w0) ++ [text]
  ∧ ∃ s, surfaces w' !! surface = Some s ∧ lastText s = text.
Proof.
  intros (Hinv & (s & Hs & Hflag & Htext) & (t & Ht & Htt & Htd) & Han) Hle w'.
  unfold w'. simpl.
  destruct (run_timers_frame now w) as (R1 & R2 & R3 & R4 & R5 & ext & R6 & R7 & R8).
  split.
  - rewrite R6, analyses_of_app, R8, Han.
    rewrite filter_filter_comm. fold (timers_of surface w). rewrite Ht.
    rewrite filter_cons_True by lia. simpl. by rewrite Htt.
  - rewrite R2. by exists s.
Qed.

(** The debounce, for one watcher (one call of [monitorComposeWindow],
    with its observer and its [analysisTimer]) that has detected a draft,
    in any reachable state: a content change whose text differs from the
    last text the observer saw leaves exactly one timer of this watcher
    armed, the new one, due 3000 ms later and holding the new text (the
    timer it had pending is cancelled); a change whose text is the last
    text seen changes nothing.  Hence, for a sequence of changes of which
    each differs from the text before it and follows the one before it by
    less than 3000 ms (the first arriving before a pending timer of the
    watcher is due), once 3000 ms or more have passed since the last of
    them, the timers of this watcher have run [analyzeCurrentEdits] exactly
    once, on the text of the last change, which is the text the observer
    saw last. *)
Theorem debounce (events : list Event) (surface : nat) (s : Surface) :
  let w := run events initial_world in
  surfaces w !! surface = Some s →
  fridayDraftDetected s = true →
  (∀ currentText currentTime fresh,
     currentText ≠ lastText s →
     timers_of surface (on_mutation surface currentText currentTime fresh w)
     = [{| timer_id := next_timer w; timer_surface := surface;
           timer_due := (currentTime + ANALYSIS_DELAY)%Z;
           timer_text := currentText |}])
  ∧ (∀ currentTime fresh,
       on_mutation surface (lastText s) currentTime fresh w = w)
  ∧ (∀ text1 time1 fresh1 changes text time fresh now,
       paced (lastText s) None ((text1, time1, fresh1) :: changes) →
       (∀ t, t ∈ timers_of surface w → (time1 < timer_due t)%Z) →
       last ((text1, time1, fresh1) :: changes) = Some (text, time, fresh) →
       (time + ANALYSIS_DELAY ≤ now)%Z →
       let w' := run (mutations surface ((text1, time1, fresh1) :: changes)
                        ++ [Tick now]) w in
       analyses_of surface (effects w')
       = analyses_of surface (effects w) ++ [text]
       ∧ ∃ s', surfaces w' !! surface = Some s' ∧ lastText s' = text).
Proof.
  intros w Hs Hflag.
  assert (timers_inv w) as Hinv by apply timers_inv_run, timers_inv_initial.
  split_and!.
  - intros currentText currentTime fresh Hne.
    by destruct (on_mutation_restarts surface s currentText currentTime fresh w)
      as (? & _).
  - intros currentTime fresh. by apply (on_mutation_same surface s).
  - intros text1 time1 fresh1 changes text time fresh now (Hne & _ & Hp)
      Hdue Hlast Hle w'.
    destruct (change_before_due surface s w text1 time1 fresh1 Hinv Hs Hflag Hne Hdue)
      as (G1 & G2 & G3 & G4).
    assert (between_changes surface w
              (step w (Mutation surface text1 time1 fresh1)) text1 time1) as Hb
      by done.
    destruct (between_changes_run surface w _ text1 time1 changes Hb Hp)
      as (text' & time' & Hb' & Hnone & Hsome).
    assert (text' = text ∧ time' = time) as [-> ->].
    { destruct changes as [|c changes].
      - destruct Hnone as [-> ->]; [done|]. by injection Hlast as -> -> _.
      - rewrite last_cons_cons in Hlast. by apply (Hsome _ Hlast). }
    unfold w'. rewrite run_app.
    by apply (between_changes_quiet surface w _ text time).
Qed.

(** After the paste at 500 ms, three edits at 1000, 1500 and 2000 ms and
    then silence until 5000 ms: one analysis, on the text of the third
    edit. *)
Lemma debounce_witness :
  timers_of 0 (on_mutation 0 last_edit 2000 fresh_1 detected_world)
  = [{| timer_id := next_timer detected_world; timer_surface := 0;
        timer_due := (2000 + ANALYSIS_DELAY)%Z; timer_text := last_edit |}]
  ∧ on_mutation 0 (lastText detected_surface) 2000 fresh_1 detected_world
    = detected_world
  ∧ analyses_of 0
      (effects (run (mutations 0 (three_edits ++ [(last_edit, 2000%Z, fresh_1)])
                       ++ [Tick 5000]) detected_world))
    = analyses_of 0 (effects detected_world) ++ [last_edit]
  ∧ ∃ s', surfaces
            (run (mutations 0 (three_edits ++ [(last_edit, 2000%Z, fresh_1)])
                    ++ [Tick 5000]) detected_world) !! 0 = Some s'
          ∧ lastText s' = last_edit.
Proof.
  destruct (debounce [Attach 0 0; Mutation 0 paste_40_250 500 fresh_1] 0
              detected_surface) as (Ha & Hb & Hc).
  - vm_compute. reflexivity.
  - reflexivity.
  - split; [|split].
    + apply Ha. intros H. apply (f_equal length) in H. vm_compute in H.
      discriminate.
    + apply Hb.
    + apply (Hc (paste_40_250 ++ js " T") 1000%Z fresh_1
               [(paste_40_250 ++ js " Th", 1500%Z, fresh_1);
                (last_edit, 2000%Z, fresh_1)]
               last_edit 2000%Z fresh_1 5000%Z).
      * simpl. unfold ANALYSIS_DELAY.
        split_and!; try lia; try done;
          intros H; apply (f_equal length) in H; vm_compute in H; discriminate.
      * intros t Ht. vm_compute in Ht.
        apply list_elem_of_singleton in Ht as ->. simpl. lia.
      * reflexivity.
      * unfold ANALYSIS_DELAY. lia.
Defined.

(** Claim C2, where the code departs from it.  The debounce is kept by each
    watcher for itself, and a text box can have two watchers (the dialog
    that was open at the start is in [watchedComposeWindows], its text box
    is not, and is watched again when it shows among added nodes).  After
    the paste both have detected; the cut, one second later, is one content
    change, and each observer arms a timer of its own for it.  When the
    quiet period of 3000 ms is over, [analyzeCurrentEdits] runs twice on the
    text of the cut, and the classifier is called twice. *)
Theorem text_box_analysed_twice :
  let w := page_world (page_run watched_twice initial_page) in
  let w1 := page_world (page_run (watched_twice ++ take 1 cut_and_wait)
                          initial_page) in
  let w2 := page_world (page_run (watched_twice ++ cut_and_wait) initial_page) in
  textBox <$> surfaces w = [0; 0]
  ∧ fridayDraftDetected <$> surfaces w = [true; true]
  ∧ (λ t, (timer_surface t, timer_due t, timer_text t)) <$> timers w1
    = [(0, 65000%Z, cut_first); (1, 65000%Z, cut_first)]
  ∧ effects w1 = effects w
  ∧ effects w2
    = effects w ++ [EAnalyze 0 cut_first; EClassify paste_first cut_first;
                    EAnalyze 1 cut_first; EClassify paste_first cut_first]
  ∧ lastText <$> surfaces w2 = [cut_first; cut_first].
Proof. split_and!; vm_compute; reflexivity. Qed.

(** The episode end to end: one analysis on the shortened text, no call
    left in flight, and the stored record carries the status, the measured
    percentage and delay, and the verdict of the length heuristic. *)
Example episode_end_to_end :
  let w := run episode detected_world in
  analyses_of 0 (effects w) = [shortened_text]
  ∧ in_flight w = []
  ∧ (λ record, (get record "status", get record "editPercentage",
                get record "sendDelay", get record "lengthChange"))
      <$> default [] (stored_drafts w)
    = [(VStr (js "editing"), VNum (Finite 39), VNum (Finite 3500),
        VStr (js "Shortened"))].
Proof. vm_compute. done. Qed.

(** * More of the code

    ** The distance as a metric *)

Section levenshtein_metric.
Context {char : Type} `{EqDecision char}.
Implicit Types a b c : list char.

Lemma edits_app n m a b c : edits n a b → edits m b c → edits (n + m) a c.
Proof.
  induction 1 as [a|n a a' b He _ IH]; intros Hbc; [done|].
  simpl. econstructor; [done|]. by apply IH.
Qed.

Lemma lev_triangle a b c : lev a c ≤ lev a b + lev b c.
Proof.
  apply lev_lower_bound.
  apply (edits_app _ _ a b c); apply lev_upper_bound.
Qed.

Lemma lev_0_eq a b : lev a b = 0 → a = b.
Proof.
  intros H. pose proof (lev_upper_bound a b) as He. rewrite H in He.
  by inversion He.
Qed.

(** One edit changes the length by at most one. *)
Lemma edit1_length a b : edit1 a b → length a ≤ S (length b) ∧ length b ≤ S (length a).
Proof.
  destruct 1 as [p x q|p x q|p x x' q]; rewrite !length_app; simpl; lia.
Qed.

Lemma edits_length n a b : edits n a b → length a ≤ n + length b ∧ length b ≤ n + length a.
Proof.
  induction 1 as [a|n a a' b He _ IH]; [lia|].
  apply edit1_length in He. lia.
Qed.

(** A character both strings start with costs nothing. *)
Lemma lev_cons_same x a b : lev (x :: a) (x :: b) = lev a b.
Proof.
  rewrite lev_cons, decide_True by done.
  pose proof (lev_uncons_l_le x a b) as H1.
  pose proof (lev_uncons_l_le x b a) as H2.
  rewrite (lev_sym b a), (lev_sym (x :: b) a) in H2. lia.
Qed.

Lemma lev_app_same_l p a b : lev (p ++ a) (p ++ b) = lev a b.
Proof.
  induction p as [|x p IH]; [done|].
  by rewrite <-!app_comm_cons, lev_cons_same.
Qed.

Lemma lev_app_same_r s a b : lev (a ++ s) (b ++ s) = lev a b.
Proof.
  rewrite <-(lev_reverse (a ++ s)), !reverse_app, lev_app_same_l.
  apply lev_reverse.
Qed.
End levenshtein_metric.

(** The triangle inequality: going from A to C through B takes no fewer
    edits than going directly. *)
Theorem levenshteinDistance_triangle (A B C : jsstring) :
  ∃ ab bc ac,
    levenshteinDistance A B = Some ab
    ∧ levenshteinDistance B C = Some bc
    ∧ levenshteinDistance A C = Some ac
    ∧ ac ≤ ab + bc.
Proof.
  exists (lev A B), (lev B C), (lev A C).
  rewrite !levenshteinDistance_lev. split_and!; try done. apply lev_triangle.
Qed.

(** The distance is 0 for equal strings only. *)
Theorem levenshteinDistance_zero_iff (A B : jsstring) :
  levenshteinDistance A B = Some 0 ↔ A = B.
Proof.
  rewrite levenshteinDistance_lev. split.
  - intros [= H]. by apply lev_0_eq.
  - intros ->. by rewrite lev_refl.
Qed.

(** The distance lies between the difference of the two lengths and the
    larger of them. *)
Theorem levenshteinDistance_length_bounds (A B : jsstring) :
  ∃ d,
    levenshteinDistance A B = Some d
    ∧ length A - length B ≤ d
    ∧ length B - length A ≤ d
    ∧ d ≤ length A `max` length B.
Proof.
  exists (lev A B). rewrite levenshteinDistance_lev.
  pose proof (edits_length _ _ _ (lev_upper_bound A B)).
  pose proof (lev_le_max A B). split_and!; [done|lia..].
Qed.

(** Text that both strings begin with and text that both end with does not
    count: the distance is that of the parts in between. *)
Theorem levenshteinDistance_common_affixes (P S A B : jsstring) :
  levenshteinDistance (P ++ A ++ S) (P ++ B ++ S) = levenshteinDistance A B.
Proof.
  rewrite !levenshteinDistance_lev. by rewrite lev_app_same_l, lev_app_same_r.
Qed.

(** ** Values that round to themselves *)

Section exact_rounding.
Local Open Scope Q_scope.

Lemma round_to_double_Qeq q q' : q == q' → round_to_double q == round_to_double q'.
Proof.
  intros H. apply Qle_antisym; apply round_to_double_mono; rewrite H; apply Qle_refl.
Qed.

(** Rounding does not depend on how the rational is written. *)
Lemma round64_Qeq q q' : q == q' → round64 q = round64 q'.
Proof.
  intros H. unfold round64.
  pose proof (round_to_double_Qeq q q' H) as Hr.
  rewrite (Qred_complete _ _ Hr).
  assert (Qle_bool (2 ^ 1024) (Qabs (round_to_double q))
          = Qle_bool (2 ^ 1024) (Qabs (round_to_double q'))) as ->.
  { apply Qleb_comp; [done|]. by rewrite Hr. }
  assert (Qle_bool 0 q = Qle_bool 0 q') as ->; [|done].
  by apply Qleb_comp.
Qed.

Lemma round64_reduced q r : round64 q = Finite r → Qred r = r.
Proof.
  unfold round64. destruct (Qle_bool _ _); [done|].
  intros [= <-]. apply Qcanon.Qred_involutive.
Qed.

Lemma rne_eq_Z q z : q == inject_Z z → rne q = z.
Proof.
  intros H. apply Z.le_antisymm; [apply rne_le_Z|apply rne_ge_Z]; rewrite H;
    apply Qle_refl.
Qed.

(** A magnitude of at most 53 significant bits, down to the subnormal
    spacing, is not changed by rounding. *)
Lemma round_mag_dyadic a z e :
  (0 < z < 2 ^ 53)%Z → (-1074 <= e)%Z → a == inject_Z z * 2 ^ e →
  round_mag a == a.
Proof.
  intros Hz He Ha.
  assert (0 < inject_Z z) as Hz0.
  { change 0 with (inject_Z 0). rewrite <-Zlt_Qlt. lia. }
  assert (inject_Z z < 2 ^ 53) as Hz1.
  { rewrite pow2_inject by lia. rewrite <-Zlt_Qlt. lia. }
  pose proof (pow2_pos e) as He0.
  assert (0 < a) as Ha0.
  { rewrite Ha. by apply Qmult_lt_0_compat. }
  assert (ulp_exp a <= e)%Z as Hu.
  { unfold ulp_exp. destruct (ilog2_spec a Ha0) as [H1 _].
    destruct (Z.le_gt_cases (53 + e) (ilog2 a)) as [Hge|]; [|lia].
    exfalso. apply (Qlt_irrefl a).
    eapply Qlt_le_trans; [|exact H1].
    eapply Qlt_le_trans; [|apply pow2_le, Hge].
    rewrite Ha, pow2_add. by apply Qmult_lt_compat_r. }
  unfold round_mag. set (u := ulp_exp a) in *.
  pose proof (pow2_pos u) as Hu0.
  assert (a == inject_Z (z * 2 ^ (e - u)) * 2 ^ u) as Hau.
  { rewrite inject_Z_mult, <-pow2_inject by lia.
    rewrite <-Qmult_assoc, <-pow2_add.
    by replace (e - u + u)%Z with e by lia. }
  rewrite (rne_eq_Z _ (z * 2 ^ (e - u))); [by rewrite <-Hau|].
  rewrite Hau at 1. field. lra.
Qed.

(** So is a binary64 value: at most 53 significant bits and an exponent in
    range. *)
Lemma round64_dyadic q z e :
  (Z.abs z < 2 ^ 53)%Z → (-1074 <= e <= 970)%Z → q == inject_Z z * 2 ^ e →
  round64 q = Finite (Qred q).
Proof.
  intros Hz He Hq.
  assert (round_to_double q == q ∧ Qabs q < 2 ^ 1024) as [Hr Hb].
  { pose proof (pow2_pos e) as He0.
    assert (2 ^ 53 * 2 ^ e <= 2 ^ 1023) as Htop.
    { rewrite <-pow2_add. apply pow2_le. lia. }
    assert (2 ^ 1023 < 2 ^ 1024) as Htop' by (apply pow2_lt; lia).
    assert (∀ y : Z, (0 < y < 2 ^ 53)%Z → inject_Z y * 2 ^ e < 2 ^ 1024) as Hlt.
    { intros y Hy. eapply Qle_lt_trans; [|exact Htop'].
      eapply Qle_trans; [|exact Htop].
      apply Qmult_le_compat_r; [|lra].
      rewrite pow2_inject by lia. rewrite <-Zle_Qle. lia. }
    destruct (Z.lt_trichotomy z 0) as [Hneg|[->|Hpos]].
    - assert (- q == inject_Z (- z) * 2 ^ e) as Hq'.
      { rewrite Hq, inject_Z_opp. ring. }
      assert (0 < inject_Z (- z)) as Hz0.
      { change 0 with (inject_Z 0). rewrite <-Zlt_Qlt. lia. }
      assert (0 < - q) as Hq0.
      { rewrite Hq'. by apply Qmult_lt_0_compat. }
      pose proof (Hlt (- z)%Z ltac:(lia)) as Hlt'.
      split.
      + unfold round_to_double.
        assert ((q ?= 0) = Lt) as ->.
        { apply (proj1 (Qlt_alt _ _)). lra. }
        rewrite (round_mag_dyadic (- q) (- z) e); [ring|lia|lia|done].
      + apply Qabs_Qlt_condition. rewrite <-Hq' in Hlt'. lra.
    - assert (q == 0) as Hq0.
      { rewrite Hq. change (inject_Z 0) with 0. ring. }
      split.
      + unfold round_to_double.
        assert ((q ?= 0) = Eq) as ->; [by apply (proj1 (Qeq_alt _ _))|].
        by rewrite Hq0.
      + rewrite Hq0. apply pow2_pos.
    - assert (0 < inject_Z z) as Hz0.
      { change 0 with (inject_Z 0). rewrite <-Zlt_Qlt. lia. }
      assert (0 < q) as Hq0.
      { rewrite Hq. by apply Qmult_lt_0_compat. }
      pose proof (Hlt z ltac:(lia)) as Hlt'.
      split.
      + unfold round_to_double.
        assert ((q ?= 0) = Gt) as ->.
        { apply (proj1 (Qgt_alt _ _)). lra. }
        apply (round_mag_dyadic q z e); [lia|lia|done].
      + apply Qabs_Qlt_condition. rewrite <-Hq in Hlt'. lra. }
  unfold round64. rewrite (Qred_complete _ _ Hr).
  rewrite Qle_bool_false; [done|]. by rewrite Hr.
Qed.

(** An integer below 2^53 in magnitude, however the rational is written. *)
Lemma round64_Z q z :
  (Z.abs z < 2 ^ 53)%Z → q == inject_Z z → round64 q = Finite (inject_Z z).
Proof.
  intros Hz Hq. rewrite (round64_dyadic q z 0); [|done|lia|].
  - by rewrite (Qred_complete _ _ Hq), inject_Z_Qred.
  - rewrite Hq. change (2 ^ 0) with 1. ring.
Qed.

Lemma Qfloor_eq q k : inject_Z k <= q → q < inject_Z (k + 1) → Qfloor q = k.
Proof.
  intros H1 H2. apply Z.le_antisymm.
  - pose proof (Qfloor_le q) as H.
    assert (inject_Z (Qfloor q) < inject_Z (k + 1)) as H' by lra.
    rewrite <-Zlt_Qlt in H'. lia.
  - rewrite <-(Qfloor_Z k). by apply Qfloor_resp_le.
Qed.

(** The quotient of a count below 2^32 by a small divisor rounds to a
    value with the integer quotient as its floor. *)
Lemma js_div_floor (n m : nat) :
  (1 ≤ m ≤ 16)%nat → (Z.of_nat n < 2 ^ 32)%Z →
  ∃ r, js_div (Number_of_nat n) (Number_of_nat m) = Finite r
       ∧ Qfloor r = (Z.of_nat n / Z.of_nat m)%Z.
Proof.
  intros Hm Hn. change (2 ^ 32)%Z with 4294967296%Z in Hn.
  set (N := Z.of_nat n) in *. set (M := Z.of_nat m).
  assert (1 <= M <= 16)%Z as HM by lia.
  assert (0 <= N)%Z as HN by lia.
  set (k := (N / M)%Z).
  assert (0 <= k <= N)%Z as Hk.
  { split; [apply Z.div_pos; lia|]. apply Z.div_le_upper_bound; nia. }
  assert (M * k <= N < M * (k + 1))%Z as Hdiv.
  { pose proof (Z.mul_div_le N M ltac:(lia)).
    pose proof (Z.mul_succ_div_gt N M ltac:(lia)). unfold k. lia. }
  assert (0 < inject_Z M) as HM0.
  { change 0 with (inject_Z 0). rewrite <-Zlt_Qlt. lia. }
  unfold js_div, Number_of_nat. fold N M.
  destruct (Qeq_bool (inject_Z M) 0) eqn:Hz.
  { apply Qeq_bool_iff in Hz. lra. }
  set (y := inject_Z (16 * k + 15) * 2 ^ (-4)).
  assert (inject_Z (16 * k + 15) == inject_Z k * 16 + 15) as Hy0.
  { rewrite inject_Z_plus, inject_Z_mult. ring. }
  assert (y == inject_Z k + (15 # 16)) as Hy.
  { unfold y. rewrite Hy0. change (2 ^ (-4)) with (1 # 16). field. }
  destruct (round64_between (inject_Z k) y (inject_Z k) (Qred y)
              (inject_Z N / inject_Z M)) as (r & Hr & Hr1 & Hr2).
  - apply Qle_shift_div_l; [done|].
    rewrite <-inject_Z_mult, <-Zle_Qle. lia.
  - apply Qle_shift_div_r; [done|]. rewrite Hy.
    assert (inject_Z N <= inject_Z (M * (k + 1) - 1)) as H.
    { rewrite <-Zle_Qle. lia. }
    assert (inject_Z (M * (k + 1) - 1) == inject_Z M * inject_Z k + inject_Z M - 1)
      as H'.
    { unfold Zminus. rewrite inject_Z_plus, inject_Z_mult, inject_Z_plus.
      change (inject_Z 1) with 1. change (inject_Z (- (1))) with (- (1)). ring. }
    assert (inject_Z M <= 16) as HM1.
    { change 16 with (inject_Z 16). rewrite <-Zle_Qle. lia. }
    rewrite H' in H. lra.
  - apply round64_Z; [lia|done].
  - apply (round64_dyadic y (16 * k + 15) (-4)); [lia|lia|done].
  - exists r. split; [done|]. apply Qfloor_eq; [done|].
    rewrite Qred_correct, Hy in Hr2. rewrite inject_Z_plus.
    change (inject_Z 1) with 1. lra.
Qed.
End exact_rounding.

(** ** The edit percentage and the analysis threshold *)

Section percentage_facts.
Local Open Scope Q_scope.

Lemma inject_nat_pos (m : nat) : (1 ≤ m)%nat → 0 < inject_Z (Z.of_nat m).
Proof. intros. change 0 with (inject_Z 0). rewrite <-Zlt_Qlt. lia. Qed.

Lemma js_div_nat (d m : nat) :
  (1 ≤ m)%nat →
  js_div (Number_of_nat d) (Number_of_nat m)
  = round64 (inject_Z (Z.of_nat d) / inject_Z (Z.of_nat m)).
Proof.
  intros Hm. pose proof (inject_nat_pos m Hm). unfold js_div, Number_of_nat.
  destruct (Qeq_bool (inject_Z (Z.of_nat m)) 0) eqn:Hz; [|done].
  apply Qeq_bool_iff in Hz. lra.
Qed.

(** Nothing changed is 0 percent, everything changed is 100 percent. *)
Lemma percentage_0 (m : nat) :
  (1 ≤ m)%nat →
  Math_round (js_mul (js_div (Number_of_nat 0) (Number_of_nat m)) (Number_of_nat 100))
  = Finite 0.
Proof.
  intros Hm. pose proof (inject_nat_pos m Hm). rewrite js_div_nat by done.
  rewrite (round64_Qeq _ 0); [by vm_compute|].
  change (inject_Z (Z.of_nat 0)) with 0. field. lra.
Qed.

Lemma percentage_100 (m : nat) :
  (1 ≤ m)%nat →
  Math_round (js_mul (js_div (Number_of_nat m) (Number_of_nat m)) (Number_of_nat 100))
  = Finite 100.
Proof.
  intros Hm. pose proof (inject_nat_pos m Hm). rewrite js_div_nat by done.
  rewrite (round64_Qeq _ 1); [by vm_compute|]. field. lra.
Qed.

(** In doubles as in exact arithmetic: with lengths below 2^32 the rounded
    percentage reaches 10 exactly when the ratio reaches 9.5 percent. *)
Lemma percentage_threshold (d m : nat) :
  (d ≤ m)%nat → (1 ≤ m)%nat → (Z.of_nat m < 2 ^ 32)%Z →
  js_ge
    (Math_round
       (js_mul (js_div (Number_of_nat d) (Number_of_nat m)) (Number_of_nat 100)))
    (Number_of_nat 10)
  = bool_decide (19 * m ≤ 200 * d)%nat.
Proof.
  intros Hdm Hm Hb. change (2 ^ 32)%Z with 4294967296%Z in Hb.
  pose proof (inject_nat_pos m Hm) as Hm0. rewrite js_div_nat by done.
  set (D := Z.of_nat d). set (M := Z.of_nat m) in *.
  assert (0 <= D <= M)%Z as HD by lia.
  assert (inject_Z M <= 4294967295) as HM1.
  { change 4294967295 with (inject_Z 4294967295). rewrite <-Zle_Qle. lia. }
  assert (∀ a b c : Z, (a * D + b * M + c <= 0)%Z →
            inject_Z a * inject_Z D + inject_Z b * inject_Z M + inject_Z c <= 0)
    as Hlin.
  { intros a b c H. rewrite <-!inject_Z_mult, <-!inject_Z_plus.
    change 0 with (inject_Z 0). by rewrite <-Zle_Qle. }
  set (x := inject_Z D / inject_Z M).
  assert (0 <= x ∧ x <= 1) as [Hx0 Hx1].
  { split.
    - apply Qle_shift_div_l; [done|].
      pose proof (Hlin (-1) 0 0)%Z as H. simpl in H. lapply H; [|lia].
      q_constants. lra.
    - apply Qle_shift_div_r; [done|].
      pose proof (Hlin 1 (-1) 0)%Z as H. simpl in H. lapply H; [|lia].
      q_constants. lra. }
  change (Number_of_nat 10) with (Finite 10).
  case_bool_decide as Hc.
  - assert ((19 # 200) <= x) as Hx.
    { apply Qle_shift_div_l; [done|].
      pose proof (Hlin (-200) 19 0)%Z as H. simpl in H. lapply H; [|lia].
      q_constants. lra. }
    destruct (change_between (19 # 200) 1 x)
      as (z & -> & Hz1 & _); [done|done|by vm_compute..|].
    assert ((19 # 2) <= round64_value (round64_value (19 # 200) * 100)) as H95
      by (by vm_compute).
    unfold Math_round, js_ge, js_lt.
    rewrite Qle_bool_true; [done|].
    change 10 with (inject_Z 10). rewrite <-Zle_Qle.
    change 10%Z with (Qfloor 10). apply Qfloor_resp_le. lra.
  - assert (x <= below_19_200) as Hx.
    { apply Qle_shift_div_r; [done|].
      pose proof (Hlin 200 (-19) 1)%Z as H. simpl in H. lapply H; [|lia].
      q_constants. unfold below_19_200. lra. }
    destruct (change_between 0 below_19_200 x)
      as (z & -> & _ & Hz2); [done|done|by vm_compute..|].
    assert (round64_value (round64_value below_19_200 * 100) < (19 # 2)) as H95
      by (by vm_compute).
    unfold Math_round, js_ge, js_lt.
    rewrite Qle_bool_false; [done|].
    change 10 with (inject_Z 10). rewrite <-Zlt_Qlt.
    assert (z + (1 # 2) < inject_Z 10) as Hlt.
    { change (inject_Z 10) with 10. lra. }
    pose proof (Qfloor_le (z + (1 # 2))) as Hfl.
    assert (inject_Z (Qfloor (z + (1 # 2))) < inject_Z 10) as H' by lra.
    by rewrite <-Zlt_Qlt in H'.
Qed.
End percentage_facts.

(** The percentage does not depend on the direction of the comparison; it
    is 0 for a text compared with itself and 100 for a text compared with
    the empty text. *)
Theorem calculateEditPercentage_laws (A B : jsstring) :
  calculateEditPercentage A B = calculateEditPercentage B A
  ∧ (A ≠ [] →
     calculateEditPercentage A A = Some (Finite 0)
     ∧ calculateEditPercentage A [] = Some (Finite 100)
     ∧ calculateEditPercentage [] A = Some (Finite 100)).
Proof.
  unfold calculateEditPercentage. rewrite !levenshteinDistance_lev. split.
  - by rewrite (lev_sym B A), (Nat.max_comm (length B)).
  - intros HA. assert (1 ≤ length A) as Hlen by (destruct A; simpl; [done|lia]).
    rewrite lev_refl, lev_nil_l, lev_nil_r, Nat.max_id.
    change (length ([] : jsstring)) with 0. rewrite Nat.max_0_r, Nat.max_0_l.
    by rewrite percentage_0, percentage_100.
Qed.

(** "Hello" against itself, against nothing, and nothing against it. *)
Lemma calculateEditPercentage_laws_witness :
  calculateEditPercentage (js "Hello") (js "Hello") = Some (Finite 0)
  ∧ calculateEditPercentage (js "Hello") [] = Some (Finite 100)
  ∧ calculateEditPercentage [] (js "Hello") = Some (Finite 100).
Proof.
  apply (calculateEditPercentage_laws (js "Hello") []). discriminate.
Defined.

(** When the timer fires, a classification is started exactly when the
    edits amount to at least 9.5 percent of the longer of the two texts,
    [19 * max ≤ 200 * distance]: the percentage is rounded to the nearest
    integer before it is compared with the minimum of 10. *)
Theorem analyzeCurrentEdits_threshold (w : World) (draft : Draft)
    (currentText : jsstring) (now : Z) :
  currentDraft w = Some draft →
  originalText draft ≠ [] →
  (Z.of_nat (length (originalText draft)) < 2 ^ 32)%Z →
  (Z.of_nat (length currentText) < 2 ^ 32)%Z →
  ∃ distance,
    levenshteinDistance (originalText draft) currentText = Some distance
    ∧ let maxLength := length (originalText draft) `max` length currentText in
      (19 * maxLength ≤ 200 * distance →
       effects (analyzeCurrentEdits currentText now w)
       = effects w ++ [EClassify (originalText draft) currentText]
       ∧ length (in_flight (analyzeCurrentEdits currentText now w))
         = S (length (in_flight w)))
      ∧ (200 * distance < 19 * maxLength →
         analyzeCurrentEdits currentText now w = w).
Proof.
  intros Hdraft Hne Hb1 Hb2. exists (lev (originalText draft) currentText).
  split; [apply levenshteinDistance_lev|]. cbv zeta.
  unfold analyzeCurrentEdits, calculateEditPercentage.
  rewrite Hdraft, levenshteinDistance_lev.
  assert (1 ≤ length (originalText draft) `max` length currentText) as Hm.
  { destruct (originalText draft); simpl; [done|lia]. }
  unfold MIN_EDIT_PERCENTAGE.
  rewrite percentage_threshold; [|apply lev_le_max|done|lia].
  split; intros Hc.
  - rewrite bool_decide_true by done. simpl. by rewrite length_app, Nat.add_1_r.
  - by rewrite bool_decide_false by lia.
Qed.

(** The text of 26 words against the pasted 40: an analysis is started. *)
Lemma analyzeCurrentEdits_threshold_witness :
  ∃ distance,
    levenshteinDistance paste_40_250 shortened_text = Some distance
    ∧ let maxLength := length paste_40_250 `max` length shortened_text in
      (19 * maxLength ≤ 200 * distance →
       effects (analyzeCurrentEdits shortened_text 4000 detected_world)
       = effects detected_world ++ [EClassify paste_40_250 shortened_text]
       ∧ length (in_flight (analyzeCurrentEdits shortened_text 4000 detected_world))
         = S (length (in_flight detected_world)))
      ∧ (200 * distance < 19 * maxLength →
         analyzeCurrentEdits shortened_text 4000 detected_world = detected_world).
Proof.
  apply (analyzeCurrentEdits_threshold detected_world
           {| draft_id := fresh_id fresh_1; draft_textBox := 0;
              originalText := paste_40_250;
              originalWordCount := wordCount paste_40_250;
              generatedAt := fresh_iso fresh_1; timestamp := fresh_now fresh_1 |}).
  - reflexivity.
  - discriminate.
  - vm_compute. reflexivity.
  - vm_compute. reflexivity.
Defined.

(** ** The history of a run *)

Lemma stored_of_app l1 l2 : stored_of (l1 ++ l2) = stored_of l1 ++ stored_of l2.
Proof. apply omap_app. Qed.

Lemma requests_of_app l1 l2 : requests_of (l1 ++ l2) = requests_of l1 ++ requests_of l2.
Proof. apply omap_app. Qed.

Lemma requests_of_fetches calls : requests_of (EFetch <$> calls) = calls.
Proof.
  induction calls as [|r calls IH]; [done|]. simpl. f_equal. apply IH.
Qed.

Lemma stored_of_fetches calls : stored_of (EFetch <$> calls) = [].
Proof. by induction calls. Qed.

Lemma current_after_None l : current_after None l = last (stored_of l).
Proof. unfold current_after. by destruct (last (stored_of l)). Qed.

Lemma current_after_app current l1 l2 :
  current_after current (l1 ++ l2) = current_after (current_after current l1) l2.
Proof.
  unfold current_after. rewrite stored_of_app.
  destruct (stored_of l2) as [|d l] using rev_ind.
  - rewrite app_nil_r. simpl. by destruct (last (stored_of l1)).
  - by rewrite (assoc_L (++)), !last_snoc.
Qed.

Lemma targets_current_app current l1 l2 :
  targets_current current (l1 ++ l2)
  ↔ targets_current current l1 ∧ targets_current (current_after current l1) l2.
Proof.
  revert current. induction l1 as [|e l1 IH]; intros current.
  { simpl. unfold current_after. simpl. tauto. }
  assert (∀ c, current_after c (e :: l1)
               = current_after (match e with EStored d => Some d | _ => c end) l1)
    as Hafter.
  { intros c. unfold current_after.
    destruct e; simpl; try done.
    rewrite last_cons. by destruct (last (stored_of l1)). }
  rewrite Hafter. destruct e; simpl; rewrite IH; tauto.
Qed.

(** Effects that neither capture a draft, nor compare with one, nor send
    or write anything. *)
Lemma targets_current_fetches current calls :
  targets_current current (EFetch <$> calls).
Proof. by induction calls. Qed.

(** ** What each step does to the history *)

Lemma history_inv_ext w w' :
  currentDraft w' = currentDraft w → stored_drafts w' = stored_drafts w →
  in_flight w' = in_flight w → effects w' = effects w →
  history_inv w → history_inv w'.
Proof.
  intros H1 H2 H3 H4 [G1 G2 G3 G4 G5 G6].
  split; rewrite ?H1, ?H2, ?H3, ?H4; done.
Qed.

Lemma history_inv_initial : history_inv initial_world.
Proof. split; simpl; by try constructor. Qed.

Lemma last_elem_of {A : Type} (l : list A) x : last l = Some x → x ∈ l.
Proof.
  intros H. apply last_Some in H as [l' ->]. apply elem_of_app. right.
  by apply list_elem_of_singleton.
Qed.

(** The percentage of an analysis that is started. *)
Lemma started_percentage (original final : jsstring) pct :
  original ≠ [] →
  calculateEditPercentage original final = Some pct →
  js_ge pct (Number_of_nat MIN_EDIT_PERCENTAGE) = true →
  analysed_percentage pct.
Proof.
  intros Hne. unfold calculateEditPercentage.
  rewrite levenshteinDistance_lev. intros Heq Hge.
  destruct (percentage_range (lev original final)
              (length original `max` length final))
    as (p & Hp & Hrange); [apply lev_le_max| |].
  { destruct original; simpl; [done|lia]. }
  cbv zeta in Heq. rewrite Hp in Heq. injection Heq as <-. exists p. split; [done|].
  split; [|lia]. unfold js_ge, js_lt, Number_of_nat, MIN_EDIT_PERCENTAGE in Hge.
  apply negb_true_iff, negb_false_iff, Qle_bool_iff in Hge.
  rewrite <-Zle_Qle in Hge. lia.
Qed.

Lemma history_inv_analyzeCurrentEdits currentText now w :
  history_inv w → history_inv (analyzeCurrentEdits currentText now w).
Proof.
  intros Hinv. unfold analyzeCurrentEdits.
  destruct (currentDraft w) as [draft|] eqn:Hd; [|done].
  destruct (calculateEditPercentage _ _) as [pct|] eqn:Hpct; [|done].
  destruct (js_ge pct _) eqn:Hge; [|done].
  destruct Hinv as [G1 G2 G3 G4 G5 G6].
  assert (draft ∈ stored_of (effects w)) as Hin.
  { apply last_elem_of. by rewrite <-G1. }
  assert (passed_detection draft) as (_ & _ & Hlen).
  { rewrite Forall_forall in G3. by apply G3. }
  split; simpl; rewrite ?stored_of_app, ?requests_of_app; simpl;
    rewrite ?app_nil_r; [congruence| |done| |done|done].
  - apply targets_current_app. split; [done|]. simpl. split; [|done].
    exists draft. split; [|done]. by rewrite current_after_None, <-G1.
  - apply Forall_app. split; [done|]. constructor; [|done]. simpl.
    split_and!; [|done|by exists draft].
    apply (started_percentage (originalText draft) currentText); [|done..].
    intros Hnil. rewrite Hnil in Hlen. simpl in Hlen. lia.
Qed.

Lemma history_inv_timer_callback now w t :
  history_inv w → history_inv (timer_callback now w t).
Proof.
  intros [G1 G2 G3 G4 G5 G6]. apply history_inv_analyzeCurrentEdits.
  split; simpl; rewrite ?stored_of_app, ?requests_of_app; simpl;
    rewrite ?app_nil_r; try done.
  apply targets_current_app. by split.
Qed.

Lemma history_inv_run_timers now w : history_inv w → history_inv (run_timers now w).
Proof.
  intros Hinv. unfold run_timers.
  set (w0 := {| currentDraft := currentDraft w; surfaces := surfaces w;
                timers := filter (λ t, ¬ (timer_due t ≤ now)%Z) (timers w);
                next_timer := next_timer w; stored_drafts := stored_drafts w;
                in_flight := in_flight w; effects := effects w |}).
  assert (history_inv w0) as H0 by (by apply (history_inv_ext w)).
  clearbody w0. revert w0 H0.
  induction (filter (λ t, (timer_due t ≤ now)%Z) (timers w)) as [|t due IH];
    intros w0 H0; [done|].
  simpl. by apply IH, history_inv_timer_callback.
Qed.

(** The calls of the classifier carry the values it was given. *)
Lemma analyzeEdits_calls env originalText finalText editPercentage sendDelay :
  let calls := (analyzeEdits env originalText finalText editPercentage sendDelay).2 in
  calls = []
  ∨ ∃ apiKey, calls = [{| req_apiKey := apiKey; req_originalText := originalText;
                          req_finalText := finalText;
                          req_editPercentage := editPercentage;
                          req_sendDelay := sendDelay |}].
Proof.
  unfold analyzeEdits. destruct (openai_api_key env) as [apiKey|]; [|by left].
  case_bool_decide; [by left|]. right. exists apiKey.
  unfold analyzeEdits_call.
  by destruct (match fetch env _ with Some _ => _ | None => _ end).
Qed.

Lemma history_inv_settle k env sentAt w :
  history_inv w → history_inv (settle k env sentAt w).
Proof.
  intros [G1 G2 G3 G4 G5 G6]. unfold settle.
  destruct (in_flight w !! k) as [p|] eqn:Hp; [|done].
  pose proof (analyzeEdits_calls env (pending_originalText p)
                (pending_currentText p) (pending_editPercentage p)
                (pending_timeSinceGeneration p)) as Hcalls.
  destruct (analyzeEdits env _ _ _ _) as [analysis calls]. simpl in Hcalls.
  assert (Forall (λ request, analysed_percentage (req_editPercentage request)
                    ∧ ∃ draft, draft ∈ stored_of (effects w)
                               ∧ req_originalText request = originalText draft)
            calls) as Hreq.
  { rewrite Forall_lookup in G4. specialize (G4 k p Hp) as (Ha & _ & Hb).
    destruct Hcalls as [->|[apiKey ->]]; [done|]. by repeat constructor. }
  destruct (currentDraft w) as [draft|] eqn:Hd.
  - split; simpl;
      rewrite ?stored_of_app, ?requests_of_app, ?stored_of_fetches,
        ?requests_of_fetches; simpl; rewrite ?app_nil_r; try done.
    + apply targets_current_app. split; [done|].
      apply targets_current_app. split; [apply targets_current_fetches|].
      simpl. split; [|done]. exists draft. split; [|done].
      rewrite current_after_None. unfold current_after.
      rewrite stored_of_fetches. simpl. congruence.
    + by apply Forall_delete.
    + by apply Forall_app.
    + unfold updateDraftWithAnalysis.
      destruct (list_find _ _) as [[i record]|] eqn:Hfind; [|done].
      apply list_find_Some in Hfind as (Hi & _ & _).
      simpl. apply Forall_insert; [done|].
      rewrite Forall_lookup in G6. destruct (G6 i record Hi) as (d & Hd1 & Hd2).
      exists d. split; [done|]. intros key Hkey.
      rewrite merge_analysis_other by done. by apply Hd2.
  - split; simpl;
      rewrite ?stored_of_app, ?requests_of_app, ?stored_of_fetches,
        ?requests_of_fetches; simpl; rewrite ?app_nil_r; try done.
    + apply targets_current_app. split; [done|]. apply targets_current_fetches.
    + by apply Forall_delete.
    + by apply Forall_app.
Qed.

Lemma history_inv_handler surface s currentText currentTime fresh w :
  paste_pattern s currentText currentTime = true →
  history_inv w →
  history_inv (handleFridayDraftDetected surface (textBox s) currentText fresh w).
Proof.
  intros Hpat [G1 G2 G3 G4 G5 G6].
  apply paste_pattern_true in Hpat as (_ & Hwords & Hadded & _).
  unfold handleFridayDraftDetected.
  split; simpl; rewrite ?stored_of_app, ?requests_of_app; simpl;
    rewrite ?app_nil_r.
  - by rewrite last_snoc.
  - apply targets_current_app. by split.
  - apply Forall_app. split; [done|]. constructor; [|done].
    unfold passed_detection. simpl. split_and!; [done|done|lia].
  - eapply Forall_impl; [exact G4|]. intros p (H1 & H2 & d & H3 & H4).
    split_and!; [done..|]. exists d. split; [|done]. apply elem_of_app. by left.
  - eapply Forall_impl; [exact G5|]. intros r (H1 & d & H3 & H4).
    split; [done|]. exists d. split; [|done]. apply elem_of_app. by left.
  - apply Forall_app. split.
    + eapply Forall_impl; [exact G6|]. intros r (d & H3 & H4).
      exists d. split; [|done]. apply elem_of_app. by left.
    + constructor; [|done]. eexists. split; [|done].
      apply elem_of_app. right. by apply list_elem_of_singleton.
Qed.

(** The observer callback, as far as the history goes: the handler ran on
    a text that passed the test, or nothing happened. *)
Lemma on_mutation_core surface currentText currentTime fresh w :
  ∃ w1,
    (w1 = w
     ∨ ∃ s, surfaces w !! surface = Some s
            ∧ paste_pattern s currentText currentTime = true
            ∧ w1 = handleFridayDraftDetected surface (textBox s) currentText
                     fresh w)
    ∧ currentDraft (on_mutation surface currentText currentTime fresh w)
      = currentDraft w1
    ∧ stored_drafts (on_mutation surface currentText currentTime fresh w)
      = stored_drafts w1
    ∧ in_flight (on_mutation surface currentText currentTime fresh w)
      = in_flight w1
    ∧ effects (on_mutation surface currentText currentTime fresh w) = effects w1.
Proof.
  unfold on_mutation.
  destruct (surfaces w !! surface) as [s|] eqn:Hs; [|exists w; by split_and!; [left|..]].
  case_bool_decide; [exists w; by split_and!; [left|..]|].
  destruct (paste_pattern s currentText currentTime) eqn:Hpat.
  - exists (handleFridayDraftDetected surface (textBox s) currentText fresh w).
    split; [right; by exists s|].
    rewrite orb_true_r. simpl. by destruct (analysisTimer s).
  - exists w. split; [by left|]. rewrite orb_false_r.
    destruct (fridayDraftDetected s && bool_decide (is_Some (currentDraft w)));
      [by destruct (analysisTimer s)|done].
Qed.

Lemma history_inv_on_mutation surface currentText currentTime fresh w :
  history_inv w → history_inv (on_mutation surface currentText currentTime fresh w).
Proof.
  intros Hinv.
  destruct (on_mutation_core surface currentText currentTime fresh w)
    as (w1 & Hw1 & H1 & H2 & H3 & H4).
  apply (history_inv_ext w1); [done..|].
  destruct Hw1 as [->|(s & _ & Hpat & ->)]; [done|].
  by apply (history_inv_handler surface s currentText currentTime).
Qed.

Lemma history_inv_step w e : history_inv w → history_inv (step w e).
Proof.
  intros Hinv. destruct e; simpl.
  - by apply (history_inv_ext w).
  - by apply history_inv_on_mutation, history_inv_run_timers.
  - by apply history_inv_run_timers.
  - by apply history_inv_settle.
  - destruct Hinv as [G1 G2 G3 G4 G5 G6]. by split.
Qed.

Lemma history_inv_run events : history_inv (run events initial_world).
Proof.
  induction events as [|e events IH] using rev_ind; [apply history_inv_initial|].
  rewrite run_snoc. by apply history_inv_step.
Qed.

(** ** The draft an analysis is about *)

(** An analysis is always about the draft captured last, whichever the
    text box its text was edited in: the classification compares with the
    original text of that draft, and the update is addressed to its id. *)
Theorem analyses_target_last_draft (events : list Event) (l1 l2 : list Effect) :
  (∀ original final,
     effects (run events initial_world) = l1 ++ EClassify original final :: l2 →
     ∃ draft, last (stored_of l1) = Some draft ∧ original = originalText draft)
  ∧ (∀ draftId analysisData,
       effects (run events initial_world)
       = l1 ++ EUpdate draftId analysisData :: l2 →
       ∃ draft, last (stored_of l1) = Some draft ∧ draftId = draft_id draft).
Proof.
  pose proof (hist_targets _ (history_inv_run events)) as H.
  split.
  - intros original final Heq. rewrite Heq in H.
    apply targets_current_app in H as [_ [H _]].
    by rewrite current_after_None in H.
  - intros draftId analysisData Heq. rewrite Heq in H.
    apply targets_current_app in H as [_ [H _]].
    by rewrite current_after_None in H.
Qed.

(** Two text boxes: the cut made in the first is compared with the draft of
    the second, captured in between, and the record written, with the cut
    text as its final text, is the second draft's; the first stays
    pending. *)
Lemma analyses_target_last_draft_witness :
  (∃ draft,
     last (stored_of (take 5 (effects (run two_surfaces initial_world))))
     = Some draft
     ∧ paste_second = originalText draft)
  ∧ (λ record, (get record "id", get record "status", get record "finalText"))
      <$> default [] (stored_drafts (run two_surfaces initial_world))
    = [(VStr (draft_id draft_first), VStr (js "pending"), VUndefined);
       (VStr (draft_id draft_second), VStr (js "editing"), VStr cut_first)].
Proof.
  assert (effects (run two_surfaces initial_world)
          = take 5 (effects (run two_surfaces initial_world))
            ++ EClassify paste_second cut_first
                 :: drop 6 (effects (run two_surfaces initial_world))
          ∧ (λ record, (get record "id", get record "status",
                        get record "finalText"))
              <$> default [] (stored_drafts (run two_surfaces initial_world))
            = [(VStr (draft_id draft_first), VStr (js "pending"), VUndefined);
               (VStr (draft_id draft_second), VStr (js "editing"),
                VStr cut_first)]) as [Heffects Hrecords].
  { vm_compute. done. }
  split; [|exact Hrecords].
  exact (proj1 (analyses_target_last_draft two_surfaces _ _) _ _ Heffects).
Defined.

(** Every stored record holds a text that passed the detection: at least
    30 words, counted as the tracker counts them, and more than 100 code
    units.  No update changes that. *)
Theorem stored_records_passed_detection (events : list Event)
    (record : gmap string jsval) :
  record ∈ default [] (stored_drafts (run events initial_world)) →
  ∃ (text : jsstring) (n : nat),
    record !! "originalText" = Some (VStr text)
    ∧ record !! "originalWordCount" = Some (VNum (Number_of_nat n))
    ∧ n = wordCount text
    ∧ MIN_WORD_COUNT ≤ n
    ∧ 100 < length text.
Proof.
  intros Hin. pose proof (history_inv_run events) as [_ _ G3 _ _ G6].
  rewrite Forall_forall in G6. destruct (G6 record Hin) as (draft & Hd & Hrec).
  rewrite Forall_forall in G3. destruct (G3 draft Hd) as (H1 & H2 & H3).
  exists (originalText draft), (originalWordCount draft). split_and!; try done.
  - rewrite Hrec; [done|]. by apply (bool_decide_unpack _).
  - rewrite Hrec; [done|]. by apply (bool_decide_unpack _).
Qed.

Lemma stored_records_passed_detection_witness :
  ∃ (text : jsstring) (n : nat),
    draftRecord draft_1 !! "originalText" = Some (VStr text)
    ∧ draftRecord draft_1 !! "originalWordCount" = Some (VNum (Number_of_nat n))
    ∧ n = wordCount text
    ∧ MIN_WORD_COUNT ≤ n
    ∧ 100 < length text.
Proof.
  apply (stored_records_passed_detection
           [Attach 0 0; Mutation 0 paste_40_250 500 fresh_1]).
  vm_compute. left.
Defined.

(** What is sent to the classifier: an edit percentage that is an integer
    from 10 to 100, never [NaN], and the original text of a draft that
    was captured. *)
Theorem classifier_requests_valid (events : list Event) (request : Request) :
  EFetch request ∈ effects (run events initial_world) →
  analysed_percentage (req_editPercentage request)
  ∧ ∃ draft,
      EStored draft ∈ effects (run events initial_world)
      ∧ passed_detection draft
      ∧ req_originalText request = originalText draft.
Proof.
  intros Hin. pose proof (history_inv_run events) as [_ _ G3 _ G5 _].
  assert (request ∈ requests_of (effects (run events initial_world))) as Hreq.
  { apply list_elem_of_omap. by exists (EFetch request). }
  rewrite Forall_forall in G5. destruct (G5 request Hreq) as (Hpct & draft & Hd & Ho).
  split; [done|]. exists draft. rewrite Forall_forall in G3. split_and!.
  - apply list_elem_of_omap in Hd as (e & He & Hsome).
    destruct e; try done. by injection Hsome as ->.
  - by apply G3.
  - done.
Qed.

(** ** The verdict and the measured values *)

Lemma analysis_data_measurements currentText wordCount sentAt delay pct analysis :
  analysis_data currentText wordCount sentAt delay pct analysis
  = <["status" := VStr (js "editing")]>
      (spread analysis ∪ measurements currentText wordCount sentAt delay pct).
Proof. done. Qed.

(** What [updateDraftWithAnalysis] writes for a field other than the
    status: the value the analysis object has for it. *)
Lemma merge_analysis_field record analysisData k :
  k ∈ analysis_fields → k ≠ "status" →
  get (merge_analysis record analysisData) k = get analysisData k.
Proof.
  intros Hk Hstatus. unfold get at 1. unfold merge_analysis, analysis_fields in *.
  repeat (apply elem_of_cons in Hk as [->|Hk]);
    [..|by apply elem_of_nil in Hk]; try done;
    by repeat (rewrite lookup_insert_ne by done); rewrite lookup_insert_eq.
Qed.

Lemma measured_is_analysis_field k :
  k ∈ measured_fields → k ∈ analysis_fields ∧ k ≠ "status".
Proof.
  unfold measured_fields, analysis_fields. intros Hk.
  repeat (apply elem_of_cons in Hk as [->|Hk]);
    [..|by apply elem_of_nil in Hk]; (split; [|done]);
    by apply (bool_decide_unpack _).
Qed.

Lemma verdict_is_analysis_field k :
  k ∈ verdict_fields → k ∈ analysis_fields ∧ k ≠ "status"
                       ∧ measurements [] 0 [] 0 NaN !! k = None.
Proof.
  unfold verdict_fields, analysis_fields. intros Hk.
  repeat (apply elem_of_cons in Hk as [->|Hk]);
    [..|by apply elem_of_nil in Hk]; (split_and!; [|done..]);
    by apply (bool_decide_unpack _).
Qed.

(** The verdict is spread over the measured values and under the status.
    So a property of the verdict named like one of the five measured
    fields replaces the measurement in the stored record; the four verdict
    fields are the verdict's alone, and one it lacks is written as
    [undefined] whatever the record held; the status is "editing"
    whatever the verdict says. *)
Theorem verdict_overrides_measurements (record : gmap string jsval)
    (currentText : jsstring) (wordCount : nat) (sentAt : jsstring)
    (timeSinceGeneration : Z) (editPercentage : Number) (analysis : jsval) :
  let record' :=
    merge_analysis record
      (analysis_data currentText wordCount sentAt timeSinceGeneration
         editPercentage analysis) in
  (∀ k v, k ∈ measured_fields → spread analysis !! k = Some v →
          get record' k = v)
  ∧ (∀ k, k ∈ measured_fields → spread analysis !! k = None →
          get record' k
          = get (measurements currentText wordCount sentAt timeSinceGeneration
                   editPercentage) k)
  ∧ (∀ k, k ∈ verdict_fields → get record' k = get (spread analysis) k)
  ∧ get record' "status" = VStr (js "editing").
Proof.
  intros record'. unfold record'. rewrite analysis_data_measurements.
  split_and!.
  - intros k v Hk Hv. apply measured_is_analysis_field in Hk as [Hk Hs].
    rewrite merge_analysis_field by done. unfold get.
    rewrite lookup_insert_ne by done.
    by rewrite (lookup_union_Some_l _ _ _ _ Hv).
  - intros k Hk Hv. apply measured_is_analysis_field in Hk as [Hk Hs].
    rewrite merge_analysis_field by done. unfold get.
    rewrite lookup_insert_ne by done. by rewrite lookup_union_r.
  - intros k Hk. apply verdict_is_analysis_field in Hk as (Hk & Hs & Hm).
    rewrite merge_analysis_field by done. unfold get.
    rewrite lookup_insert_ne by done.
    destruct (spread analysis !! k) as [v|] eqn:Hv.
    + by rewrite (lookup_union_Some_l _ _ _ _ Hv).
    + rewrite lookup_union_r by done.
      assert (measurements currentText wordCount sentAt timeSinceGeneration
                editPercentage !! k = None) as ->; [|done].
      unfold measurements in *.
      repeat (rewrite lookup_insert_None in Hm; destruct Hm as [Hm ?]).
      by repeat (rewrite lookup_insert_ne by done).
  - apply merge_analysis_editing. unfold get. by rewrite lookup_insert_eq.
Qed.

(** A verdict that says 0 percent: the record says 0 percent, not the 33
    that were measured. *)
Lemma verdict_overrides_measurements_witness :
  get (merge_analysis record_a
         (analysis_data cut_first 20 (js "2023-11-14T22:13:24.000Z") 3500
            (Finite 33) verdict_with_percentage)) "editPercentage"
  = VNum (Finite 0).
Proof.
  apply (proj1 (verdict_overrides_measurements record_a cut_first 20
                  (js "2023-11-14T22:13:24.000Z") 3500 (Finite 33)
                  verdict_with_percentage)).
  - by apply (bool_decide_unpack _).
  - reflexivity.
Defined.

(** ** The calls of the classifier *)

(** One invocation sends at most one request, and none without a stored
    key; the request carries the stored key and the two texts, the
    percentage and the delay the classifier was given. *)
Theorem analyzeEdits_at_most_one_request (env : ClassifierEnv)
    (originalText finalText : jsstring) (editPercentage : Number) (sendDelay : Z) :
  let calls :=
    (analyzeEdits env originalText finalText editPercentage sendDelay).2 in
  length calls ≤ 1
  ∧ ∀ request, request ∈ calls →
      ∃ apiKey,
        openai_api_key env = Some apiKey ∧ apiKey ≠ []
        ∧ request = {| req_apiKey := apiKey; req_originalText := originalText;
                       req_finalText := finalText;
                       req_editPercentage := editPercentage;
                       req_sendDelay := sendDelay |}.
Proof.
  unfold analyzeEdits. destruct (openai_api_key env) as [apiKey|].
  - case_bool_decide as Hkey.
    + simpl. split; [lia|]. intros request Hin. by apply elem_of_nil in Hin.
    + unfold analyzeEdits_call.
      destruct (match fetch env _ with Some _ => _ | None => _ end); simpl;
        (split; [lia|]); intros request ->%list_elem_of_singleton;
        by exists apiKey.
  - simpl. split; [lia|]. intros request Hin. by apply elem_of_nil in Hin.
Qed.

Lemma analyzeEdits_at_most_one_request_witness :
  ∃ apiKey,
    openai_api_key env_network_down = Some apiKey ∧ apiKey ≠ []
    ∧ cut_request
      = {| req_apiKey := apiKey; req_originalText := paste_first;
           req_finalText := cut_first; req_editPercentage := Finite 33;
           req_sendDelay := 3500 |}.
Proof.
  apply (analyzeEdits_at_most_one_request env_network_down paste_first
           cut_first (Finite 33) 3500).
  vm_compute. left.
Defined.

(** The request of the episode with a key stored and the network down. *)
Lemma classifier_requests_valid_witness :
  analysed_percentage (req_editPercentage cut_request)
  ∧ ∃ draft,
      EStored draft
      ∈ effects (run ([Attach 0 0; Mutation 0 paste_first 500 fresh_1]
                        ++ cut_episode env_network_down) initial_world)
      ∧ passed_detection draft
      ∧ req_originalText cut_request = originalText draft.
Proof.
  apply (classifier_requests_valid
           ([Attach 0 0; Mutation 0 paste_first 500 fresh_1]
              ++ cut_episode env_network_down) cut_request).
  vm_compute. do 4 right. left.
Defined.

(** ** What the dashboard lists *)

Lemma loadAnalytics_storeDraft draft stored :
  loadAnalytics (storeDraft draft stored) = loadAnalytics stored.
Proof.
  unfold loadAnalytics, storeDraft. simpl. rewrite filter_app.
  rewrite (filter_cons_False _ (draftRecord draft)); [by rewrite filter_nil, app_nil_r|].
  by vm_compute.
Qed.

Lemma length_filter_insert {A : Type} (P : A → Prop) `{∀ x, Decision (P x)}
    (l : list A) i x :
  length (filter P (<[i:=x]> l)) ≤ S (length (filter P l)).
Proof.
  revert i. induction l as [|y l IH]; intros i; [simpl; lia|].
  destruct i as [|i]; simpl.
  - rewrite !filter_cons. destruct (decide (P x)), (decide (P y)); simpl; lia.
  - rewrite !filter_cons. specialize (IH i).
    destruct (decide (P y)); simpl; lia.
Qed.

Lemma loadAnalytics_update draftId analysisData stored :
  length (loadAnalytics (updateDraftWithAnalysis draftId analysisData stored))
  ≤ S (length (loadAnalytics stored)).
Proof.
  unfold loadAnalytics, updateDraftWithAnalysis.
  destruct (list_find _ _) as [[i record]|]; [|lia].
  simpl. apply length_filter_insert.
Qed.

(** A draft that was captured is not listed by the dashboard before an
    analysis of it is stored: the dashboard lists the records with the
    status "sent" or "editing", and the record [storeDraft] appends is
    pending.  One update lists at most one record more; after an update
    with the status "editing" that finds a record with its id, the
    dashboard lists a record with that id and the final text of the
    update. *)
Theorem dashboard_shows_draft_after_update (draft : Draft) (draftId : jsstring)
    (analysisData : gmap string jsval) (stored : Drafts) :
  loadAnalytics (storeDraft draft stored) = loadAnalytics stored
  ∧ length (loadAnalytics (updateDraftWithAnalysis draftId analysisData stored))
    ≤ S (length (loadAnalytics stored))
  ∧ (get analysisData "status" = VStr (js "editing") →
     (∃ record, record ∈ default [] stored
                ∧ strict_eq_str (get record "id") draftId = true) →
     ∃ record',
       record' ∈ loadAnalytics (updateDraftWithAnalysis draftId analysisData stored)
       ∧ strict_eq_str (get record' "id") draftId = true
       ∧ get record' "finalText" = get analysisData "finalText").
Proof.
  split_and!; [apply loadAnalytics_storeDraft|apply loadAnalytics_update|].
  intros Hstatus (record & Hin & Hid). unfold updateDraftWithAnalysis.
  destruct (list_find _ _) as [[i first]|] eqn:Hfind.
  - apply list_find_Some in Hfind as (Hi & Hfirst & _).
    exists (merge_analysis first analysisData). split_and!.
    + unfold loadAnalytics. simpl. apply list_elem_of_filter. split.
      * unfold get at 1 2. rewrite merge_analysis_status, Hstatus. by vm_compute.
      * apply (list_elem_of_lookup_2 _ i).
        apply list_lookup_insert_eq. by eapply lookup_lt_Some.
    + unfold get. rewrite merge_analysis_other; [done|].
      by apply (bool_decide_unpack _).
    + unfold get at 1, merge_analysis.
      by repeat (rewrite lookup_insert_ne by done); rewrite lookup_insert_eq.
  - apply list_find_None in Hfind. rewrite Forall_forall in Hfind.
    by destruct (Hfind record Hin).
Qed.

(** The second of two stored records is analysed. *)
Lemma dashboard_shows_draft_after_update_witness :
  ∃ record',
    record' ∈ loadAnalytics (updateDraftWithAnalysis (js "draft_b") sample_analysis
                               (Some [record_a; record_b]))
    ∧ strict_eq_str (get record' "id") (js "draft_b") = true
    ∧ get record' "finalText" = get sample_analysis "finalText".
Proof.
  apply (proj2 (proj2 (dashboard_shows_draft_after_update draft_1 (js "draft_b")
                         sample_analysis (Some [record_a; record_b])))).
  - reflexivity.
  - exists record_b. split; [|reflexivity]. right. left.
Defined.

(** ** Previews *)



(** ** The key, stored and read *)

Lemma truthy_sk (apiKey : jsstring) :
  js "sk-" `prefix_of` apiKey → truthy (VStr apiKey) = true.
Proof. intros [rest ->]. done. Qed.

(** The dashboard stores the trimmed input when it starts with "sk-" and
    nothing otherwise; what it stored is what the content script reads as
    its key, and it is not empty, so the classifier does not take the
    no-key path.  A key stored by [saveOpenAIKey] is read back as it was
    stored, from either storage. *)
Theorem stored_key_round_trip (input apiKey : jsstring)
    (sync : gmap string jsval) (store : KeyStore) :
  (js "sk-" `prefix_of` trim input →
   getOpenAIKey (ChromeSync (saveAPIKey input sync).1) = VStr (trim input)
   ∧ getAPIKey (saveAPIKey input sync).1 = VStr (trim input)
   ∧ truthy (getOpenAIKey (ChromeSync (saveAPIKey input sync).1)) = true)
  ∧ (¬ js "sk-" `prefix_of` trim input → (saveAPIKey input sync).1 = sync)
  ∧ getOpenAIKey (saveOpenAIKey apiKey store) = VStr apiKey.
Proof.
  unfold saveAPIKey. split_and!.
  - intros Hsk. rewrite bool_decide_true by done. simpl.
    unfold getAPIKey, get. rewrite lookup_insert_eq. simpl.
    pose proof (truthy_sk _ Hsk) as Ht. unfold js_or. by rewrite Ht.
  - intros Hsk. by rewrite bool_decide_false by done.
  - destruct store as [sync'|items]; simpl.
    + unfold get. rewrite lookup_insert_eq. simpl. unfold js_or.
      by destruct (truthy (VStr apiKey)) eqn:Ht; [|destruct apiKey].
    + rewrite lookup_insert_eq. unfold js_or.
      by destruct (truthy (VStr apiKey)) eqn:Ht; [|destruct apiKey].
Qed.

(** A key typed with a blank before and a line break after it. *)
Lemma stored_key_round_trip_witness :
  getOpenAIKey (ChromeSync (saveAPIKey (js " sk-test" ++ [10%N]) ∅).1)
  = VStr (trim (js " sk-test" ++ [10%N]))
  ∧ getAPIKey (saveAPIKey (js " sk-test" ++ [10%N]) ∅).1
    = VStr (trim (js " sk-test" ++ [10%N]))
  ∧ truthy (getOpenAIKey (ChromeSync (saveAPIKey (js " sk-test" ++ [10%N]) ∅).1))
    = true.
Proof.
  apply (stored_key_round_trip (js " sk-test" ++ [10%N]) [] ∅ (ChromeSync ∅)).
  by exists (js "test").
Defined.

(** ** How many watchers a page has *)








